(** * testbeam_analysis: the Monte-Carlo simulator [tools/simulate_data.py]

    A shallow embedding of the simulator and the properties of its
    specification.

    Numbers.  The module works on Python/numpy [float64] values.  The
    formulas of the charge-sharing engine are written once, over an
    interface [Number] of the arithmetic they use, and read at two types:
    - [float], Rocq's primitive binary64 numbers, which is what the program
      runs on (every definition computes with [vm_compute]);
    - [R], the real numbers, the idealisation in which the specification
      states its closed-form relations.
    Division is the true division of Python 3 and follows IEEE-754
    (numpy's behaviour: a zero divisor gives an infinity or a NaN).  The
    functions compiled with numba raise [ZeroDivisionError] for a zero
    divisor instead; they divide by the bias and, where sigma is not 0, by
    sqrt(2 sigma^2), and the model computes on with IEEE-754 there.
    [x ** 2] is the product [x * x].

    Pixel indices.  numpy keeps column and row numbers in floating-point
    arrays; they are whole numbers (the result of [np.around] or of a
    [range]), far below the 2^24 up to which even a float32 holds them
    exactly, and are held here as [Z].  A position that does not
    discretise to a finite number (pitch 0, overflow) has no index: the
    mask drops it, as every comparison with a NaN fails and an infinity
    fails one of the two bounds.

    Arrays.  An array is a list; a store is stdpp's [<[i := x]>] behind a
    test of the index.  The functions under [@njit] run without bounds
    checks: a store outside the array is the outcome [Raise IndexError],
    so that [Ok] is the outcome of a call all of whose stores fell inside
    the array.

    Randomness.  [np.random] is modelled as a state (how many variates
    were consumed, which calls were made) over a source of variates.

    [math.erf], [np.cos] and [np.sin] belong to the C library and are
    parameters of the development; [pyLandau] only weights the choice of
    the deposited charge. *)

From Stdlib Require Import ZArith List Bool Lia Floats Reals Lra Sorted.
From stdpp Require Import base list.
Import ListNotations.

Set Default Proof Using "Type".
Set Warnings "-inexact-float".

(** ** Python built-ins *)

(** [range(start, stop)]: [start, start+1, ..., stop-1]. *)
Definition range (start stop : Z) : list Z :=
  map (fun i : nat => (start + Z.of_nat i)%Z) (seq 0 (Z.to_nat (stop - start))).

(** [range(start, stop, -1)]: [start, start-1, ..., stop+1]. *)
Definition range_down (start stop : Z) : list Z :=
  map (fun i : nat => (start - Z.of_nat i)%Z) (seq 0 (Z.to_nat (start - stop))).

(** [len(range(0, stop, step))], for a step of either sign; a step of 0
is a [ValueError]. *)
Definition range_len (stop step : Z) : option nat :=
  if (step =? 0)%Z then None
  else if (0 <? step)%Z then Some (Z.to_nat ((stop + step - 1) / step))
  else Some (Z.to_nat ((stop + step + 1) / step)).

(** Exceptions the modelled code can end with.  [IndexError] is a store
    outside an array: Python raises it; compiled with numba (no bounds
    checking) the store lands behind the allocation instead. *)
Inductive exception : Type :=
  | ValueError
  | IndexError.

(** How a call ends: with a value, with an exception, or still inside a
    [while] loop when the fuel given to the model is used up. *)
Inductive result (A : Type) : Type :=
  | Ok (a : A)
  | Raise (e : exception)
  | Running.
Arguments Ok {A} a.
Arguments Raise {A} e.
Arguments Running {A}.

Definition rbind {A B} (r : result A) (k : A -> result B) : result B :=
  match r with
  | Ok a => k a
  | Raise e => Raise e
  | Running => Running
  end.

Notation "'do' x <- c ; k" := (rbind c (fun x => k))
  (at level 10, x name, c at level 100, k at level 200).

(** ** The arithmetic the engine uses *)

Class Number (F : Type) : Type := {
  nadd : F -> F -> F;
  nsub : F -> F -> F;
  nmul : F -> F -> F;
  ndiv : F -> F -> F;
  nsqrt : F -> F;
  nerf : F -> F;                 (* math.erf *)
  nltb : F -> F -> bool;         (* a < b *)
  nleb : F -> F -> bool;         (* a <= b *)
  neqb : F -> F -> bool;         (* a == b *)
  of_int : Z -> F;               (* an int used as a float *)
  boltzman_constant : F;         (* 8.6173324e-5 *)
  min_fraction : F;              (* 1e-3 *)
  float32 : F -> F               (* a value stored in a float32 array *)
}.

Declare Scope num_scope.
Delimit Scope num_scope with num.
Infix "+" := nadd : num_scope.
Infix "-" := nsub : num_scope.
Infix "*" := nmul : num_scope.
Infix "/" := ndiv : num_scope.
Infix "<?" := nltb : num_scope.
Infix "<=?" := nleb : num_scope.
Infix "=?" := neqb : num_scope.
Notation "a >=? b" := (nleb b a) (at level 70) : num_scope.

(** *** binary64 *)

Module F64.

(** The float nearest to an integer. *)
Definition of_Z (z : Z) : float :=
  SF2Prim (SpecFloat.binary_normalize prec emax z 0 false).

(** A binary64 value rounded to binary32 (to nearest, ties to even). *)
Definition to_float32 (x : float) : float :=
  match Prim2SF x with
  | SpecFloat.S754_finite s m e =>
      SF2Prim (SpecFloat.binary_normalize 24 128 (SpecFloat.cond_Zopp s (Z.pos m)) e s)
  | _ => x
  end.

(** [np.around] on one finite value: the nearest whole number, a tie
    going to the even one.  No result for an infinity or a NaN. *)
Definition rint (x : float) : option Z :=
  match Prim2SF x with
  | SpecFloat.S754_zero _ => Some 0%Z
  | SpecFloat.S754_finite s m e =>
      let n :=
        if (0 <=? e)%Z then (Z.pos m * 2 ^ e)%Z
        else
          let d := (2 ^ (- e))%Z in
          let q := (Z.pos m / d)%Z in
          let r := (Z.pos m mod d)%Z in
          if (2 * r <? d)%Z then q
          else if (d <? 2 * r)%Z then (q + 1)%Z
          else if Z.even q then q else (q + 1)%Z in
      Some (SpecFloat.cond_Zopp s n)
  | _ => None
  end.

(** [int(x)] and [astype(int)]: the whole part, towards zero. *)
Definition trunc (x : float) : option Z :=
  match Prim2SF x with
  | SpecFloat.S754_zero _ => Some 0%Z
  | SpecFloat.S754_finite s m e =>
      let n := if (0 <=? e)%Z then (Z.pos m * 2 ^ e)%Z else (Z.pos m / 2 ^ (- e))%Z in
      Some (SpecFloat.cond_Zopp s n)
  | _ => None
  end.

Definition number (erf : float -> float) : Number float := {|
  nadd := PrimFloat.add;
  nsub := PrimFloat.sub;
  nmul := PrimFloat.mul;
  ndiv := PrimFloat.div;
  nsqrt := PrimFloat.sqrt;
  nerf := erf;
  nltb := PrimFloat.ltb;
  nleb := PrimFloat.leb;
  neqb := PrimFloat.eqb;
  of_int := of_Z;
  boltzman_constant := 8.6173324e-5%float;
  min_fraction := 1e-3%float;
  float32 := to_float32
|}.

End F64.

(** A series for [math.erf] on binary64, to evaluate the engine at given
inputs: erf x = 2/sqrt(pi) * exp(-x^2) * sum_k 2^k x^(2k+1) / (1*3*...*(2k+1)),
every term of one sign; beyond |x| = 6 the value is 1 to the last bit. *)
Module Reference.

(** [acc] plus [n] further terms of a series in which term [k+1] is term
[k] times [step k]. *)
Fixpoint series (n : nat) (step : float -> float) (k term acc : float) : float :=
  match n with
  | O => acc
  | S n' =>
      let term' := (term * step k)%float in
      series n' step (k + 1)%float term' (acc + term')%float
  end.

Definition exp_series (y : float) : float :=
  series 300 (fun k => y / (k + 1))%float 0%float 1%float 1%float.

Definition erf (x : float) : float :=
  if negb (PrimFloat.eqb x x) then x
  else if PrimFloat.ltb 6%float (PrimFloat.abs x)
       then (if PrimFloat.ltb x 0%float then (-1)%float else 1%float)
  else
    let y := (x * x)%float in
    (2 / PrimFloat.sqrt 0x1.921fb54442d18p+1
     * series 300 (fun k => 2 * y / (2 * k + 3)) 0 x x / exp_series y)%float.

End Reference.

(** *** the real numbers *)

Module Real.

(** [math.erf] on the reals: 2/sqrt(pi) times the integral of exp(-t^2)
from 0 to x. *)
Definition gauss (t : R) : R := exp (- (t * t)).

Definition gauss_integrable (a b : R) : Riemann_integrable gauss a b.
Proof.
  assert (C : continuity gauss).
  { unfold gauss.
    apply (continuity_comp (fun t => (- (t * t))%R) exp).
    - apply continuity_opp.
      apply (continuity_mult id id); apply derivable_continuous, derivable_id.
    - apply derivable_continuous, derivable_exp. }
  destruct (Rle_dec a b) as [H | H].
  - apply continuity_implies_RiemannInt; [exact H | intros x _; apply C].
  - apply RiemannInt_P1, continuity_implies_RiemannInt; [lra | intros x _; apply C].
Defined.

Definition erf (x : R) : R :=
  (2 / sqrt PI * RiemannInt (gauss_integrable 0 x))%R.

Definition ltb (a b : R) : bool := if Rlt_dec a b then true else false.
Definition leb (a b : R) : bool := if Rle_dec a b then true else false.
Definition eqb (a b : R) : bool := if Req_dec_T a b then true else false.

Definition number (erf : R -> R) : Number R := {|
  nadd := Rplus;
  nsub := Rminus;
  nmul := Rmult;
  ndiv := Rdiv;
  nsqrt := sqrt;
  nerf := erf;
  nltb := ltb;
  nleb := leb;
  neqb := eqb;
  of_int := IZR;
  boltzman_constant := (86173324 / 1000000000000)%R;
  min_fraction := (1 / 1000)%R;
  float32 := fun x => x
|}.

End Real.

(** ** The charge-sharing engine *)

(** One row of a hit array: column, row, charge. *)
Record hit (F : Type) : Type := Hit {
  column : Z;
  row : Z;
  charge : F
}.
Arguments Hit {F} column row charge.
Arguments column {F} h.
Arguments row {F} h.
Arguments charge {F} h.

Section Engine.

Context {F : Type} {num : Number F}.
Local Open Scope num_scope.

Local Notation "0" := (of_int 0%Z) : num_scope.
Local Notation "1" := (of_int 1%Z) : num_scope.
Local Notation "2" := (of_int 2%Z) : num_scope.
Local Notation "4" := (of_int 4%Z) : num_scope.

Definition _calc_sigma_diffusion (distance temperature bias : F) : F :=
  distance * nsqrt (2 * temperature / bias * boltzman_constant).

Definition _bivariante_normal_cdf_limits (a1 a2 b1 b2 mu1 mu2 sigma : F) : F :=
  1 / 4
  * (nerf ((a2 - mu1) / nsqrt (2 * (sigma * sigma)))
     - nerf ((a1 - mu1) / nsqrt (2 * (sigma * sigma))))
  * (nerf ((b2 - mu2) / nsqrt (2 * (sigma * sigma)))
     - nerf ((b1 - mu2) / nsqrt (2 * (sigma * sigma)))).

Definition _calc_charge_fraction (position : F * F) (position_z : F)
    (pixel_index_x pixel_index_y : Z) (pixel_size_x pixel_size_y : F)
    (temperature bias digitization_sigma_cc : F) : F :=
  let sigma :=
    _calc_sigma_diffusion position_z temperature bias * digitization_sigma_cc in
  if sigma =? 0 then 1
  else
    _bivariante_normal_cdf_limits
      (pixel_size_x * (of_int pixel_index_x - 1 / 2))
      (pixel_size_x * (of_int pixel_index_x + 1 / 2))
      (pixel_size_y * (of_int pixel_index_y - 1 / 2))
      (pixel_size_y * (of_int pixel_index_y + 1 / 2))
      (fst position) (snd position) sigma.

(** The variables the loops of [_create_charge_sharing_hits] update. *)
Record search_state : Type := SearchState {
  total_fraction : F;
  result_hits : list (hit F);
  index : nat;
  n_hits : nat
}.

(** [result_hits[index] = ...; index += 1; n_hits += 1].  The store is
tested: outside the array it is [Raise IndexError], where the compiled
code stores behind the array and goes on.  A call that ends with [Ok] is
one whose stores all fell inside the array. *)
Definition add_hit (st : search_state) (h : hit F) : result search_state :=
  if decide (index st < length (result_hits st))%nat then
    Ok {| total_fraction := total_fraction st;
          result_hits := <[index st := h]> (result_hits st);
          index := S (index st);
          n_hits := S (n_hits st) |}
  else Raise IndexError.

Section Seed.

(** The arguments of one call of [_create_charge_sharing_hits]. *)
Variables (relative_position : F * F) (seed_column seed_row : Z) (seed_charge : F).
Variables (max_column max_row : Z).
Variables (thickness pixel_size_x pixel_size_y temperature bias : F).
Variable (digitization_sigma_cc : F).

Definition position_z : F := thickness / 2.

Definition fraction_at (actual_column actual_row : Z) : F :=
  _calc_charge_fraction relative_position position_z
    (actual_column - seed_column) (actual_row - seed_row)
    pixel_size_x pixel_size_y temperature bias digitization_sigma_cc.

(** The body shared by the four row loops: [rows] is the range still
    to visit.  A [break] ends the loop with the state reached. *)
Fixpoint row_loop (actual_column : Z) (rows : list Z) (st : search_state)
    : result search_state :=
  match rows with
  | [] => Ok st
  | actual_row :: rows' =>
      let fraction := fraction_at actual_column actual_row in
      let st1 := {| total_fraction := total_fraction st + fraction;
                    result_hits := result_hits st;
                    index := index st;
                    n_hits := n_hits st |} in
      if fraction <? min_fraction then Ok st1
      else
        do st2 <- add_hit st1 (Hit actual_column actual_row (float32 (fraction * seed_charge))) ;
        if total_fraction st2 >=? 1 - min_fraction then Ok st2
        else row_loop actual_column rows' st2
  end.

(** The body shared by the two column loops. *)
Fixpoint column_loop (columns : list Z) (st : search_state) : result search_state :=
  match columns with
  | [] => Ok st
  | actual_column :: columns' =>
      if (total_fraction st >=? 1 - min_fraction)
         || (_calc_charge_fraction relative_position position_z
               (actual_column - seed_column) 0 pixel_size_x pixel_size_y
               temperature bias digitization_sigma_cc <? min_fraction)
      then Ok st
      else
        do st1 <- row_loop actual_column (range seed_row max_row) st ;
        do st2 <- row_loop actual_column (range_down (seed_row - 1) 0) st1 ;
        column_loop columns' st2
  end.

Definition _create_charge_sharing_hits (result_hits0 : list (hit F)) (index0 : nat)
    : result (list (hit F) * nat * nat) :=
  let st0 := {| total_fraction := 0; result_hits := result_hits0;
                index := index0; n_hits := 0 |} in
  do st1 <- column_loop (range seed_column max_column) st0 ;
  do st2 <- column_loop (range_down (seed_column - 1) 0) st1 ;
  Ok (result_hits st2, index st2, n_hits st2).

End Seed.

End Engine.

Arguments search_state F : clear implicits.

(** [_add_charge_sharing_hits].  [relative_position i] is what the
    expression [relative_position[i]] of the source evaluates to: the two
    numbers [_calc_charge_fraction] reads as [position[0]] and
    [position[1]].  The factor [digitization_sigma_cc] is the literal [1.]
    of the call. *)
Section AddChargeSharing.

Context {F : Type} {num : Number F}.

Variables (relative_position : nat -> F * F).
Variables (max_column max_row : Z).
Variables (thickness pixel_size_x pixel_size_y temperature bias : F).

(** The loop over the seed hits; [actual_index] is the position of the
    head of [seeds] in [hits_digits].  The cluster sizes are held as
    natural numbers; the int16 array of the source holds a size below
    32768 as it is. *)
Fixpoint seed_loop (actual_index : nat) (seeds : list (hit F))
    (result_hits : list (hit F)) (result_index : nat) (n_hits_per_seed_hit : list nat)
    : result (list (hit F) * nat * list nat) :=
  match seeds with
  | [] => Ok (result_hits, result_index, n_hits_per_seed_hit)
  | actual_hit_digit :: seeds' =>
      do r <- _create_charge_sharing_hits (relative_position actual_index)
                (column actual_hit_digit) (row actual_hit_digit) (charge actual_hit_digit)
                max_column max_row thickness pixel_size_x pixel_size_y temperature bias
                (of_int 1) result_hits result_index ;
      let '(result_hits', result_index', n_hits) := r in
      seed_loop (S actual_index) seeds' result_hits' result_index'
        (<[actual_index := n_hits]> n_hits_per_seed_hit)
  end.

Definition zero_hit : hit F := Hit 0 0 (of_int 0).

Definition _add_charge_sharing_hits (hits_digits : list (hit F))
    : result (list (hit F) * list nat) :=
  let n_hits_per_seed_hit := repeat 0%nat (length hits_digits) in
  let result_hits := repeat zero_hit (5 * length hits_digits) in
  do r <- seed_loop 0 hits_digits result_hits 0 n_hits_per_seed_hit ;
  let '(result_hits', result_index, n_hits_per_seed_hit') := r in
  Ok (take result_index result_hits', n_hits_per_seed_hit').

End AddChargeSharing.

(** ** The random generator

    [np.random] is one global generator.  Its state is modelled by the
    number of variates consumed so far and, for the properties that speak
    about the order of sampling, the list of the calls made.  The variates
    themselves come from an [entropy] source: the [i]-th standard normal
    variate, the [i]-th uniform variate of [[0, 1)], and so on.  A normal
    draw is [loc + scale * g], as numpy computes it. *)

Inductive draw : Type :=
  | normal (loc scale : float) (size : nat)
  | random_sample (size : nat)
  | shuffle (size : nat)
  | choice (size : nat).

Record entropy : Type := Entropy {
  std_normal : nat -> float;
  unit_uniform : nat -> float;
  picked : nat -> nat;
  shuffled : nat -> nat -> list nat
}.

Record generator : Type := Generator {
  cursor : nat;
  draws : list draw
}.

Definition seeded : generator := {| cursor := 0; draws := [] |}.

(** A computation that samples and may raise. *)
Definition sim (A : Type) : Type := generator -> generator * result A.

Definition ret {A} (a : A) : sim A := fun g => (g, Ok a).
Definition raise {A} (e : exception) : sim A := fun g => (g, Raise e).
Definition running {A} : sim A := fun g => (g, Running).
Definition lift {A} (r : result A) : sim A := fun g => (g, r).

Definition bind {A B} (c : sim A) (k : A -> sim B) : sim B :=
  fun g =>
    match c g with
    | (g', Ok a) => k a g'
    | (g', Raise e) => (g', Raise e)
    | (g', Running) => (g', Running)
    end.

Notation "'run' x <- c ; k" := (bind c (fun x => k))
  (at level 10, x name, c at level 100, k at level 200).

Definition consume (d : draw) (n : nat) : sim nat :=
  fun g => ({| cursor := cursor g + n; draws := draws g ++ [d] |}, Ok (cursor g)).

Local Open Scope float_scope.

Definition pi : float := 0x1.921fb54442d18p+1.

Section Sampling.

Variable source : entropy.

(** [np.random.normal(loc, scale, size)]; a negative [size] or [scale] is
a [ValueError]. *)
Definition np_random_normal (loc scale : float) (size : Z) : sim (list float) :=
  if (size <? 0)%Z || (scale <? 0) then raise ValueError
  else
    run c <- consume (normal loc scale (Z.to_nat size)) (Z.to_nat size) ;
    ret (map (fun i => loc + scale * std_normal source (c + i)) (seq 0 (Z.to_nat size))).

(** [np.random.random(size)] *)
Definition np_random_random (size : nat) : sim (list float) :=
  run c <- consume (random_sample size) size ;
  ret (map (fun i => unit_uniform source (c + i)) (seq 0 size)).

(** [np.random.shuffle(np.arange(n))]: the shuffled indices. *)
Definition np_random_shuffle (n : nat) : sim (list nat) :=
  run c <- consume (shuffle n) n ;
  ret (shuffled source c n).

(** [np.random.choice(values, size, p)]: [size] entries of [values]; the
    weights [p] shape the distribution of the picks only. *)
Definition np_random_choice (values : list float) (size : nat) : sim (list float) :=
  run c <- consume (choice size) size ;
  ret (map (fun i => nth (picked source (c + i) mod length values) values 0) (seq 0 size)).

End Sampling.

(** ** Settings *)

(** The settings of one device; the class keeps them in parallel lists
    ([z_positions], [offsets], [dut_bias], ...) of length [n_duts]. *)
Record plane : Type := Plane {
  z_position : float;
  offset : float * float;
  dut_bias : float;
  dut_thickness : float;
  dut_threshold : float;
  dut_noise : float;
  dut_pixel_size : float * float;
  dut_n_pixel : Z * Z;
  dut_efficiency : float
}.

Record settings : Type := Settings {
  duts : list plane;
  temperature : float;
  beam_position : float * float;
  beam_position_sigma : float * float;
  beam_angle : float;
  beam_angle_sigma : float;
  tracks_per_event : float;
  tracks_per_event_sigma : float;
  digitization_charge_sharing : bool;
  digitization_sigma_cc : float
}.

Definition std_plane (i : Z) : plane := {|
  z_position := F64.of_Z (i * 10000);
  offset := (-2500, -2500);
  dut_bias := 50;
  dut_thickness := 100;
  dut_threshold := 0;
  dut_noise := 50;
  dut_pixel_size := (50, 50);
  dut_n_pixel := (1000%Z, 1000%Z);
  dut_efficiency := 1
|}.

(** [set_std_settings] *)
Definition std_settings : settings := {|
  duts := map std_plane (range 0 6);
  temperature := 300;
  beam_position := (0, 0);
  beam_position_sigma := (2000, 2000);
  beam_angle := 0;
  beam_angle_sigma := 1;
  tracks_per_event := 1;
  tracks_per_event_sigma := 1;
  digitization_charge_sharing := true;
  digitization_sigma_cc := 1.35
|}.

(** ** numpy helpers *)

(** [np.repeat(a, repeats)] with one count per element. *)
Definition np_repeat {A} (a : list A) (repeats : list nat) : list A :=
  flat_map (fun p => repeat (fst p) (snd p)) (combine a repeats).

(** [a[selection]] for a boolean array [selection]. *)
Definition select {A} (selection : list bool) (a : list A) : list A :=
  map snd (filter (fun p => fst p = true) (combine selection a)).

(** [a[:k]] *)
Definition slice_to {A} (k : Z) (a : list A) : list A :=
  if (0 <=? k)%Z then take (Z.to_nat k) a
  else take (length a - Z.to_nat (- k)) a.

(** [a[mask] = values]: the entries of [a] at which [mask] holds take the
    successive [values]. *)
Fixpoint assign_where (mask : float -> bool) (a values : list float) : list float :=
  match a with
  | [] => []
  | x :: a' =>
      if mask x then
        match values with
        | v :: values' => v :: assign_where mask a' values'
        | [] => x :: assign_where mask a' []
        end
      else x :: assign_where mask a' values
  end.

(** [astype(np.int)] of one value; numpy converts a NaN or an infinity to
    the smallest int64. *)
Definition astype_int (x : float) : Z :=
  match F64.trunc x with
  | Some z => z
  | None => (- 2 ^ 63)%Z
  end.

(** A whole number stored in a [uint16] field. *)
Definition astype_uint16 (z : Z) : Z := (z mod 65536)%Z.

(** One row of an output table ([_hit_dtype]); [frame] stays 0. *)
Record table_row : Type := TableRow {
  event_number : Z;
  frame : Z;
  hit_column : Z;
  hit_row : Z;
  hit_charge : Z
}.

(** ** The simulator *)

Section Simulator.

Variables (erf cos sin : float -> float).
Variable source : entropy.
(** What a read behind the transposed position array would find (see
    [transposed_row]; no seed hit of the array reads there). *)
Variable stray : float.
Variable self : settings.

Local Instance binary64 : Number float := F64.number erf.

(** *** TrackSampler *)

(** The [while] loop of [_create_tracks]. *)
Fixpoint cut_down (fuel : nat) (track_angles_theta : list float) : sim (list float) :=
  if existsb (fun t => pi <? t) track_angles_theta
     || existsb (fun t => t <? 0) track_angles_theta
  then
    match fuel with
    | O => running
    | S fuel' =>
        run high <- np_random_normal source (beam_angle self) (beam_angle_sigma self)
                      (Z.of_nat (length (filter (fun t => (pi <? t) = true) track_angles_theta))) ;
        let theta1 := assign_where (fun t => pi <? t) track_angles_theta high in
        run low <- np_random_normal source (beam_angle self) (beam_angle_sigma self)
                     (Z.of_nat (length (filter (fun t => (t <? 0) = true) theta1))) ;
        cut_down fuel' (assign_where (fun t => t <? 0) theta1 low)
    end
  else ret track_angles_theta.

Definition _create_tracks (fuel : nat) (n_tracks : Z)
    : sim (list float * list float * list float * list float) :=
  if (pi <? beam_angle self / 1000) || (beam_angle self / 1000 <? 0) then raise ValueError
  else
    run track_positions_x <-
      (if negb (fst (beam_position_sigma self) =? 0)
       then np_random_normal source (fst (beam_position self))
              (fst (beam_position_sigma self)) n_tracks
       else ret (repeat (fst (beam_position self)) (Z.to_nat n_tracks))) ;
    run track_positions_y <-
      (if negb (snd (beam_position_sigma self) =? 0)
       then np_random_normal source (snd (beam_position self))
              (fst (beam_position_sigma self)) n_tracks
       else ret (repeat (snd (beam_position self)) (Z.to_nat n_tracks))) ;
    run theta0 <-
      (if negb (beam_angle_sigma self =? 0)
       then run t <- np_random_normal source (beam_angle self / 1000)
                       (beam_angle_sigma self / 1000) n_tracks ;
            ret (map abs t)
       else ret (repeat (beam_angle self / 1000) (Z.to_nat n_tracks))) ;
    run track_angles_theta <- cut_down fuel theta0 ;
    run u <- np_random_random source (Z.to_nat n_tracks) ;
    let track_angles_phi := map (fun x => x * 2 * pi) u in
    ret (track_positions_x, track_positions_y, track_angles_phi, track_angles_theta).

(** *** PlaneProjector *)

Definition _create_hits_from_tracks
    (track_positions_x track_positions_y track_angles_phi track_angles_theta : list float)
    : list (list (float * float)) :=
  let track_positions := combine track_positions_x track_positions_y in
  let angles := combine track_angles_phi track_angles_theta in
  map (fun dut =>
         map (fun pa =>
                let '((x, y), (phi, theta)) := pa in
                let r := z_position dut / cos theta in
                (x + r * (cos phi * sin theta), y + r * (sin phi * sin theta)))
             (combine track_positions angles))
      (duts self).

(** *** ChargeDepositModel *)

(** [np.arange(0, 10, 0.1)] *)
Definition landau_grid : list float :=
  map (fun i : nat => F64.of_Z (Z.of_nat i) * 0.1) (seq 0 100).

Definition _get_charge_deposited (dut : plane) (n_entries : nat) : sim (list float) :=
  let mpv := 77 * dut_thickness dut in
  let charge := map (fun x => x * mpv) landau_grid in
  np_random_choice source charge n_entries.

(** *** DigitizationPipeline *)

(** One row of [dut_hits_digits].  A column or row number is absent when
the position did not discretise to a finite number. *)
Record digit : Type := Digit {
  digit_column : option Z;
  digit_row : option Z;
  digit_charge : float
}.

(** [np.around(v - 0.5) + 1] *)
Definition discretize (v : float) : option Z :=
  option_map (fun z => (z + 1)%Z) (F64.rint (v - 0.5)).

(** A seed hit as [range] needs it: with whole numbers.  The compiled
code converts the numbers of the float array without a check, and the
conversion of an infinity or a NaN is not defined; the model ends the
call there. *)
Definition to_seed (d : digit) : result (hit float) :=
  match digit_column d, digit_row d with
  | Some c, Some r => Ok (Hit c r (digit_charge d))
  | _, _ => Raise ValueError
  end.

Fixpoint to_seeds (ds : list digit) : result (list (hit float)) :=
  match ds with
  | [] => Ok []
  | d :: ds' =>
      do h <- to_seed d ;
      do hs <- to_seeds ds' ;
      Ok (h :: hs)
  end.

Definition of_hit (h : hit float) : digit :=
  {| digit_column := Some (column h); digit_row := Some (row h);
     digit_charge := charge h |}.

(** [relative_position.T[i]], as [_add_charge_sharing_hits] reads it.  The
caller hands over the transpose of its (n, 2) array, a view of shape
(2, n) on the same numbers; without bounds checks, entry [j] of row [i]
of that view is the number at place [i + 2 * j] of the array laid out
row by row.  The transpose of a single row is a contiguous array of its
own, which the compiled code walks in steps of one: the only hit then
reads its own two numbers.  (For [i] below [n] both places lie inside
the array.) *)
Definition transposed_row (relative_position : list (float * float)) (i : nat)
    : float * float :=
  let flat := flat_map (fun p => [fst p; snd p]) relative_position in
  if (length relative_position =? 1)%nat
  then (nth i flat stray, nth (i + 1) flat stray)
  else (nth i flat stray, nth (i + 2) flat stray).

(** The selection of the hits inside the device. *)
Definition inside (dut : plane) (d : digit) : bool :=
  match digit_column d, digit_row d with
  | Some c, Some r =>
      ((0 <? c)%Z && (c <=? fst (dut_n_pixel dut))%Z)
      && ((0 <? r)%Z && (r <=? snd (dut_n_pixel dut))%Z)
  | _, _ => false
  end.

(** The body of the loop over the devices in [_digitize_hits] is cut at
its comment lines into the stages below; each takes and returns the pair
of [dut_hits_digits] and [actual_event_number]. *)

(** Transform hits position into pixel array. *)
Definition discretized (dut : plane) (dut_hits : list (float * float))
    (deposited : list float) : list digit :=
  let pixel :=
    map (fun p => (discretize (fst p / fst (dut_pixel_size dut)),
                   discretize (snd p / snd (dut_pixel_size dut)))) dut_hits in
  map (fun pc => Digit (fst (fst pc)) (snd (fst pc)) (snd pc)) (combine pixel deposited).

(** Create cluster from seed hits arising from charge sharing. *)
Definition clustered (dut : plane) (dut_hits : list (float * float))
    (dut_hits_digits : list digit) (event_number : list Z)
    : sim (list digit * list Z) :=
  if digitization_charge_sharing self then
    run seeds <- lift (to_seeds dut_hits_digits) ;
    let relative_position :=
      map (fun ps =>
             (fst (fst ps) - (F64.of_Z (column (snd ps)) - 0.5) * fst (dut_pixel_size dut),
              snd (fst ps) - (F64.of_Z (row (snd ps)) - 0.5) * snd (dut_pixel_size dut)))
          (combine dut_hits seeds) in
    run r <- lift (_add_charge_sharing_hits (transposed_row relative_position)
                     (fst (dut_n_pixel dut)) (snd (dut_n_pixel dut))
                     (dut_thickness dut)
                     (fst (dut_pixel_size dut)) (snd (dut_pixel_size dut))
                     (temperature self) (dut_bias dut) seeds) ;
    ret (map of_hit (fst r), np_repeat event_number (snd r))
  else ret (dut_hits_digits, event_number).

(** Mask hits outside of the DUT. *)
Definition mask_outside (dut : plane) (a : list digit * list Z) : list digit * list Z :=
  let selection := map (inside dut) (fst a) in
  (select selection (fst a), select selection (snd a)).

(** Mask hits due to inefficiency. *)
Definition mask_inefficient (dut : plane) (a : list digit * list Z)
    : sim (list digit * list Z) :=
  run hit_indices <- np_random_shuffle source (length (snd a)) ;
  run n_inefficient_hit <-
    lift (match F64.trunc (F64.of_Z (Z.of_nat (length hit_indices))
                           * (1 - dut_efficiency dut)) with
          | Some k => Ok k
          | None => Raise ValueError
          end) ;
  let selection :=
    foldr (fun i sel => <[i := false]> sel) (repeat true (length (snd a)))
          (slice_to n_inefficient_hit hit_indices) in
  ret (select selection (fst a), select selection (snd a)).

(** Add noise to charge.  After charge sharing the array is the float32
result array, otherwise a float64 one. *)
Definition add_noise (dut : plane) (a : list digit * list Z) : sim (list digit * list Z) :=
  let store := if digitization_charge_sharing self then F64.to_float32 else (fun x => x) in
  run noise <- np_random_normal source 0 (dut_noise dut) (Z.of_nat (length (fst a))) ;
  ret (map (fun dn => Digit (digit_column (fst dn)) (digit_row (fst dn))
                        (store (digit_charge (fst dn) + snd dn)))
           (combine (fst a) noise),
       snd a).

(** The threshold as numpy compares it with the charge column: after
charge sharing the column is float32 and the threshold is rounded to
float32 first; otherwise the comparison is one of float64 numbers. *)
Definition compared_threshold (dut : plane) : float :=
  if digitization_charge_sharing self then F64.to_float32 (dut_threshold dut)
  else dut_threshold dut.

(** Delete hits below threshold. *)
Definition delete_below_threshold (dut : plane) (a : list digit * list Z)
    : list digit * list Z :=
  let selection := map (fun d => compared_threshold dut <=? digit_charge d) (fst a) in
  (select selection (fst a), select selection (snd a)).

Definition digitize_dut (event_number : list Z) (dut : plane)
    (dut_hits : list (float * float)) : sim (list Z * list digit) :=
  let dut_hits :=
    map (fun p => (fst p - fst (offset dut), snd p - snd (offset dut))) dut_hits in
  run deposited <- _get_charge_deposited dut (length dut_hits) ;
  let dut_hits_digits := discretized dut dut_hits deposited in
  run a <- clustered dut dut_hits dut_hits_digits event_number ;
  run a <- mask_inefficient dut (mask_outside dut a) ;
  run a <- add_noise dut a ;
  let a := delete_below_threshold dut a in
  ret (snd a, fst a).

Fixpoint digitize_loop (event_number : list Z)
    (todo : list (plane * list (float * float))) : sim (list (list Z * list digit)) :=
  match todo with
  | [] => ret []
  | (dut, dut_hits) :: todo' =>
      run one <- digitize_dut event_number dut dut_hits ;
      run others <- digitize_loop event_number todo' ;
      ret (one :: others)
  end.

Definition _digitize_hits (event_number : list Z) (hits : list (list (float * float)))
    : sim (list (list Z) * list (list digit)) :=
  run per_dut <- digitize_loop event_number (combine (duts self) hits) ;
  ret (map fst per_dut, map snd per_dut).

Definition _create_data (fuel : nat) (start_event_number n_events : Z)
    : sim (list (list Z) * list (list digit)) :=
  run drawn <- np_random_normal source (tracks_per_event self)
                 (tracks_per_event_sigma self) n_events ;
  let n_tracks_per_event := map (fun x => Z.max 0 (astype_int x)) drawn in
  let events := range 0 n_events in
  let event_number :=
    map (fun e => (e + start_event_number)%Z)
        (np_repeat events (map Z.to_nat n_tracks_per_event)) in
  run tracks <- _create_tracks fuel (fold_right Z.add 0%Z n_tracks_per_event) ;
  let '(track_positions_x, track_positions_y, track_angles_phi, track_angles_theta) :=
    tracks in
  let hits := _create_hits_from_tracks track_positions_x track_positions_y
                track_angles_phi track_angles_theta in
  _digitize_hits event_number hits.

(** *** ChunkedWriter *)

(** The arguments [(start_event_number, n_events)] of the successive calls
of [_create_data] in [create_data_and_store]. *)
Definition chunk_calls (n_events chunk_size : Z) : result (list (Z * Z)) :=
  match range_len n_events chunk_size with
  | None => Raise ValueError
  | Some n =>
      Ok (map (fun chunk_index : nat => ((Z.of_nat chunk_index * chunk_size)%Z, chunk_size))
              (seq 0 n))
  end.

(** The rows appended to the table of one device for one chunk. *)
Definition table_rows (actual_dut_events : list Z) (actual_dut_hits : list digit)
    : list table_row :=
  map (fun ed =>
         {| event_number := fst ed;
            frame := 0;
            hit_column := astype_uint16 (default 0%Z (digit_column (snd ed)));
            hit_row := astype_uint16 (default 0%Z (digit_row (snd ed)));
            hit_charge := astype_uint16 (astype_int (digit_charge (snd ed) / 10)) |})
      (combine actual_dut_events actual_dut_hits).

Fixpoint chunk_loop (fuel : nat) (calls : list (Z * Z)) (hit_tables : list (list table_row))
    : sim (list (list table_row)) :=
  match calls with
  | [] => ret hit_tables
  | (start_event_number, n_events) :: calls' =>
      run chunk <- _create_data fuel start_event_number n_events ;
      let appended :=
        map (fun te => fst te ++ table_rows (fst (snd te)) (snd (snd te)))
            (combine hit_tables (combine (fst chunk) (snd chunk))) in
      chunk_loop fuel calls' appended
  end.

Definition create_data_and_store (fuel : nat) (n_events chunk_size : Z)
    : sim (list (list table_row)) :=
  let hit_tables := map (fun _ => []) (duts self) in
  run calls <- lift (chunk_calls n_events chunk_size) ;
  chunk_loop fuel calls hit_tables.

End Simulator.

(** ** The closed-form relations of the specification, on the reals *)

Section ClosedForm.

Local Open Scope R_scope.

Variable erf : R -> R.

(** The diffusion sigma: drift distance times sqrt(2 T / bias k_B), times
the correction factor; the drift distance is half the thickness. *)
Definition diffusion_sigma (thickness temperature bias correction : R) : R :=
  thickness / 2 * sqrt (2 * temperature / bias * (86173324 / 1000000000000)) * correction.

(** The integral of one axis over a bin, with the factor [c] in front of
the difference of the two error functions. *)
Definition axis_bin_integral (c lower upper mu sigma : R) : R :=
  c * (erf ((upper - mu) / (sqrt 2 * sigma)) - erf ((lower - mu) / (sqrt 2 * sigma))).

(** The fraction of charge in the pixel [(ix, iy)] counted from the seed
pixel, for a deposit at [(mu1, mu2)] from the centre of the seed pixel:
the product of the two axis integrals. *)
Definition bin_fraction (c : R) (mu1 mu2 : R) (ix iy : Z) (pitch_x pitch_y sigma : R) : R :=
  axis_bin_integral c (pitch_x * (IZR ix - 1 / 2)) (pitch_x * (IZR ix + 1 / 2)) mu1 sigma
  * axis_bin_integral c (pitch_y * (IZR iy - 1 / 2)) (pitch_y * (IZR iy + 1 / 2)) mu2 sigma.

End ClosedForm.

(** ** Measures used in the statements *)

(** The records a call of [_create_charge_sharing_hits] has written:
those between the index it was given and the index it returns. *)
Definition written {F} (result_hits : list (hit F)) (index0 index1 : nat) : list (hit F) :=
  take (index1 - index0) (drop index0 result_hits).

(** The sum of the charges of a list of records. *)
Definition total_charge (hs : list (hit float)) : float :=
  fold_left (fun acc h => (acc + charge h)%float) hs 0%float.

(** The number of events the calls of [_create_data] simulate. *)
Definition simulated_events (calls : list (Z * Z)) : Z :=
  fold_right Z.add 0%Z (map snd calls).

(** A record lies on the device: 1 <= column <= pixel count in x and
1 <= row <= pixel count in y. *)
Definition on_device (dut : plane) (d : digit) : Prop :=
  exists c r : Z,
    digit_column d = Some c /\ digit_row d = Some r
    /\ (1 <= c <= fst (dut_n_pixel dut))%Z /\ (1 <= r <= snd (dut_n_pixel dut))%Z.

(** The pixel of a record. *)
Definition pixel (d : digit) : option Z * option Z := (digit_column d, digit_row d).

(** The pixels under the hits of a device, one per hit: the offset is
taken off, the position divided by the pitch and discretised. *)
Definition seed_pixels (dut : plane) (dut_hits : list (float * float))
    : list (option Z * option Z) :=
  map (fun p => (discretize ((fst p - fst (offset dut)) / fst (dut_pixel_size dut)),
                 discretize ((snd p - snd (offset dut)) / snd (dut_pixel_size dut))))
      dut_hits.

(** ** Fixed inputs for the evaluations

An entropy source whose normal and uniform variates are all 0 (a normal
draw returns its mean, the azimuth is 0), whose choices are the grid point
1.0 of the Landau grid and whose shuffles leave the order.  With it and a
beam angle of 0 every track has theta = 0 and phi = 0, so that [np.cos]
and [np.sin] are only asked for their values at 0: 1 and 0. *)
Definition calm : entropy := {|
  std_normal := fun _ => 0;
  unit_uniform := fun _ => 0;
  picked := fun _ => 10%nat;
  shuffled := fun _ n => seq 0 n
|}.

(** Two hits for the first device: one on the beam axis, one beside the
sensor, 500 um left of its first column. *)
Definition on_axis_and_beside : list (float * float) := [(0, 0); (-3000, 0)].

Definition cos_at_0 : float -> float := fun _ => 1.
Definition sin_at_0 : float -> float := fun _ => 0.

(** [self.digitization_charge_sharing = False], as the script at the end
of the module sets it. *)
Definition without_charge_sharing (self : settings) : settings := {|
  duts := duts self;
  temperature := temperature self;
  beam_position := beam_position self;
  beam_position_sigma := beam_position_sigma self;
  beam_angle := beam_angle self;
  beam_angle_sigma := beam_angle_sigma self;
  tracks_per_event := tracks_per_event self;
  tracks_per_event_sigma := tracks_per_event_sigma self;
  digitization_charge_sharing := false;
  digitization_sigma_cc := digitization_sigma_cc self
|}.

(** The standard settings with other beam statistics. *)
Definition with_beam (position_sigma : float * float) (angle angle_sigma : float)
    (self : settings) : settings := {|
  duts := duts self;
  temperature := temperature self;
  beam_position := beam_position self;
  beam_position_sigma := position_sigma;
  beam_angle := angle;
  beam_angle_sigma := angle_sigma;
  tracks_per_event := tracks_per_event self;
  tracks_per_event_sigma := tracks_per_event_sigma self;
  digitization_charge_sharing := digitization_charge_sharing self;
  digitization_sigma_cc := digitization_sigma_cc self
|}.

(** The settings with other devices. *)
Definition with_duts (planes : list plane) (self : settings) : settings := {|
  duts := planes;
  temperature := temperature self;
  beam_position := beam_position self;
  beam_position_sigma := beam_position_sigma self;
  beam_angle := beam_angle self;
  beam_angle_sigma := beam_angle_sigma self;
  tracks_per_event := tracks_per_event self;
  tracks_per_event_sigma := tracks_per_event_sigma self;
  digitization_charge_sharing := digitization_charge_sharing self;
  digitization_sigma_cc := digitization_sigma_cc self
|}.

(** The first standard device with another thickness, pitch and pixel
count. *)
Definition plane_with (thickness : float) (pixel_size : float * float) (n_pixel : Z * Z)
    : plane := {|
  z_position := 0;
  offset := (-2500, -2500);
  dut_bias := 50;
  dut_thickness := thickness;
  dut_threshold := 0;
  dut_noise := 50;
  dut_pixel_size := pixel_size;
  dut_n_pixel := n_pixel;
  dut_efficiency := 1
|}.

(** Three devices a configuration check would turn down: a thickness of
-100 um, a pitch of 0 um in x, no pixel in x. *)
Definition unphysical_planes : list plane :=
  [plane_with (-100) (50, 50) (1000%Z, 1000%Z);
   plane_with 100 (0, 50) (1000%Z, 1000%Z);
   plane_with 100 (50, 50) (0%Z, 1000%Z)].

(** The hit arrays a call of [_digitize_hits] or [_create_data] returns,
one per device; none when it raises. *)
Definition digitized_of (r : generator * result (list (list Z) * list (list digit)))
    : list (list digit) :=
  match snd r with
  | Ok (_, digitized_hits) => digitized_hits
  | _ => []
  end.

(** The array [result_hits'] with the index [index'] comes from
[result_hits] with [index] by stores at the successive places from [index]
on, each of a record satisfying [P]; every other place of the array, the
places of the hits before it among them, is as it was. *)
Definition stores {F} (P : hit F -> Prop)
    (result_hits : list (hit F)) (index : nat)
    (result_hits' : list (hit F)) (index' : nat) : Prop :=
  (index <= index')%nat
  /\ length result_hits' = length result_hits
  /\ (index < index' -> index' <= length result_hits)%nat
  /\ (forall j : nat, (j < index \/ index' <= j)%nat -> result_hits' !! j = result_hits !! j)
  /\ (forall (j : nat) (h : hit F), (index <= j < index')%nat ->
        result_hits' !! j = Some h -> P h).

(** What the two scans of one seed can reach: the + scan stops before
[max_], the - scan starts below the seed. *)
Definition reachable (seed max_ : Z) (z : Z) : Prop :=
  (seed <= z < max_)%Z \/ (0 < z < seed)%Z.

(** The sum of the charges of a list of records, on the reals. *)
Definition charge_sum (hs : list (hit R)) : R :=
  fold_right (fun h acc => (charge h + acc)%R) 0%R hs.

(** The sum of [f] over a list of indices. *)
Definition sum_over (f : Z -> R) (l : list Z) : R :=
  fold_right (fun z acc => (f z + acc)%R) 0%R l.

(** The error function at the lower edge of the pixel [i] of an axis, the
pixels being counted from the seed pixel. *)
Definition edge (erf : R -> R) (pitch mu sigma : R) (i : Z) : R :=
  erf ((pitch * (IZR i - 1 / 2) - mu) / (sqrt 2 * sigma))%R.

(** The share of the charge in the pixel [i] of an axis. *)
Definition mass (erf : R -> R) (pitch mu sigma : R) (i : Z) : R :=
  (1 / 2 * (edge erf pitch mu sigma (i + 1) - edge erf pitch mu sigma i))%R.

(** The test [sigma == 0] of [_calc_charge_fraction] succeeds, in binary64. *)
Definition sigma_is_zero (erf : float -> float)
    (thickness temperature bias digitization_sigma_cc : float) : Prop :=
  PrimFloat.eqb
    (_calc_sigma_diffusion (num := F64.number erf) (thickness / 2) temperature bias
     * digitization_sigma_cc) 0
  = true.

(** The records a call of [_add_charge_sharing_hits] returns; none when it
raises. *)
Definition records_of {F} (r : result (list (hit F) * list nat)) : list (hit F) :=
  match r with
  | Ok (records, _) => records
  | _ => []
  end.

(** ** Further measures *)

(** The pixel of a record of the cluster search. *)
Definition pixel_of {F} (h : hit F) : Z * Z := (column h, row h).

(** A record carries the share of the seed charge that falls into its own
pixel: the charge fraction of that pixel, which is not below the cutoff,
times the charge of the seed, as a float32. *)
Definition share_of_the_seed {F} {num : Number F} (relative_position : F * F)
    (seed_column seed_row : Z) (seed_charge : F)
    (thickness pixel_size_x pixel_size_y temperature bias digitization_sigma_cc : F)
    (h : hit F) : Prop :=
  let fraction :=
    fraction_at relative_position seed_column seed_row thickness pixel_size_x pixel_size_y
      temperature bias digitization_sigma_cc (column h) (row h) in
  charge h = float32 (nmul fraction seed_charge)
  /\ nltb fraction min_fraction = false.

(** The array and the index a call of [_create_charge_sharing_hits]
returns; an empty array and 0 when it raises. *)
Definition array_of {F} (r : result (list (hit F) * nat * nat)) : list (hit F) :=
  match r with
  | Ok (result_hits, _, _) => result_hits
  | _ => []
  end.

Definition index_of {F} (r : result (list (hit F) * nat * nat)) : nat :=
  match r with
  | Ok (_, index, _) => index
  | _ => 0%nat
  end.

(** What a computation that samples returns; [default] when it raises. *)
Definition returned {A} (default : A) (r : generator * result A) : A :=
  match snd r with
  | Ok a => a
  | _ => default
  end.

(** [total_fraction] after no, one or two pixels of fraction 1. *)
Definition whole_pixels (k : nat) : float :=
  match k with
  | O => 0
  | S O => 0 + 1
  | _ => 0 + 1 + 1
  end.

(** A polar angle passes the test of the [while] loop of [_create_tracks]:
it is neither above pi nor below 0. *)
Definition within_the_cut (t : float) : Prop :=
  (pi <? t) = false /\ (t <? 0) = false.

(** The two arrays of a device go together: one event number per record. *)
Definition aligned {A B} (a : list A * list B) : Prop := length (fst a) = length (snd a).

(** Event numbers in increasing order, all of them events of the chunk
that starts at [start_event_number]. *)
Definition chunk_events (start_event_number n_events : Z) (events : list Z) : Prop :=
  StronglySorted Z.le events
  /\ Forall (fun e => start_event_number <= e < start_event_number + n_events)%Z events.

(** The event numbers of a table are in increasing order and below [bound]. *)
Definition sorted_below (bound : Z) (table : list table_row) : Prop :=
  (0 <= bound)%Z
  /\ StronglySorted Z.le (map event_number table)
  /\ Forall (fun e => 0 <= e < bound)%Z (map event_number table).

(** A row of a table lies on the device. *)
Definition row_on_device (dut : plane) (r : table_row) : Prop :=
  (1 <= hit_column r <= fst (dut_n_pixel dut))%Z
  /\ (1 <= hit_row r <= snd (dut_n_pixel dut))%Z.

(** The number of entries of a boolean array that hold. *)
Definition count_true (selection : list bool) : nat :=
  length (filter (fun b => b = true) selection).

(** The ramp from -1 to 1: a monotone function with values in [-1, 1],
to evaluate the engine on the reals. *)
Definition ramp (x : R) : R := Rmax (-1) (Rmin 1 x).

(** An entropy source like [calm], but with every normal variate 1: a
normal draw returns its mean plus its sigma. *)
Definition brisk : entropy := {|
  std_normal := fun _ => 1;
  unit_uniform := fun _ => 0;
  picked := fun _ => 10%nat;
  shuffled := fun _ n => seq 0 n
|}.

(** The first standard device with an efficiency of one half. *)
Definition half_efficient : plane := {|
  z_position := 0;
  offset := (-2500, -2500);
  dut_bias := 50;
  dut_thickness := 100;
  dut_threshold := 0;
  dut_noise := 50;
  dut_pixel_size := (50, 50);
  dut_n_pixel := (1000%Z, 1000%Z);
  dut_efficiency := 0.5
|}.

(** Four records of a device in the columns 1 to 4 of row 1, one per
event. *)
Definition four_records : list digit * list Z :=
  (map (fun c => Digit (Some c) (Some 1%Z) 7700) [1; 2; 3; 4]%Z, [0; 1; 2; 3]%Z).

(** The first standard device with a noise of 0.1 electrons and a
threshold of 1925.1 electrons, a number that float32 rounds down. *)
Definition fine_threshold : plane := {|
  z_position := 0;
  offset := (-2500, -2500);
  dut_bias := 50;
  dut_thickness := 100;
  dut_threshold := 1925.1;
  dut_noise := 0.1;
  dut_pixel_size := (50, 50);
  dut_n_pixel := (1000%Z, 1000%Z);
  dut_efficiency := 1
|}.

(** The records of an array of seeds cluster by cluster: the first
[counts[0]] records, the next [counts[1]], and so on. *)
Fixpoint clusters_of {A} (counts : list nat) (records : list A) : list (list A) :=
  match counts with
  | [] => []
  | n :: counts' => take n records :: clusters_of counts' (drop n records)
  end.

(** The record [h] lies before [max_column] or before the column of the
seed [s], and likewise for rows. *)
Definition before_the_end {F} (max_column max_row : Z) (s h : hit F) : Prop :=
  (column h <= Z.max max_column (column s) - 1 /\ row h <= Z.max max_row (row s) - 1)%Z.

(** A device 70000 pixels wide, placed so that the beam axis meets it in
column 65536. *)
Definition wide_plane : plane := {|
  z_position := 0;
  offset := (-3276775, -2500);
  dut_bias := 50;
  dut_thickness := 100;
  dut_threshold := 0;
  dut_noise := 50;
  dut_pixel_size := (50, 50);
  dut_n_pixel := (70000%Z, 1000%Z);
  dut_efficiency := 1
|}.

(** The test of the mask, on the pixel of a record: 0 < column <= pixel
count in x and 0 < row <= pixel count in y. *)
Definition pixel_inside (dut : plane) (p : option Z * option Z) : bool :=
  match p with
  | (Some c, Some r) =>
      ((0 <? c)%Z && (c <=? fst (dut_n_pixel dut))%Z)
      && ((0 <? r)%Z && (r <=? snd (dut_n_pixel dut))%Z)
  | _ => false
  end.

(** The selection array of the inefficiency step: [n] entries that hold,
but for those at the given indices. *)
Definition all_but (n : nat) (indices : list nat) : list bool :=
  foldr (fun i sel => <[i := false]> sel) (repeat true n) indices.

(** The array a sampling call returns when the generator stands at
[cursor0]; empty when the call raises. *)
Definition drawn {A} (c : sim (list A)) (cursor0 : nat) : list A :=
  returned [] (c {| cursor := cursor0; draws := [] |}).

(** The charges of [dut_hits_digits] after the noise [noise] was added. *)
Definition with_noise (charges noise : list float) : list float :=
  map (fun qn => fst qn + snd qn) (combine charges noise).

(** A computation that samples adds to the list of the draws made: what
was drawn before it stays, in its order. *)
Definition keeps_the_draws {A} (c : sim A) : Prop :=
  forall g : generator, exists later : list draw, draws (fst (c g)) = draws g ++ later.

(** The redraws of the [while] loop of [_create_tracks] all land above
pi.  The loop draws them with [beam_angle] and [beam_angle_sigma] as they
stand, in mrad, without the division by 1000 of the first draw. *)
Definition redraws_stay_above_pi (source : entropy) (self : settings) : Prop :=
  forall i : nat, (pi <? beam_angle self + beam_angle_sigma self * std_normal source i) = true.

(** * Properties *)

(** ** The reference series for erf

At 0, 0.5, 1 and 2 the series agrees with the tabulated values of the
error function (0.520499877813046538, 0.842700792949714869,
0.995322265018952734) to 15 digits; a NaN is passed on. *)
Example reference_erf_values :
  Reference.erf 0 = 0
  /\ Reference.erf 0.5 = 0.52049987781304652
  /\ Reference.erf 1 = 0.84270079294971489
  /\ Reference.erf (-2) = -0.99532226501895205
  /\ Reference.erf 7 = 1
  /\ PrimFloat.eqb (Reference.erf nan) (Reference.erf nan) = false.
Proof. repeat split; vm_compute; reflexivity. Qed.

(** ** Ranges *)

Lemma elem_of_range (start stop z : Z) : z ∈ range start stop <-> (start <= z < stop)%Z.
Proof.
  unfold range. rewrite list_elem_of_In, in_map_iff. split.
  - intros (i & <- & Hi). apply in_seq in Hi. lia.
  - intros Hz. exists (Z.to_nat (z - start)). split; [lia |]. apply in_seq. lia.
Qed.

Lemma elem_of_range_down (start stop z : Z) :
  z ∈ range_down start stop <-> (stop < z <= start)%Z.
Proof.
  unfold range_down. rewrite list_elem_of_In, in_map_iff. split.
  - intros (i & <- & Hi). apply in_seq in Hi. lia.
  - intros Hz. exists (Z.to_nat (start - z)). split; [lia |]. apply in_seq. lia.
Qed.

Lemma range_cons (start stop : Z) :
  (start < stop)%Z -> range start stop = start :: range (start + 1) stop.
Proof.
  intros H. unfold range.
  replace (Z.to_nat (stop - start)) with (S (Z.to_nat (stop - (start + 1)))) by lia.
  cbn [seq map]. f_equal; [lia |].
  rewrite <- seq_shift, map_map. apply map_ext. intros i. lia.
Qed.

Lemma range_down_cons (start stop : Z) :
  (stop < start)%Z -> range_down start stop = start :: range_down (start - 1) stop.
Proof.
  intros H. unfold range_down.
  replace (Z.to_nat (start - stop)) with (S (Z.to_nat (start - 1 - stop))) by lia.
  cbn [seq map]. f_equal; [lia |].
  rewrite <- seq_shift, map_map. apply map_ext. intros i. lia.
Qed.

(** ** The records written between two indices *)

Lemma written_nil {F} (b : list (hit F)) (i : nat) : written b i i = [].
Proof. unfold written. now rewrite Nat.sub_diag. Qed.

Lemma written_app {F} (b : list (hit F)) (i j k : nat) :
  (i <= j)%nat -> (j <= k)%nat -> written b i k = written b i j ++ written b j k.
Proof.
  intros Hij Hjk. unfold written.
  assert (E : (k - i)%nat = ((j - i) + (k - j))%nat) by lia.
  rewrite E, <- take_take_drop, drop_drop.
  replace (i + (j - i))%nat with j by lia. reflexivity.
Qed.

Lemma written_unchanged {F} (b b' : list (hit F)) (i k : nat) :
  (forall m : nat, (m < k)%nat -> b' !! m = b !! m) -> written b' i k = written b i k.
Proof.
  intros Hsame. unfold written. apply list_eq. intros m.
  rewrite !lookup_take. destruct (decide (m < k - i)%nat) as [Hm | Hm]; [| reflexivity].
  rewrite !lookup_drop. apply Hsame. lia.
Qed.

Lemma written_one {F} (b : list (hit F)) (i : nat) (h : hit F) :
  b !! i = Some h -> written b i (S i) = [h].
Proof.
  intros Hi. unfold written. rewrite (drop_S _ _ _ Hi).
  replace (S i - i)%nat with 1%nat by lia. reflexivity.
Qed.

Lemma charge_sum_app (l1 l2 : list (hit R)) :
  charge_sum (l1 ++ l2) = (charge_sum l1 + charge_sum l2)%R.
Proof.
  unfold charge_sum. induction l1 as [| h l1 IH]; cbn [app fold_right]; [lra | rewrite IH; lra].
Qed.

(** ** The cluster search stores in order and in place *)

Section EngineFacts.

Context {F : Type} {num : Number F}.

Lemma stores_refl (P : hit F -> Prop) (result_hits : list (hit F)) (index : nat) :
  stores P result_hits index result_hits index.
Proof. unfold stores. repeat split; try lia; auto. Qed.

Lemma stores_trans (P : hit F -> Prop) (a b c : list (hit F)) (i j k : nat) :
  stores P a i b j -> stores P b j c k -> stores P a i c k.
Proof.
  intros (Hi1 & Hl1 & Hb1 & Hk1 & Hp1) (Hi2 & Hl2 & Hb2 & Hk2 & Hp2).
  unfold stores. repeat split; try lia.
  - intros m Hm. rewrite Hk2 by lia. apply Hk1. lia.
  - intros m h Hm Hlook.
    destruct (decide (m < j)%nat) as [Hlt | Hge].
    + apply (Hp1 m); [lia |]. rewrite <- Hk2 by lia. exact Hlook.
    + apply (Hp2 m); [lia | exact Hlook].
Qed.

Lemma stores_weaken (P Q : hit F -> Prop) (a b : list (hit F)) (i j : nat) :
  (forall h, P h -> Q h) -> stores P a i b j -> stores Q a i b j.
Proof.
  intros HPQ (Hi & Hl & Hb & Hk & Hp).
  unfold stores. repeat split; auto. intros m h Hm Hlook. eauto.
Qed.

(** The records between the two indices are those stored. *)
Lemma stores_written (P : hit F -> Prop) (a b : list (hit F)) (i j : nat) :
  stores P a i b j -> Forall P (written b i j) /\ length (written b i j) = (j - i)%nat.
Proof.
  intros (Hi & Hl & Hb & Hk & Hp). unfold written. split.
  - apply Forall_lookup. intros m h Hlook.
    apply lookup_take_Some in Hlook as [Hlook Hm].
    rewrite lookup_drop in Hlook. apply (Hp (i + m)%nat); [lia | exact Hlook].
  - rewrite length_take, length_drop. lia.
Qed.

Lemma add_hit_stores (P : hit F -> Prop) (st st' : search_state F) (h : hit F) :
  add_hit st h = Ok st' -> P h ->
  stores P (result_hits st) (index st) (result_hits st') (index st')
  /\ (n_hits st' + index st = n_hits st + index st')%nat
  /\ total_fraction st' = total_fraction st.
Proof.
  unfold add_hit. destruct (decide (index st < length (result_hits st))%nat) as [Hlt | Hge];
    [| discriminate].
  intros [= <-] HP. unfold stores; cbn.
  repeat split; try lia.
  - apply length_insert.
  - intros j Hj. apply list_lookup_insert_ne. lia.
  - intros j h' Hj. assert (j = index st) as -> by lia.
    rewrite list_lookup_insert_eq by exact Hlt. intros [= <-]. exact HP.
Qed.

Section Seed.

Variables (relative_position : F * F) (seed_column seed_row : Z) (seed_charge : F).
Variables (max_column max_row : Z).
Variables (thickness pixel_size_x pixel_size_y temperature bias : F).
Variable (digitization_sigma_cc : F).

Local Abbreviation row_loop' :=
  (row_loop relative_position seed_column seed_row seed_charge thickness
     pixel_size_x pixel_size_y temperature bias digitization_sigma_cc).
Local Abbreviation column_loop' :=
  (column_loop relative_position seed_column seed_row seed_charge max_row thickness
     pixel_size_x pixel_size_y temperature bias digitization_sigma_cc).

Lemma row_loop_stores (actual_column : Z) (rows : list Z) (st st' : search_state F) :
  row_loop' actual_column rows st = Ok st' ->
  stores (fun h => column h = actual_column /\ row h ∈ rows)
         (result_hits st) (index st) (result_hits st') (index st')
  /\ (n_hits st' + index st = n_hits st + index st')%nat.
Proof.
  revert st. induction rows as [| actual_row rows IH]; intros st; cbn.
  - intros [= <-]. split; [apply stores_refl | lia].
  - destruct (nltb _ min_fraction).
    + intros [= <-]. split; [apply stores_refl | cbn; lia].
    + destruct (add_hit _ _) as [st2 | e |] eqn:Hadd; cbn; try discriminate.
      apply (add_hit_stores (fun h => column h = actual_column /\ row h ∈ actual_row :: rows))
        in Hadd as (Hst2 & Hn2 & _); [| cbn; split; [reflexivity | left]].
      cbn in Hst2, Hn2.
      destruct (nleb _ (total_fraction st2)).
      * intros [= <-]. split; [exact Hst2 | exact Hn2].
      * intros Hloop. destruct (IH _ Hloop) as [Hrest Hn]. split; [| lia].
        eapply stores_trans; [exact Hst2 |].
        eapply stores_weaken; [| exact Hrest].
        intros h [Hc Hr]. split; [exact Hc | now right].
Qed.

Lemma column_loop_stores (columns : list Z) (st st' : search_state F) :
  column_loop' columns st = Ok st' ->
  stores (fun h => column h ∈ columns /\ reachable seed_row max_row (row h))
         (result_hits st) (index st) (result_hits st') (index st')
  /\ (n_hits st' + index st = n_hits st + index st')%nat.
Proof.
  revert st. induction columns as [| actual_column columns IH]; intros st; cbn.
  - intros [= <-]. split; [apply stores_refl | lia].
  - destruct (_ || _).
    + intros [= <-]. split; [apply stores_refl | lia].
    + destruct (row_loop' actual_column (range seed_row max_row) st)
        as [st1 | e |] eqn:Hup; cbn; try discriminate.
      destruct (row_loop' actual_column (range_down (seed_row - 1) 0) st1)
        as [st2 | e |] eqn:Hdown; cbn; try discriminate.
      intros Hrest.
      apply row_loop_stores in Hup as [Hup Hn1].
      apply row_loop_stores in Hdown as [Hdown Hn2].
      destruct (IH _ Hrest) as [Hrec Hn3]. split; [| lia].
      eapply stores_trans; [| eapply stores_trans].
      * eapply stores_weaken; [| exact Hup].
        intros h [Hc Hr]. split; [rewrite Hc; left |].
        left. now apply elem_of_range in Hr.
      * eapply stores_weaken; [| exact Hdown].
        intros h [Hc Hr]. split; [rewrite Hc; left |].
        right. apply elem_of_range_down in Hr. lia.
      * eapply stores_weaken; [| exact Hrec].
        intros h [Hc Hr]. split; [now right | exact Hr].
Qed.

(** One call of [_create_charge_sharing_hits]: the records it stores lie
in the columns and rows its scans reach, and [n_hits] counts them. *)
Lemma create_charge_sharing_hits_stores
    (result_hits : list (hit F)) (index : nat)
    (result_hits' : list (hit F)) (index' n : nat) :
  _create_charge_sharing_hits relative_position seed_column seed_row seed_charge
    max_column max_row thickness pixel_size_x pixel_size_y temperature bias
    digitization_sigma_cc result_hits index = Ok (result_hits', index', n) ->
  stores (fun h => reachable seed_column max_column (column h)
                   /\ reachable seed_row max_row (row h))
         result_hits index result_hits' index'
  /\ (index' = index + n)%nat.
Proof.
  unfold _create_charge_sharing_hits.
  destruct (column_loop' (range seed_column max_column) _) as [st1 | e |] eqn:Hup;
    cbn; try discriminate.
  destruct (column_loop' (range_down (seed_column - 1) 0) st1) as [st2 | e |] eqn:Hdown;
    cbn; try discriminate.
  intros [= <- <- <-].
  apply column_loop_stores in Hup as [Hup Hn1].
  apply column_loop_stores in Hdown as [Hdown Hn2].
  cbn in Hup, Hn1. split; [| lia].
  eapply stores_trans.
  - eapply stores_weaken; [| exact Hup].
    intros h [Hc Hr]. split; [| exact Hr]. left. now apply elem_of_range in Hc.
  - eapply stores_weaken; [| exact Hdown].
    intros h [Hc Hr]. split; [| exact Hr]. right. apply elem_of_range_down in Hc. lia.
Qed.

End Seed.

(** The loop over the seed hits: every record stored comes from the scans
of one of the seeds. *)
Lemma seed_loop_stores (relative_position : nat -> F * F) (max_column max_row : Z)
    (thickness pixel_size_x pixel_size_y temperature bias : F)
    (seeds : list (hit F)) :
  forall (actual_index : nat) (result_hits : list (hit F)) (result_index : nat)
         (counts : list nat) (result_hits' : list (hit F)) (result_index' : nat)
         (counts' : list nat),
    seed_loop relative_position max_column max_row thickness pixel_size_x pixel_size_y
      temperature bias actual_index seeds result_hits result_index counts
    = Ok (result_hits', result_index', counts') ->
    stores (fun h => exists s, s ∈ seeds
                     /\ reachable (column s) max_column (column h)
                     /\ reachable (row s) max_row (row h))
           result_hits result_index result_hits' result_index'.
Proof.
  induction seeds as [| s seeds IH]; intros i buf idx counts buf' idx' counts'; cbn.
  - intros [= <- <- <-]. apply stores_refl.
  - destruct (_create_charge_sharing_hits _ _ _ _ _ _ _ _ _ _ _ _ buf idx)
      as [[[buf1 idx1] n] | e |] eqn:Hone; cbn; try discriminate.
    intros Hrest.
    apply create_charge_sharing_hits_stores in Hone as [Hone _].
    apply IH in Hrest.
    eapply stores_trans.
    + eapply stores_weaken; [| exact Hone].
      intros h [Hc Hr]. exists s. split; [left | easy].
    + eapply stores_weaken; [| exact Hrest].
      intros h (s' & Hin & Hc & Hr). exists s'. split; [now right | easy].
Qed.

Lemma add_charge_sharing_hits_records (relative_position : nat -> F * F)
    (max_column max_row : Z) (thickness pixel_size_x pixel_size_y temperature bias : F)
    (hits_digits records : list (hit F)) (counts : list nat) :
  _add_charge_sharing_hits relative_position max_column max_row thickness
    pixel_size_x pixel_size_y temperature bias hits_digits = Ok (records, counts) ->
  Forall (fun h => exists s, s ∈ hits_digits
                   /\ reachable (column s) max_column (column h)
                   /\ reachable (row s) max_row (row h)) records
  /\ (length records <= 5 * length hits_digits)%nat.
Proof.
  unfold _add_charge_sharing_hits.
  destruct (seed_loop _ _ _ _ _ _ _ _ _ _ _ _ _) as [[[buf' idx'] counts'] | e |] eqn:Hloop;
    cbn; try discriminate.
  intros [= <- <-].
  apply seed_loop_stores in Hloop.
  pose proof (stores_written _ _ _ _ _ Hloop) as [Hall Hlen].
  unfold written in Hall, Hlen. rewrite drop_0, Nat.sub_0_r in Hall, Hlen.
  split; [exact Hall |].
  destruct Hloop as (_ & Hl & Hb & _). rewrite repeat_length in Hl, Hb.
  rewrite Hlen. destruct idx'; lia.
Qed.


(** The same for a whole array of seeds that all lie on the sensor or
before it. *)
Lemma cluster_records_stop_before_the_last_column_and_row
    (relative_position : nat -> F * F) (max_column max_row : Z)
    (thickness pixel_size_x pixel_size_y temperature bias : F)
    (hits_digits records : list (hit F)) (counts : list nat) :
  _add_charge_sharing_hits relative_position max_column max_row thickness
    pixel_size_x pixel_size_y temperature bias hits_digits = Ok (records, counts) ->
  Forall (fun s => column s <= max_column /\ row s <= max_row)%Z hits_digits ->
  Forall (fun h => column h <= max_column - 1 /\ row h <= max_row - 1)%Z records.
Proof.
  intros Hrun Hseeds.
  apply add_charge_sharing_hits_records in Hrun as [Hall _].
  rewrite Forall_forall in Hseeds.
  eapply Forall_impl; [exact Hall |].
  intros h (s & Hin & Hc & Hr). cbn beta.
  apply Hseeds in Hin.
  unfold reachable in Hc, Hr. lia.
Qed.

(** Whatever the seeds, a record lies before [max_column] or before the
column of its seed, and likewise for rows. *)
Lemma cluster_records_reachable
    (relative_position : nat -> F * F) (max_column max_row : Z)
    (thickness pixel_size_x pixel_size_y temperature bias : F)
    (hits_digits records : list (hit F)) (counts : list nat) :
  _add_charge_sharing_hits relative_position max_column max_row thickness
    pixel_size_x pixel_size_y temperature bias hits_digits = Ok (records, counts) ->
  Forall (fun h => exists s, s ∈ hits_digits
                   /\ (column h <= Z.max max_column (column s) - 1)%Z
                   /\ (row h <= Z.max max_row (row s) - 1)%Z) records.
Proof.
  intros Hrun. apply add_charge_sharing_hits_records in Hrun as [Hall _].
  eapply Forall_impl; [exact Hall |].
  intros h (s & Hin & Hc & Hr). exists s. unfold reachable in Hc, Hr.
  split; [exact Hin | lia].
Qed.

(** A seed in the last column gets no record in that column. *)
Lemma seed_in_the_last_column_gets_no_record_there
    (relative_position : nat -> F * F) (max_column max_row : Z)
    (thickness pixel_size_x pixel_size_y temperature bias : F)
    (seed : hit F) (records : list (hit F)) (counts : list nat) :
  _add_charge_sharing_hits relative_position max_column max_row thickness
    pixel_size_x pixel_size_y temperature bias [seed] = Ok (records, counts) ->
  column seed = max_column ->
  Forall (fun h => column h <> max_column) records.
Proof.
  intros Hrun Hlast. apply add_charge_sharing_hits_records in Hrun as [Hall _].
  eapply Forall_impl; [exact Hall |].
  intros h (s & Hin & Hc & _). apply list_elem_of_singleton in Hin as ->.
  unfold reachable in Hc. lia.
Qed.

(** A call that returns has stored inside the array, and has left the
records of the hits before it as they were. *)
Lemma returning_call_keeps_earlier_records
    (relative_position : F * F) (seed_column seed_row : Z) (seed_charge : F)
    (max_column max_row : Z)
    (thickness pixel_size_x pixel_size_y temperature bias digitization_sigma_cc : F)
    (result_hits : list (hit F)) (index : nat)
    (result_hits' : list (hit F)) (index' n : nat) :
  _create_charge_sharing_hits relative_position seed_column seed_row seed_charge
    max_column max_row thickness pixel_size_x pixel_size_y temperature bias
    digitization_sigma_cc result_hits index = Ok (result_hits', index', n) ->
  (0 < n -> index' <= length result_hits)%nat
  /\ take index result_hits' = take index result_hits.
Proof.
  intros Hrun. apply create_charge_sharing_hits_stores in Hrun as [Hst Hn].
  destruct Hst as (Hi & Hl & Hb & Hk & _). split; [intros; apply Hb; lia |].
  apply list_eq. intros j.
  destruct (decide (j < index)%nat) as [Hlt | Hge].
  - rewrite !lookup_take_lt by exact Hlt. apply Hk. now left.
  - rewrite !lookup_take_ge by lia. reflexivity.
Qed.

End EngineFacts.



(** C4.  One seed in the middle of a pixel of a sensor 1000 um thick
(pitch 50 um, the other settings the standard ones) has a cluster of nine
pixels.  The result array of [_add_charge_sharing_hits] has five rows for
it: the sixth store is outside the array. *)
Theorem cluster_of_nine_overruns_the_result_array :
  (exists result_hits,
     _create_charge_sharing_hits (num := F64.number Reference.erf)
       (0, 0)%float 3 3 1000%float 10 10 1000%float 50%float 50%float 300%float 50%float
       1%float (repeat (Hit 0 0 0%float) 9) 0 = Ok (result_hits, 9%nat, 9%nat))
  /\ _add_charge_sharing_hits (num := F64.number Reference.erf) (fun _ => (0, 0)%float)
       10 10 1000%float 50%float 50%float 300%float 50%float [Hit 3 3 1000%float]
     = Raise IndexError.
Proof.
  split.
  - eexists. vm_compute. reflexivity.
  - vm_compute. reflexivity.
Qed.

(** ** A diffusion sigma of 0 *)

Section ZeroSigma.

Variable erf : float -> float.
Local Instance zero_sigma_number : Number float := F64.number erf.
Local Open Scope num_scope.

Variables (relative_position : float * float) (seed_column seed_row : Z) (seed_charge : float).
Variables (max_column max_row : Z).
Variables (thickness pixel_size_x pixel_size_y temperature bias : float).
Variable (digitization_sigma_cc : float).

Local Abbreviation sigma_zero :=
  (sigma_is_zero erf thickness temperature bias digitization_sigma_cc).

Local Abbreviation row_loop' :=
  (row_loop relative_position seed_column seed_row seed_charge thickness
     pixel_size_x pixel_size_y temperature bias digitization_sigma_cc).
Local Abbreviation column_loop' :=
  (column_loop relative_position seed_column seed_row seed_charge max_row thickness
     pixel_size_x pixel_size_y temperature bias digitization_sigma_cc).

(** Then every pixel, whatever its distance to the seed, is given the
fraction 1. *)
Lemma zero_sigma_fraction (ix iy : Z) :
  sigma_zero ->
  _calc_charge_fraction relative_position (position_z thickness) ix iy
    pixel_size_x pixel_size_y temperature bias digitization_sigma_cc = of_int 1.
Proof.
  intros Hs. unfold _calc_charge_fraction.
  match goal with
  | |- (if ?test then _ else _) = _ => replace test with true by (symmetry; exact Hs)
  end.
  reflexivity.
Qed.

(** One turn of a row loop: the pixel is stored with the whole charge and
the loop ends, the total having reached 1 - min_fraction. *)
Lemma zero_sigma_row_loop (actual_column actual_row : Z) (rows : list Z)
    (st : search_state float) :
  sigma_zero ->
  (index st < length (result_hits st))%nat ->
  (total_fraction st + of_int 1 >=? of_int 1 - min_fraction) = true ->
  row_loop' actual_column (actual_row :: rows) st
  = Ok {| total_fraction := total_fraction st + of_int 1;
          result_hits := <[index st := Hit actual_column actual_row
                                         (float32 (of_int 1 * seed_charge))]> (result_hits st);
          index := S (index st);
          n_hits := S (n_hits st) |}.
Proof.
  intros Hs Hroom Htotal. cbn [row_loop]. unfold fraction_at.
  rewrite (zero_sigma_fraction _ _ Hs).
  change (of_int 1 <? min_fraction) with false. cbv iota.
  unfold add_hit. cbn [index result_hits total_fraction n_hits].
  destruct (decide _) as [_ | Hno]; [| contradiction].
  cbn [rbind total_fraction]. now rewrite Htotal.
Qed.

(** A column loop entered with the total at 1 - min_fraction ends at once. *)
Lemma column_loop_total_reached (columns : list Z) (st : search_state float) :
  (total_fraction st >=? of_int 1 - min_fraction) = true ->
  column_loop' columns st = Ok st.
Proof.
  intros Htotal. destruct columns as [| c columns]; cbn [column_loop]; [reflexivity |].
  now rewrite Htotal.
Qed.

(** C1.  With a diffusion sigma of 0, a seed in a row from 2 on (and
before the last column and row) gets two records: the seed pixel and the
pixel one row below, each with the whole charge. *)
Theorem zero_sigma_stores_the_seed_and_the_pixel_below
    (result_hits0 : list (hit float)) (index0 : nat) :
  sigma_zero ->
  (seed_column < max_column)%Z -> (2 <= seed_row < max_row)%Z ->
  (index0 + 2 <= length result_hits0)%nat ->
  _create_charge_sharing_hits relative_position seed_column seed_row seed_charge
    max_column max_row thickness pixel_size_x pixel_size_y temperature bias
    digitization_sigma_cc result_hits0 index0
  = Ok (<[S index0 := Hit seed_column (seed_row - 1) (float32 (of_int 1 * seed_charge))]>
          (<[index0 := Hit seed_column seed_row (float32 (of_int 1 * seed_charge))]>
             result_hits0),
        (index0 + 2)%nat, 2%nat).
Proof.
  intros Hs Hc Hr Hroom.
  unfold _create_charge_sharing_hits.
  rewrite (range_cons seed_column max_column Hc).
  cbn [column_loop].
  rewrite (zero_sigma_fraction _ _ Hs).
  cbn [total_fraction].
  change ((of_int 0 >=? of_int 1 - min_fraction) || (of_int 1 <? min_fraction)) with false.
  cbv iota.
  rewrite (range_cons seed_row max_row) by lia.
  rewrite zero_sigma_row_loop; [| exact Hs | cbn; lia | reflexivity].
  cbn [rbind].
  rewrite (range_down_cons (seed_row - 1) 0) by lia.
  rewrite zero_sigma_row_loop; [| exact Hs | cbn; rewrite length_insert; lia | reflexivity].
  cbn [rbind total_fraction result_hits index n_hits].
  rewrite column_loop_total_reached by reflexivity.
  cbn [rbind].
  rewrite column_loop_total_reached by reflexivity.
  cbn [rbind result_hits index n_hits].
  replace (S (S index0)) with (index0 + 2)%nat by lia. reflexivity.
Qed.

End ZeroSigma.

Lemma zero_sigma_stores_the_seed_and_the_pixel_below_witness :
  _create_charge_sharing_hits (num := F64.number Reference.erf)
    (0, 0)%float 1 2 1000%float 3 3 0%float 50%float 50%float 300%float 50%float 1%float
    (repeat (Hit 0 0 0%float) 5) 0
  = Ok ([Hit 1 2 1000%float; Hit 1 1 1000%float; (Hit 0 0 0%float); (Hit 0 0 0%float); (Hit 0 0 0%float)], 2%nat, 2%nat).
Proof.
  apply (zero_sigma_stores_the_seed_and_the_pixel_below Reference.erf
           (0, 0)%float 1 2 1000%float 3 3 0%float 50%float 50%float 300%float 50%float
           1%float (repeat (Hit 0 0 0%float) 5) 0).
  - reflexivity.
  - lia.
  - lia.
  - cbn. lia.
Defined.

(** Sigma is 0 for a thickness of 0, for a temperature of 0 and for a
correction factor of 0 alike (the other settings are the standard ones),
and the outcome is the same. *)
Example zero_sigma_three_ways (erf : float -> float) :
  let call thickness temperature digitization_sigma_cc :=
    _create_charge_sharing_hits (num := F64.number erf)
      (0, 0)%float 1 2 1000%float 3 3 thickness 50%float 50%float temperature 50%float
      digitization_sigma_cc (repeat (Hit 0 0 0%float) 5) 0 in
  let two := Ok ([Hit 1 2 1000%float; Hit 1 1 1000%float; (Hit 0 0 0%float); (Hit 0 0 0%float); (Hit 0 0 0%float)],
                 2%nat, 2%nat) in
  call 0%float 300%float 1%float = two
  /\ call 100%float 0%float 1%float = two
  /\ call 100%float 300%float 0%float = two.
Proof. repeat split; vm_compute; reflexivity. Qed.

(** C2.  With a diffusion sigma of 0 (here: thickness 0) a seed of unit
charge in row 2 gets two records of charge 1 each: the fractions of the
cluster sum to 2. *)
Theorem zero_sigma_fractions_sum_to_two (erf : float -> float) :
  let cluster :=
    _add_charge_sharing_hits (num := F64.number erf) (fun _ => (0, 0)%float)
      3 3 0%float 50%float 50%float 300%float 50%float [Hit 1 2 1%float] in
  cluster = Ok ([Hit 1 2 1%float; Hit 1 1 1%float], [2%nat])
  /\ total_charge (records_of cluster) = 2%float
  /\ PrimFloat.ltb 1 (total_charge (records_of cluster)) = true.
Proof. repeat split; vm_compute; reflexivity. Qed.

(** ** The closed form of the charge fraction *)

Section ClosedFormFacts.

Local Open Scope R_scope.

Lemma gauss_integral_positive (x y : R) :
  x < y -> 0 < RiemannInt (Real.gauss_integrable x y).
Proof.
  intros Hxy.
  set (M := Rmax (Rabs x) (Rabs y)).
  assert (Hm : 0 < exp (- (M * M))) by apply exp_pos.
  apply Rlt_le_trans with (exp (- (M * M)) * (y - x)).
  - apply Rmult_lt_0_compat; lra.
  - rewrite <- (RiemannInt_P15 (RiemannInt_P14 x y (exp (- (M * M))))).
    apply RiemannInt_P19; [lra |].
    intros t Ht. unfold fct_cte, Real.gauss.
    assert (Hsq : t * t <= M * M).
    { assert (Habs : Rabs t <= M).
      { unfold M. destruct (Rcase_abs t) as [Hneg | Hpos].
        - apply Rle_trans with (Rabs x); [| apply Rmax_l].
          rewrite (Rabs_left t Hneg). rewrite Rabs_left by lra. lra.
        - apply Rle_trans with (Rabs y); [| apply Rmax_r].
          rewrite (Rabs_right t Hpos). rewrite Rabs_right by lra. lra. }
      replace (t * t) with (Rabs t * Rabs t)
        by (unfold Rabs; destruct (Rcase_abs t); ring).
      pose proof (Rabs_pos t). apply Rmult_le_compat; lra. }
    destruct (Req_dec (t * t) (M * M)) as [-> | Hne]; [lra |].
    left. apply exp_increasing. lra.
Qed.

(** The error function increases. *)
Lemma erf_increasing (x y : R) : x < y -> Real.erf x < Real.erf y.
Proof.
  intros Hxy. unfold Real.erf.
  assert (Hc : 0 < 2 / sqrt PI)
    by (apply Rdiv_lt_0_compat; [lra | apply sqrt_lt_R0, PI_RGT_0]).
  apply Rmult_lt_compat_l; [exact Hc |].
  rewrite <- (RiemannInt_P26 (Real.gauss_integrable 0 x) (Real.gauss_integrable x y)
                (Real.gauss_integrable 0 y)).
  pose proof (gauss_integral_positive x y Hxy). lra.
Qed.

Variable erf : R -> R.

Lemma sqrt_two_sigma_squared (sigma : R) :
  0 < sigma -> sqrt (2 * (sigma * sigma)) = sqrt 2 * sigma.
Proof.
  intros Hs. rewrite sqrt_mult by nra. now rewrite sqrt_square by lra.
Qed.

(** What [_calc_charge_fraction] computes for sigma > 0: a quarter of the
product of the two differences of error functions. *)
Lemma charge_fraction_closed_form (relative_position : R * R)
    (seed_column seed_row : Z) (thickness pixel_size_x pixel_size_y temperature bias : R)
    (digitization_sigma_cc : R) (actual_column actual_row : Z) :
  0 < diffusion_sigma thickness temperature bias digitization_sigma_cc ->
  fraction_at (num := Real.number erf) relative_position seed_column seed_row thickness
    pixel_size_x pixel_size_y temperature bias digitization_sigma_cc
    actual_column actual_row
  = 4 * bin_fraction erf (1 / 4) (fst relative_position) (snd relative_position)
          (actual_column - seed_column) (actual_row - seed_row)
          pixel_size_x pixel_size_y
          (diffusion_sigma thickness temperature bias digitization_sigma_cc).
Proof.
  intros Hs.
  unfold fraction_at, _calc_charge_fraction, _calc_sigma_diffusion, position_z.
  cbn [nadd nsub nmul ndiv nsqrt nerf neqb of_int boltzman_constant Real.number].
  fold (diffusion_sigma thickness temperature bias digitization_sigma_cc).
  set (sigma := diffusion_sigma thickness temperature bias digitization_sigma_cc) in *.
  unfold Real.eqb. destruct (Req_dec_T sigma 0) as [Hz | _]; [lra |].
  unfold _bivariante_normal_cdf_limits, bin_fraction, axis_bin_integral.
  cbn [nadd nsub nmul ndiv nsqrt nerf of_int Real.number].
  rewrite (sqrt_two_sigma_squared sigma Hs). lra.
Qed.

End ClosedFormFacts.

(** The standard settings give a positive sigma. *)
Lemma standard_sigma_positive : (0 < diffusion_sigma 100 300 50 1)%R.
Proof.
  unfold diffusion_sigma.
  assert (0 < sqrt (2 * 300 / 50 * (86173324 / 1000000000000)))%R
    by (apply sqrt_lt_R0; lra).
  lra.
Qed.

(** C3 (as amended).  For sigma > 0 the charge fraction of a pixel is the
product of the two axis integrals of the Gaussian over the pixel, each
axis integral being one half of the difference of the error functions at
(upper - mu) / (sqrt 2 sigma) and (lower - mu) / (sqrt 2 sigma); sigma is
half the thickness times sqrt(2 T / bias k_B) times the correction factor
handed to [_create_charge_sharing_hits]. *)
Theorem charge_fraction_is_the_product_of_the_axis_integrals
    (erf : R -> R) (relative_position : R * R)
    (seed_column seed_row : Z) (thickness pixel_size_x pixel_size_y temperature bias : R)
    (digitization_sigma_cc : R) (actual_column actual_row : Z) :
  (0 < diffusion_sigma thickness temperature bias digitization_sigma_cc)%R ->
  fraction_at (num := Real.number erf) relative_position seed_column seed_row thickness
    pixel_size_x pixel_size_y temperature bias digitization_sigma_cc
    actual_column actual_row
  = bin_fraction erf (1 / 2) (fst relative_position) (snd relative_position)
      (actual_column - seed_column) (actual_row - seed_row)
      pixel_size_x pixel_size_y
      (diffusion_sigma thickness temperature bias digitization_sigma_cc).
Proof.
  intros Hs. rewrite charge_fraction_closed_form by exact Hs.
  unfold bin_fraction, axis_bin_integral. lra.
Qed.

Lemma charge_fraction_is_the_product_of_the_axis_integrals_witness :
  fraction_at (num := Real.number Real.erf) (0, 0)%R 1 1 100%R 50%R 50%R 300%R 50%R 1%R 1 1
  = bin_fraction Real.erf (1 / 2) 0 0 (1 - 1) (1 - 1) 50 50 (diffusion_sigma 100 300 50 1).
Proof.
  apply (charge_fraction_is_the_product_of_the_axis_integrals Real.erf (0, 0)%R 1 1
           100%R 50%R 50%R 300%R 50%R 1%R 1 1).
  exact standard_sigma_positive.
Defined.

(** C3, as stated, fails where the fraction is not 0: with a factor 1/4
in each axis integral the product is a quarter of what the code computes.
Input: the seed pixel itself, for a deposit in its middle, with the
standard settings. *)
Lemma quarter_axis_integrals_give_a_quarter_of_the_fraction :
  fraction_at (num := Real.number Real.erf) (0, 0)%R 1 1 100%R 50%R 50%R 300%R 50%R 1%R 1 1
  <> bin_fraction Real.erf (1 / 4) 0 0 (1 - 1) (1 - 1) 50 50 (diffusion_sigma 100 300 50 1).
Proof.
  rewrite (charge_fraction_closed_form Real.erf (0, 0)%R 1 1 100 50 50 300 50 1 1 1
             standard_sigma_positive).
  cbn [fst snd].
  pose proof standard_sigma_positive as Hs.
  set (sigma := diffusion_sigma 100 300 50 1) in *.
  unfold bin_fraction, axis_bin_integral. replace (1 - 1)%Z with 0%Z by reflexivity.
  assert (Hd : (0 < sqrt 2 * sigma)%R)
    by (apply Rmult_lt_0_compat; [apply sqrt_lt_R0; lra | exact Hs]).
  assert (Hinc : (Real.erf ((50 * (0 - 1 / 2) - 0) / (sqrt 2 * sigma))
                  < Real.erf ((50 * (0 + 1 / 2) - 0) / (sqrt 2 * sigma)))%R).
  { apply erf_increasing. unfold Rdiv. apply Rmult_lt_compat_r; [| lra].
    now apply Rinv_0_lt_compat. }
  nra.
Qed.

(** ** The fractions of a cluster, on the reals *)

Section SumBound.

Local Open Scope R_scope.

Variable erf : R -> R.
Hypothesis erf_monotone : forall x y : R, x <= y -> erf x <= erf y.
Hypothesis erf_bounded : forall x : R, -1 <= erf x <= 1.

Variables (mu1 mu2 : R) (seed_column seed_row : Z) (max_column max_row : Z).
Variables (thickness pixel_size_x pixel_size_y temperature bias digitization_sigma_cc : R).

Hypothesis sigma_positive :
  0 < diffusion_sigma thickness temperature bias digitization_sigma_cc.
Hypothesis pitch_x_positive : 0 < pixel_size_x.
Hypothesis pitch_y_positive : 0 < pixel_size_y.

Collection assumptions :=
  erf_monotone erf_bounded sigma_positive pitch_x_positive pitch_y_positive.

Local Abbreviation sigma :=
  (diffusion_sigma thickness temperature bias digitization_sigma_cc).

Lemma edge_bounded (pitch mu : R) (i : Z) : -1 <= edge erf pitch mu sigma i <= 1.
Proof using erf_bounded. apply erf_bounded. Qed.

Lemma edge_monotone (pitch mu : R) (i j : Z) :
  0 < pitch -> (i <= j)%Z -> edge erf pitch mu sigma i <= edge erf pitch mu sigma j.
Proof using erf_monotone sigma_positive.
  intros Hp Hij. unfold edge. apply erf_monotone.
  assert (Hs : 0 < sqrt 2 * diffusion_sigma thickness temperature bias digitization_sigma_cc)
    by (apply Rmult_lt_0_compat; [apply sqrt_lt_R0; lra | exact sigma_positive]).
  apply Rmult_le_compat_r; [left; now apply Rinv_0_lt_compat |].
  apply IZR_le in Hij. nra.
Qed.

Lemma mass_nonnegative (pitch mu : R) (i : Z) : 0 < pitch -> 0 <= mass erf pitch mu sigma i.
Proof using erf_monotone sigma_positive.
  intros Hp. unfold mass.
  pose proof (edge_monotone pitch mu i (i + 1) Hp ltac:(lia)). lra.
Qed.

Local Abbreviation fraction_at' :=
  (fraction_at (num := Real.number erf) (mu1, mu2) seed_column seed_row thickness
     pixel_size_x pixel_size_y temperature bias digitization_sigma_cc).

(** The fraction of a pixel is the product of its shares on the two axes. *)
Lemma fraction_is_a_product (actual_column actual_row : Z) :
  fraction_at' actual_column actual_row
  = mass erf pixel_size_x mu1 sigma (actual_column - seed_column)
    * mass erf pixel_size_y mu2 sigma (actual_row - seed_row).
Proof using sigma_positive.
  rewrite charge_fraction_closed_form by exact sigma_positive.
  unfold bin_fraction, axis_bin_integral, mass, edge. cbn [fst snd].
  rewrite !plus_IZR.
  replace (pixel_size_x * (IZR (actual_column - seed_column) + 1 - 1 / 2))
    with (pixel_size_x * (IZR (actual_column - seed_column) + 1 / 2)) by lra.
  replace (pixel_size_y * (IZR (actual_row - seed_row) + 1 - 1 / 2))
    with (pixel_size_y * (IZR (actual_row - seed_row) + 1 / 2)) by lra.
  lra.
Qed.

Lemma sum_over_cons (f : Z -> R) (z : Z) (l : list Z) :
  sum_over f (z :: l) = f z + sum_over f l.
Proof. reflexivity. Qed.

Lemma sum_over_nonnegative (f : Z -> R) (l : list Z) :
  (forall z, 0 <= f z) -> 0 <= sum_over f l.
Proof.
  intros Hf. unfold sum_over. induction l as [| z l IH]; cbn [fold_right]; [lra |].
  pose proof (Hf z). lra.
Qed.

(** The shares of the pixels of a range add up to half the difference of
the error function between its two ends. *)
Lemma sum_over_range (pitch mu : R) (seed : Z) (n : nat) :
  forall start : Z,
    sum_over (fun z => mass erf pitch mu sigma (z - seed)) (range start (start + Z.of_nat n))
    = 1 / 2 * (edge erf pitch mu sigma (start + Z.of_nat n - seed) - edge erf pitch mu sigma (start - seed)).
Proof.
  induction n as [| n IH]; intros start.
  - replace (start + Z.of_nat 0)%Z with start by lia.
    unfold range. rewrite Z.sub_diag. unfold sum_over. change (Z.to_nat 0) with 0%nat. cbn [seq map fold_right]. lra.
  - rewrite range_cons by lia. rewrite sum_over_cons.
    replace (start + Z.of_nat (S n))%Z with (start + 1 + Z.of_nat n)%Z by lia.
    rewrite IH. unfold mass.
    replace (start - seed + 1)%Z with (start + 1 - seed)%Z by lia. lra.
Qed.

Lemma sum_over_range_down (pitch mu : R) (seed : Z) (n : nat) :
  forall start : Z,
    sum_over (fun z => mass erf pitch mu sigma (z - seed)) (range_down start (start - Z.of_nat n))
    = 1 / 2 * (edge erf pitch mu sigma (start + 1 - seed) - edge erf pitch mu sigma (start - Z.of_nat n + 1 - seed)).
Proof.
  induction n as [| n IH]; intros start.
  - replace (start - Z.of_nat 0)%Z with start by lia.
    unfold range_down. rewrite Z.sub_diag. unfold sum_over. change (Z.to_nat 0) with 0%nat. cbn [seq map fold_right]. lra.
  - rewrite range_down_cons by lia. rewrite sum_over_cons.
    replace (start - Z.of_nat (S n))%Z with (start - 1 - Z.of_nat n)%Z by lia.
    rewrite IH. unfold mass.
    replace (start - 1 + 1 - seed)%Z with (start - seed)%Z by lia.
    replace (start - seed + 1)%Z with (start + 1 - seed)%Z by lia. lra.
Qed.

(** The scan towards larger indices collects at most what lies above the
lower edge of the seed pixel, the scan towards smaller ones at most what
lies below it. *)
Lemma sum_over_scan_up (pitch mu : R) (seed max_ : Z) :
  0 < pitch ->
  sum_over (fun z => mass erf pitch mu sigma (z - seed)) (range seed max_)
  <= 1 / 2 * (1 - edge erf pitch mu sigma 0).
Proof using erf_bounded.
  intros Hp. destruct (Z_le_gt_dec seed max_) as [Hle | Hgt].
  - replace max_ with (seed + Z.of_nat (Z.to_nat (max_ - seed)))%Z at 1 by lia.
    rewrite sum_over_range.
    replace (seed - seed)%Z with 0%Z by lia.
    pose proof (edge_bounded pitch mu (seed + Z.of_nat (Z.to_nat (max_ - seed)) - seed)). lra.
  - unfold range. replace (Z.to_nat (max_ - seed)) with 0%nat by lia.
    unfold sum_over. cbn [seq map fold_right].
    pose proof (edge_bounded pitch mu 0). lra.
Qed.

Lemma sum_over_scan_down (pitch mu : R) (seed : Z) :
  0 < pitch ->
  sum_over (fun z => mass erf pitch mu sigma (z - seed)) (range_down (seed - 1) 0)
  <= 1 / 2 * (edge erf pitch mu sigma 0 + 1).
Proof using erf_bounded.
  intros Hp. destruct (Z_le_gt_dec 0 (seed - 1)) as [Hle | Hgt].
  - replace 0%Z with (seed - 1 - Z.of_nat (Z.to_nat (seed - 1)))%Z at 1 by lia.
    rewrite sum_over_range_down.
    replace (seed - 1 + 1 - seed)%Z with 0%Z by lia.
    pose proof (edge_bounded pitch mu (seed - 1 - Z.of_nat (Z.to_nat (seed - 1)) + 1 - seed)). lra.
  - unfold range_down. replace (Z.to_nat (seed - 1 - 0)) with 0%nat by lia.
    unfold sum_over. cbn [seq map fold_right].
    pose proof (edge_bounded pitch mu 0). lra.
Qed.

Local Abbreviation row_loop' :=
  (row_loop (num := Real.number erf) (mu1, mu2) seed_column seed_row 1 thickness
     pixel_size_x pixel_size_y temperature bias digitization_sigma_cc).
Local Abbreviation column_loop' :=
  (column_loop (num := Real.number erf) (mu1, mu2) seed_column seed_row 1 max_row thickness
     pixel_size_x pixel_size_y temperature bias digitization_sigma_cc).

(** A row loop, for a seed of unit charge, writes at most the share of its
column times the shares of the rows it may visit. *)
Lemma row_loop_sum (actual_column : Z) (rows : list Z) :
  forall st st' : search_state R,
    row_loop' actual_column rows st = Ok st' ->
    charge_sum (written (result_hits st') (index st) (index st'))
    <= mass erf pixel_size_x mu1 sigma (actual_column - seed_column)
       * sum_over (fun r => mass erf pixel_size_y mu2 sigma (r - seed_row)) rows.
Proof using assumptions.
  pose proof (mass_nonnegative pixel_size_x mu1 (actual_column - seed_column)
                pitch_x_positive) as Hx.
  assert (Hy : forall r, 0 <= mass erf pixel_size_y mu2 sigma (r - seed_row))
    by (intros r; apply mass_nonnegative, pitch_y_positive).
  induction rows as [| actual_row rows IH]; intros st st' Hrun.
  - cbn in Hrun. injection Hrun as <-. rewrite written_nil. cbn. lra.
  - pose proof (sum_over_nonnegative _ rows Hy) as Hrest.
    pose proof (Hy actual_row) as Hy0.
    rewrite sum_over_cons.
    cbn [row_loop] in Hrun. rewrite fraction_is_a_product in Hrun.
    destruct (nltb _ min_fraction).
    + injection Hrun as <-. cbn [index]. rewrite written_nil. cbn. nra.
    + destruct (add_hit _ _) as [st2 | e |] eqn:Hadd; cbn [rbind] in Hrun; try discriminate.
      unfold add_hit in Hadd. cbn [index result_hits total_fraction n_hits] in Hadd.
      destruct (decide _) as [Hroom | _]; [| discriminate].
      injection Hadd as <-. cbn [total_fraction] in Hrun.
      set (h := Hit actual_column actual_row _) in *.
      assert (Hh : charge h = mass erf pixel_size_x mu1 sigma (actual_column - seed_column)
                              * mass erf pixel_size_y mu2 sigma (actual_row - seed_row))
        by (cbn; lra).
      destruct (nleb _ _).
      * injection Hrun as <-. cbn [index result_hits].
        rewrite (written_one _ _ h) by (now apply list_lookup_insert_eq).
        cbn. nra.
      * pose proof (IH _ _ Hrun) as Hsum. cbn [index result_hits] in Hsum.
        apply row_loop_stores in Hrun as [(Hi & _ & _ & Hk & _) _].
        cbn [index result_hits] in Hi, Hk.
        rewrite (written_app _ (index st) (S (index st)) (index st')) by lia.
        rewrite charge_sum_app.
        rewrite (written_unchanged (<[index st := h]> (result_hits st)))
          by (intros m Hm; apply Hk; now left).
        rewrite (written_one _ _ h) by (now apply list_lookup_insert_eq).
        cbn [charge_sum fold_right]. nra.
Qed.

(** A column loop writes at most the shares of the columns it may visit. *)
Lemma column_loop_sum (columns : list Z) :
  forall st st' : search_state R,
    column_loop' columns st = Ok st' ->
    charge_sum (written (result_hits st') (index st) (index st'))
    <= sum_over (fun c => mass erf pixel_size_x mu1 sigma (c - seed_column)) columns.
Proof using assumptions.
  assert (Hx : forall c, 0 <= mass erf pixel_size_x mu1 sigma (c - seed_column))
    by (intros c; apply mass_nonnegative, pitch_x_positive).
  induction columns as [| actual_column columns IH]; intros st st' Hrun.
  - cbn in Hrun. injection Hrun as <-. rewrite written_nil. cbn. lra.
  - pose proof (sum_over_nonnegative _ columns Hx) as Hrest.
    pose proof (Hx actual_column) as Hx0.
    rewrite sum_over_cons. cbn [column_loop] in Hrun.
    destruct (_ || _).
    + injection Hrun as <-. rewrite written_nil. cbn. lra.
    + destruct (row_loop' actual_column (range seed_row max_row) st)
        as [st1 | e |] eqn:Hup; cbn [rbind] in Hrun; try discriminate.
      destruct (row_loop' actual_column (range_down (seed_row - 1) 0) st1)
        as [st2 | e |] eqn:Hdown; cbn [rbind] in Hrun; try discriminate.
      pose proof (row_loop_sum _ _ _ _ Hup) as Sup.
      pose proof (row_loop_sum _ _ _ _ Hdown) as Sdown.
      pose proof (IH _ _ Hrun) as Srest.
      pose proof (sum_over_scan_up pixel_size_y mu2 seed_row max_row pitch_y_positive) as Bup.
      pose proof (sum_over_scan_down pixel_size_y mu2 seed_row pitch_y_positive) as Bdown.
      apply row_loop_stores in Hup as [(Hi1 & _ & _ & _ & _) _].
      apply row_loop_stores in Hdown as [(Hi2 & _ & _ & Hk2 & _) _].
      apply column_loop_stores in Hrun as [(Hi3 & _ & _ & Hk3 & _) _].
      rewrite (written_app _ (index st) (index st2) (index st')) by lia.
      rewrite (written_app _ (index st) (index st1) (index st2)) by lia.
      rewrite !charge_sum_app.
      rewrite (written_unchanged (result_hits st2) (result_hits st') (index st1))
        by (intros m Hm; apply Hk3; now left).
      rewrite (written_unchanged (result_hits st2) (result_hits st') (index st))
        by (intros m Hm; apply Hk3; left; lia).
      rewrite (written_unchanged (result_hits st1) (result_hits st2) (index st))
        by (intros m Hm; apply Hk2; now left).
      nra.
Qed.

(** On the reals, for sigma > 0 and positive pitches, the charges of the
records of a seed of unit charge, its fractions, add up to at most 1, as
long as [erf] is monotone with values in [-1, 1]. *)
Lemma fractions_of_a_cluster_sum_to_at_most_one
    (result_hits0 : list (hit R)) (index0 : nat)
    (result_hits1 : list (hit R)) (index1 n : nat) :
  _create_charge_sharing_hits (num := Real.number erf) (mu1, mu2) seed_column seed_row 1
    max_column max_row thickness pixel_size_x pixel_size_y temperature bias
    digitization_sigma_cc result_hits0 index0 = Ok (result_hits1, index1, n) ->
  charge_sum (written result_hits1 index0 index1) <= 1.
Proof using assumptions.
  unfold _create_charge_sharing_hits.
  destruct (column_loop' (range seed_column max_column) _) as [st1 | e |] eqn:Hup;
    cbn [rbind]; try discriminate.
  destruct (column_loop' (range_down (seed_column - 1) 0) st1) as [st2 | e |] eqn:Hdown;
    cbn [rbind]; try discriminate.
  intros [= <- <- _].
  pose proof (column_loop_sum _ _ _ Hup) as Sup.
  pose proof (column_loop_sum _ _ _ Hdown) as Sdown.
  pose proof (sum_over_scan_up pixel_size_x mu1 seed_column max_column pitch_x_positive) as Bup.
  pose proof (sum_over_scan_down pixel_size_x mu1 seed_column pitch_x_positive) as Bdown.
  apply column_loop_stores in Hup as [(Hi1 & _ & _ & _ & _) _].
  apply column_loop_stores in Hdown as [(Hi2 & _ & _ & Hk2 & _) _].
  cbn [index result_hits] in *.
  rewrite (written_app _ index0 (index st1) (index st2)) by lia.
  rewrite charge_sum_app.
  rewrite (written_unchanged (result_hits st1) (result_hits st2) index0)
    by (intros m Hm; apply Hk2; now left).
  lra.
Qed.

End SumBound.

(** The two assumptions on [erf] hold together, for instance for the ramp
from -1 to 1. *)
Example monotone_and_bounded_ramp :
  let ramp := fun x : R => Rmax (-1) (Rmin 1 x) in
  (forall x y : R, (x <= y)%R -> (ramp x <= ramp y)%R)
  /\ (forall x : R, (-1 <= ramp x <= 1)%R).
Proof.
  split.
  - intros x y Hxy. apply Rle_max_compat_l, Rle_min_compat_l, Hxy.
  - intros x. split; [apply Rmax_l |].
    apply Rmax_lub; [lra | apply Rmin_l].
Qed.

(** ** Boolean selection *)

Lemma select_cons {A} (b : bool) (selection : list bool) (x : A) (a : list A) :
  select (b :: selection) (x :: a) = if b then x :: select selection a else select selection a.
Proof.
  unfold select. cbn [combine]. rewrite filter_cons. cbn [fst].
  destruct b; cbn; [reflexivity |].
  destruct (decide (false = true)); [discriminate | reflexivity].
Qed.

Lemma select_nil_r {A} (selection : list bool) : select selection (@nil A) = [].
Proof. unfold select. now destruct selection. Qed.

Lemma select_sublist {A} (selection : list bool) (a : list A) :
  select selection a `sublist_of` a.
Proof.
  revert a. induction selection as [| b selection IH]; intros a.
  - apply sublist_nil_l.
  - destruct a as [| x a]; [rewrite select_nil_r; constructor |].
    rewrite select_cons. destruct b.
    + apply sublist_skip, IH.
    + apply sublist_cons, IH.
Qed.

(** Selecting by a test keeps only entries that pass it. *)
Lemma select_by_test {A} (test : A -> bool) (a : list A) :
  Forall (fun x => test x = true) (select (map test a) a).
Proof.
  induction a as [| x a IH]; [constructor |].
  cbn [map]. rewrite select_cons. destruct (test x) eqn:Hx; [constructor |]; assumption.
Qed.

Lemma select_map {A B} (f : A -> B) (selection : list bool) :
  forall a : list A, select selection (map f a) = map f (select selection a).
Proof.
  induction selection as [| b selection IH]; intros [| x a]; try reflexivity.
  cbn [map]. rewrite !select_cons. destruct b; cbn [map]; now rewrite IH.
Qed.

Lemma select_all {A} (selection : list bool) :
  forall a : list A,
    Forall (fun b => b = true) selection -> length selection = length a ->
    select selection a = a.
Proof.
  induction selection as [| b selection IH]; intros [| x a] Hall Hlen; try discriminate.
  - reflexivity.
  - inversion Hall as [| ? ? -> Hrest]; subst. rewrite select_cons.
    f_equal. apply IH; [exact Hrest | now injection Hlen].
Qed.

(** ** Computations that sample *)

Lemma bind_Ok {A B} (c : sim A) (k : A -> sim B) (g g' : generator) (b : B) :
  bind c k g = (g', Ok b) ->
  exists (a : A) (g1 : generator), c g = (g1, Ok a) /\ k a g1 = (g', Ok b).
Proof.
  unfold bind. destruct (c g) as [g1 [a | e |]]; try discriminate.
  intros H. now exists a, g1.
Qed.

Lemma ret_Ok {A} (a b : A) (g g' : generator) : ret a g = (g', Ok b) -> a = b /\ g = g'.
Proof. unfold ret. now intros [= -> ->]. Qed.

Lemma lift_Ok {A} (r : result A) (g g' : generator) (a : A) :
  lift r g = (g', Ok a) -> r = Ok a /\ g = g'.
Proof. unfold lift. now intros [= -> ->]. Qed.

Lemma np_random_normal_length (source : entropy) (loc scale : float) (size : Z)
    (g g' : generator) (values : list float) :
  np_random_normal source loc scale size g = (g', Ok values) ->
  length values = Z.to_nat size.
Proof.
  unfold np_random_normal. destruct (_ || _); [discriminate |].
  intros H. apply bind_Ok in H as (c & g1 & _ & H). apply ret_Ok in H as [<- _].
  now rewrite length_map, length_seq.
Qed.

(** ** The digitization pipeline *)

Lemma flat_length (relative_position : list (float * float)) :
  length (flat_map (fun p => [fst p; snd p]) relative_position)
  = (2 * length relative_position)%nat.
Proof.
  induction relative_position as [| p l IH]; [reflexivity |].
  cbn [flat_map app length]. rewrite IH. lia.
Qed.

(** The hit [i] of an array of [n] hits reads its two numbers inside the
transposed array: what lies behind the array plays no part. *)
Lemma transposed_row_inside (stray stray' : float) (relative_position : list (float * float))
    (i : nat) :
  (i < length relative_position)%nat ->
  transposed_row stray relative_position i = transposed_row stray' relative_position i.
Proof.
  intros Hi. unfold transposed_row.
  pose proof (flat_length relative_position) as Hflat.
  set (flat := flat_map _ relative_position) in *.
  destruct (length relative_position =? 1)%nat eqn:Hone.
  - apply Nat.eqb_eq in Hone.
    f_equal; apply nth_indep; lia.
  - apply Nat.eqb_neq in Hone.
    f_equal; apply nth_indep; lia.
Qed.

Lemma inside_on_device (dut : plane) (d : digit) : inside dut d = true -> on_device dut d.
Proof.
  unfold inside, on_device.
  destruct (digit_column d) as [c |], (digit_row d) as [r |]; try discriminate.
  intros H. exists c, r. repeat split; lia.
Qed.

Lemma on_device_pixel (dut : plane) (d d' : digit) :
  pixel d' = pixel d -> on_device dut d -> on_device dut d'.
Proof.
  unfold pixel, on_device. intros [= Hc Hr] (c & r & H1 & H2 & H3).
  exists c, r. rewrite Hc, Hr. easy.
Qed.

Lemma sublist_map {A B} (f : A -> B) (l1 l2 : list A) :
  l1 `sublist_of` l2 -> map f l1 `sublist_of` map f l2.
Proof.
  induction 1; cbn; [constructor | now apply sublist_skip | now apply sublist_cons].
Qed.

Lemma map_pixel_combine (f : float -> float) (ds : list digit) (noise : list float) :
  length noise = length ds ->
  map pixel (map (fun dn : digit * float =>
                    Digit (digit_column (fst dn)) (digit_row (fst dn))
                      (f (digit_charge (fst dn) + snd dn)))
                 (combine ds noise))
  = map pixel ds.
Proof.
  revert noise. induction ds as [| d ds IH]; intros [| x noise]; cbn; try easy.
  intros [= H]. now rewrite IH.
Qed.

Section PipelineFacts.

Variables (erf : float -> float) (source : entropy) (stray : float) (self : settings).
Variable dut : plane.

(** The mask keeps the records on the device only. *)
Lemma mask_outside_on_device (a : list digit * list Z) :
  Forall (on_device dut) (fst (mask_outside dut a)).
Proof.
  unfold mask_outside. cbn [fst].
  eapply Forall_impl; [apply select_by_test |]. apply inside_on_device.
Qed.

Lemma mask_outside_sublist (a : list digit * list Z) :
  fst (mask_outside dut a) `sublist_of` fst a.
Proof. apply select_sublist. Qed.

(** The inefficiency step removes records. *)
Lemma mask_inefficient_sublist (a b : list digit * list Z) (g g' : generator) :
  mask_inefficient source dut a g = (g', Ok b) -> fst b `sublist_of` fst a.
Proof.
  unfold mask_inefficient. intros H.
  apply bind_Ok in H as (hit_indices & g1 & _ & H).
  apply bind_Ok in H as (k & g2 & _ & H).
  apply ret_Ok in H as [<- _]. apply select_sublist.
Qed.

(** The noise step changes charges, not pixels. *)
Lemma add_noise_pixels (a b : list digit * list Z) (g g' : generator) :
  add_noise source self dut a g = (g', Ok b) -> map pixel (fst b) = map pixel (fst a).
Proof.
  unfold add_noise. intros H.
  apply bind_Ok in H as (noise & g1 & Hn & H).
  apply ret_Ok in H as [<- _]. cbn [fst].
  apply map_pixel_combine. apply np_random_normal_length in Hn. lia.
Qed.

(** The threshold step removes records. *)
Lemma delete_below_threshold_sublist (a : list digit * list Z) :
  fst (delete_below_threshold self dut a) `sublist_of` fst a.
Proof. apply select_sublist. Qed.

(** From the mask on, the pixels of the records are, in order, pixels of
records that passed the mask. *)
Lemma pixels_after_the_mask (a b c : list digit * list Z) (g0 g1 g2 : generator) :
  mask_inefficient source dut (mask_outside dut a) g0 = (g1, Ok b) ->
  add_noise source self dut b g1 = (g2, Ok c) ->
  map pixel (fst (delete_below_threshold self dut c))
    `sublist_of` map pixel (fst (mask_outside dut a)).
Proof.
  intros Hb Hc.
  transitivity (map pixel (fst c)).
  - apply sublist_map, delete_below_threshold_sublist.
  - rewrite (add_noise_pixels _ _ _ _ Hc).
    apply sublist_map, (mask_inefficient_sublist _ _ _ _ Hb).
Qed.

Lemma Forall_on_device_pixels (l1 l2 : list digit) :
  map pixel l1 `sublist_of` map pixel l2 ->
  Forall (on_device dut) l2 -> Forall (on_device dut) l1.
Proof.
  revert l1. induction l2 as [| d2 l2 IH]; intros l1 Hsub Hall.
  - destruct l1; [constructor | inversion Hsub].
  - inversion Hall as [| ? ? Hd Hl]; subst.
    destruct l1 as [| d1 l1]; [constructor |].
    cbn [map] in Hsub. inversion Hsub as [| ? ? ? Hs Heq | ? ? ? Hs].
    + constructor; [| now apply IH].
      eapply on_device_pixel; [| exact Hd]. unfold pixel. congruence.
    + apply IH; [exact Hs | exact Hl].
Qed.

(** The records of one device. *)
Lemma digitize_dut_on_device (event_number : list Z) (dut_hits : list (float * float))
    (g g' : generator) (events : list Z) (digits : list digit) :
  digitize_dut erf source stray self event_number dut dut_hits g = (g', Ok (events, digits)) ->
  Forall (on_device dut) digits.
Proof.
  unfold digitize_dut. intros H.
  apply bind_Ok in H as (deposited & g1 & _ & H).
  apply bind_Ok in H as (a & g2 & _ & H).
  apply bind_Ok in H as (b & g3 & Hb & H).
  apply bind_Ok in H as (c & g4 & Hc & H).
  apply ret_Ok in H as [[= _ <-] _].
  eapply Forall_on_device_pixels.
  - exact (pixels_after_the_mask _ _ _ _ _ _ Hb Hc).
  - apply mask_outside_on_device.
Qed.

End PipelineFacts.

Lemma lookup_combine_Some {A B} (l : list A) (k : list B) (i : nat) (x : A) (y : B) :
  combine l k !! i = Some (x, y) -> l !! i = Some x /\ k !! i = Some y.
Proof.
  revert k i. induction l as [| a l IH]; intros [| b k] [| i]; cbn; try discriminate.
  - now intros [= -> ->].
  - apply IH.
Qed.

Lemma digitize_loop_on_device (erf : float -> float) (source : entropy) (stray : float)
    (self : settings) (event_number : list Z)
    (todo : list (plane * list (float * float))) :
  forall (g g' : generator) (per_dut : list (list Z * list digit)),
    digitize_loop erf source stray self event_number todo g = (g', Ok per_dut) ->
    Forall2 (fun t r => Forall (on_device (fst t)) (snd r)) todo per_dut.
Proof.
  induction todo as [| [dut dut_hits] todo IH]; intros g g' per_dut; cbn [digitize_loop].
  - intros H. apply ret_Ok in H as [<- _]. constructor.
  - intros H.
    apply bind_Ok in H as ([events digits] & g1 & Hone & H).
    apply bind_Ok in H as (others & g2 & Hrest & H).
    apply ret_Ok in H as [<- _].
    constructor; [| exact (IH _ _ _ Hrest)].
    cbn. exact (digitize_dut_on_device _ _ _ _ _ _ _ _ _ _ _ Hone).
Qed.

(** The rows appended to a table keep column and row when the device has
fewer than 65536 pixels a side. *)
Lemma table_rows_on_device (dut : plane) (events : list Z) (digits : list digit) :
  Forall (on_device dut) digits ->
  (fst (dut_n_pixel dut) < 65536)%Z -> (snd (dut_n_pixel dut) < 65536)%Z ->
  Forall (fun r => (1 <= hit_column r <= fst (dut_n_pixel dut))%Z
                   /\ (1 <= hit_row r <= snd (dut_n_pixel dut))%Z)
         (table_rows events digits).
Proof.
  intros Hall Hx Hy. unfold table_rows. revert events.
  induction Hall as [| d digits (c & r & Hc & Hr & Hcb & Hrb) _ IH]; intros [| e events];
    cbn; try constructor.
  - rewrite Hc, Hr. cbn. unfold astype_uint16. rewrite !Z.mod_small by lia. lia.
  - apply IH.
Qed.

(** C5 (as amended).  Every record [_digitize_hits] returns for a device
has 1 <= column <= the pixel count in x and 1 <= row <= the pixel count
in y of that device: the mask keeps such records only
([mask_outside_on_device]), and the steps after it remove records or
change charges, never a column or a row ([pixels_after_the_mask]).  The
rows [create_data_and_store] appends to the table of the device for these
records have them too when the device has fewer than 65536 pixels in x
and in y: the table stores column and row as uint16. *)
Theorem digitized_hits_and_table_rows_lie_on_their_device
    (erf : float -> float) (source : entropy) (stray : float) (self : settings)
    (event_number : list Z) (hits : list (list (float * float)))
    (g g' : generator) (event_numbers : list (list Z)) (digitized_hits : list (list digit)) :
  _digitize_hits erf source stray self event_number hits g
  = (g', Ok (event_numbers, digitized_hits)) ->
  forall (dut_index : nat) (dut : plane) (records : list digit),
    duts self !! dut_index = Some dut ->
    digitized_hits !! dut_index = Some records ->
    Forall (on_device dut) records
    /\ ((fst (dut_n_pixel dut) < 65536)%Z -> (snd (dut_n_pixel dut) < 65536)%Z ->
        forall actual_dut_events : list Z,
          Forall (row_on_device dut) (table_rows actual_dut_events records)).
Proof.
  unfold _digitize_hits. intros H dut_index dut records Hdut Hrec.
  apply bind_Ok in H as (per_dut & g1 & Hloop & H).
  apply ret_Ok in H as [[= _ <-] _].
  apply digitize_loop_on_device in Hloop.
  apply list_lookup_fmap_Some in Hrec as ([events records'] & -> & Hk).
  destruct (Forall2_lookup_r _ _ _ _ _ Hloop Hk) as ([dut' dut_hits] & Hin & Hall).
  apply lookup_combine_Some in Hin as [Hd _].
  rewrite Hdut in Hd. injection Hd as <-. cbn [fst snd] in *.
  split; [exact Hall |].
  intros Hx Hy actual_dut_events.
  exact (table_rows_on_device dut actual_dut_events records' Hall Hx Hy).
Qed.

Lemma digitized_hits_and_table_rows_lie_on_their_device_witness :
  let digitized :=
    _digitize_hits Reference.erf calm 0 std_settings [0; 1]%Z
      (repeat on_axis_and_beside 6) seeded in
  Forall (on_device (std_plane 0)) (nth 0 (digitized_of digitized) [])
  /\ Forall (row_on_device (std_plane 0))
       (table_rows (nth 0 (fst (returned ([], []) digitized)) [])
          (nth 0 (digitized_of digitized) [])).
Proof.
  cbv zeta.
  assert (H : duts std_settings !! 0%nat = Some (std_plane 0)) by reflexivity.
  pose proof (digitized_hits_and_table_rows_lie_on_their_device Reference.erf calm 0
                std_settings [0; 1]%Z (repeat on_axis_and_beside 6) seeded
                (fst (_digitize_hits Reference.erf calm 0 std_settings [0; 1]%Z
                        (repeat on_axis_and_beside 6) seeded))
                (fst (returned ([], []) (_digitize_hits Reference.erf calm 0 std_settings
                                          [0; 1]%Z (repeat on_axis_and_beside 6) seeded)))
                (digitized_of (_digitize_hits Reference.erf calm 0 std_settings [0; 1]%Z
                                 (repeat on_axis_and_beside 6) seeded))
                ltac:(vm_compute; reflexivity) 0%nat (std_plane 0)
                (nth 0 (digitized_of (_digitize_hits Reference.erf calm 0 std_settings
                                        [0; 1]%Z (repeat on_axis_and_beside 6) seeded)) [])
                H ltac:(vm_compute; reflexivity)) as [Hrecords Hrows].
  split; [exact Hrecords |].
  apply Hrows; cbn; lia.
Defined.

(** C5, as stated, fails for the table of a device with 65536 columns or
more.  On a device 70000 pixels wide a hit on the beam axis is discretised
to column 65536, which lies on the device; the table row of the record has
column 0.  The same in a whole run of one event. *)
Lemma column_65536_is_written_as_column_0 :
  let self := without_charge_sharing (with_duts [wide_plane] std_settings) in
  let records :=
    nth 0 (digitized_of (_digitize_hits Reference.erf calm 0 self [0%Z] [[(0, 0)]] seeded))
        [] in
  map pixel records = [(Some 65536%Z, Some 51%Z)]
  /\ Forall (on_device wide_plane) records
  /\ map hit_column (table_rows [0%Z] records) = [0%Z]
  /\ snd (create_data_and_store Reference.erf cos_at_0 sin_at_0 calm 0 self 0 1 1 seeded)
     = Ok [[{| event_number := 0; frame := 0; hit_column := 0; hit_row := 51;
               hit_charge := 770 |}]].
Proof.
  cbv zeta. split; [vm_compute; reflexivity |].
  split.
  - vm_compute. constructor; [| constructor].
    exists 65536%Z, 51%Z. repeat split; try reflexivity; discriminate.
  - split; vm_compute; reflexivity.
Qed.

(** One record per hit comes out of the discretisation. *)
Lemma discretized_pixels (dut : plane) (dut_hits : list (float * float)) :
  forall deposited : list float,
    length deposited = length dut_hits ->
    map pixel
      (discretized dut
         (map (fun p => (fst p - fst (offset dut), snd p - snd (offset dut))) dut_hits)
         deposited)
    = seed_pixels dut dut_hits.
Proof.
  unfold discretized, seed_pixels.
  induction dut_hits as [| p hs IH]; intros [| q deposited]; cbn; try easy.
  intros [= Hlen]. f_equal. apply IH, Hlen.
Qed.

Lemma inside_pixel (dut : plane) (d : digit) : inside dut d = pixel_inside dut (pixel d).
Proof. unfold inside, pixel_inside, pixel. now destruct (digit_column d), (digit_row d). Qed.

Lemma np_random_choice_drawn (source : entropy) (values : list float) (size : nat)
    (g g' : generator) (v : list float) :
  np_random_choice source values size g = (g', Ok v) ->
  v = drawn (np_random_choice source values size) (cursor g)
  /\ cursor g' = (cursor g + size)%nat.
Proof.
  unfold np_random_choice, drawn, returned, bind, consume, ret. cbn.
  now intros [= <- <-].
Qed.

Lemma np_random_normal_drawn (source : entropy) (loc scale : float) (size : Z)
    (g g' : generator) (v : list float) :
  np_random_normal source loc scale size g = (g', Ok v) ->
  v = drawn (np_random_normal source loc scale size) (cursor g).
Proof.
  unfold np_random_normal, drawn, returned.
  destruct (_ || _); [discriminate |].
  unfold bind, consume, ret. cbn. now intros [= <- <-].
Qed.

Lemma discretized_charges (dut : plane) (dut_hits : list (float * float)) :
  forall deposited : list float,
    length deposited = length dut_hits ->
    map digit_charge (discretized dut dut_hits deposited) = deposited.
Proof.
  unfold discretized.
  induction dut_hits as [| p hs IH]; intros [| q deposited]; cbn; try easy.
  intros [= Hlen]. f_equal. apply IH, Hlen.
Qed.

Lemma charges_after_noise (ds : list digit) (noise : list float) :
  map digit_charge
    (map (fun dn : digit * float =>
            Digit (digit_column (fst dn)) (digit_row (fst dn)) (digit_charge (fst dn) + snd dn))
         (combine ds noise))
  = with_noise (map digit_charge ds) noise.
Proof.
  unfold with_noise. revert noise.
  induction ds as [| d ds IH]; intros [| x noise]; cbn; try easy.
  now rewrite IH.
Qed.

(** C8 (as amended).  Without charge sharing the records of a device are
the hits given to it, one record per hit with the pixel the hit is
discretised to, its event number and its charge after noise, in the order
of the hits, but for the hits one of three steps removes: the mask (the
pixel of the hit is outside the device), the inefficiency (the hit is
among the first [int(n * (1 - efficiency))] of the shuffled indices of the
[n] hits left) and the threshold (the charge after noise is below it).
No other step removes or adds a record: when the three selections hold
everywhere there is exactly one record for every hit. *)
Theorem without_charge_sharing_one_record_per_hit_that_no_step_removes
    (erf : float -> float) (source : entropy) (stray : float) (self : settings)
    (event_number : list Z) (dut : plane) (dut_hits : list (float * float))
    (g g' : generator) (events : list Z) (digits : list digit) :
  digitization_charge_sharing self = false ->
  length event_number = length dut_hits ->
  digitize_dut erf source stray self event_number dut dut_hits g = (g', Ok (events, digits)) ->
  let pixels := seed_pixels dut dut_hits in
  let deposited := drawn (_get_charge_deposited source dut (length dut_hits)) (cursor g) in
  let on_sensor := map (pixel_inside dut) pixels in
  let n := length (select on_sensor event_number) in
  let hit_indices := shuffled source (cursor g + length dut_hits) n in
  exists n_inefficient_hit : Z,
    let efficient := all_but n (slice_to n_inefficient_hit hit_indices) in
    let noise :=
      drawn (np_random_normal source 0 (dut_noise dut)
               (Z.of_nat (length (select efficient (select on_sensor pixels)))))
            (cursor g + length dut_hits + n) in
    let noisy := with_noise (select efficient (select on_sensor deposited)) noise in
    let above := map (fun q => dut_threshold dut <=? q) noisy in
    F64.trunc (F64.of_Z (Z.of_nat (length hit_indices)) * (1 - dut_efficiency dut))
    = Some n_inefficient_hit
    /\ map pixel digits = select above (select efficient (select on_sensor pixels))
    /\ map digit_charge digits = select above noisy
    /\ events = select above (select efficient (select on_sensor event_number))
    /\ (Forall (fun b => b = true) on_sensor -> Forall (fun b => b = true) efficient ->
        Forall (fun b => b = true) above ->
        map pixel digits = pixels /\ length digits = length dut_hits
        /\ events = event_number).
Proof.
  intros Hoff Hlen H pixels deposited on_sensor n hit_indices.
  unfold digitize_dut in H. rewrite length_map in H.
  apply bind_Ok in H as (deposited' & g1 & Hdep & H).
  apply bind_Ok in H as (a & g2 & Ha & H).
  apply bind_Ok in H as (b & g3 & Hb & H).
  apply bind_Ok in H as (c & g4 & Hc & H).
  apply ret_Ok in H as [[= <- <-] _].
  (* the deposited charges: one per hit, and as many variates consumed *)
  assert (Ldep : length deposited' = length dut_hits).
  { unfold _get_charge_deposited, np_random_choice in Hdep.
    apply bind_Ok in Hdep as (c0 & g0 & _ & Hdep). apply ret_Ok in Hdep as [<- _].
    now rewrite length_map, length_seq. }
  unfold _get_charge_deposited in Hdep.
  apply np_random_choice_drawn in Hdep as [Hdep Hg1].
  fold (_get_charge_deposited source dut (length dut_hits)) in Hdep.
  fold deposited in Hdep. subst deposited'.
  (* no cluster search *)
  unfold clustered in Ha. rewrite Hoff in Ha. apply ret_Ok in Ha as [<- <-].
  set (digits0 := discretized _ _ _) in *.
  assert (Hpix : map pixel digits0 = pixels) by (now apply discretized_pixels).
  assert (Hcharge : map digit_charge digits0 = deposited).
  { apply discretized_charges. now rewrite length_map. }
  assert (Hsel : map (inside dut) digits0 = on_sensor).
  { unfold on_sensor. rewrite <- Hpix, map_map. apply map_ext. intros d. apply inside_pixel. }
  unfold mask_outside in Hb. cbn [fst snd] in Hb. rewrite Hsel in Hb.
  (* the inefficiency *)
  unfold mask_inefficient in Hb. cbn [fst snd] in Hb. fold n in Hb.
  apply bind_Ok in Hb as (indices & g5 & Hshuffle & Hb).
  unfold np_random_shuffle in Hshuffle.
  apply bind_Ok in Hshuffle as (c1 & g6 & Hc1 & Hshuffle).
  apply ret_Ok in Hshuffle as [<- <-].
  unfold consume in Hc1. injection Hc1 as <- <-. rewrite Hg1 in Hb.
  fold hit_indices in Hb.
  apply bind_Ok in Hb as (k & g7 & Hk & Hb).
  apply lift_Ok in Hk as [Hk <-].
  destruct (F64.trunc _) as [k' |] eqn:Htrunc; [| discriminate]. injection Hk as ->.
  apply ret_Ok in Hb as [<- <-].
  change (foldr (fun i sel => <[i := false]> sel) (repeat true n) (slice_to k hit_indices))
    with (all_but n (slice_to k hit_indices)) in Hc.
  set (efficient := all_but _ _) in *.
  (* the noise *)
  unfold add_noise in Hc. rewrite Hoff in Hc. cbn [fst snd] in Hc.
  apply bind_Ok in Hc as (noise & g8 & Hnoise & Hc).
  pose proof (np_random_normal_length _ _ _ _ _ _ _ Hnoise) as Lnoise.
  rewrite Nat2Z.id in Lnoise.
  apply np_random_normal_drawn in Hnoise. cbn [cursor] in Hnoise.
  assert (Lkept : length (select efficient (select on_sensor digits0))
                  = length (select efficient (select on_sensor pixels))).
  { rewrite <- Hpix, !select_map, length_map. reflexivity. }
  rewrite Lkept in Hnoise, Lnoise.
  apply ret_Ok in Hc as [<- <-].
  set (noised := map _ (combine _ noise)).
  assert (Hnoised : map pixel noised = map pixel (select efficient (select on_sensor digits0))).
  { apply (map_pixel_combine (fun x => x)). lia. }
  assert (Hnoisy : map digit_charge noised
                   = with_noise (select efficient (select on_sensor deposited)) noise).
  { unfold noised. rewrite charges_after_noise, <- !select_map, Hcharge. reflexivity. }
  assert (Lnoised : length noised = length (select efficient (select on_sensor pixels))).
  { unfold noised. rewrite length_map, length_combine. lia. }
  (* the threshold *)
  unfold delete_below_threshold, compared_threshold. rewrite Hoff. cbn [fst snd].
  exists k. cbv zeta. fold efficient. rewrite <- Hnoise, <- Hnoisy.
  assert (Habove : map (fun d => dut_threshold dut <=? digit_charge d) noised
                   = map (fun q => dut_threshold dut <=? q) (map digit_charge noised))
    by (now rewrite map_map).
  rewrite Habove. set (above := map _ (map digit_charge noised)).
  assert (Hpixels : map pixel (select above noised)
                    = select above (select efficient (select on_sensor pixels))).
  { rewrite <- select_map, Hnoised, <- !select_map, Hpix. reflexivity. }
  split; [reflexivity |].
  split; [exact Hpixels |].
  split; [now rewrite select_map |].
  split; [reflexivity |].
  intros H1 H2 H3.
  assert (Lp : length pixels = length dut_hits)
    by (unfold pixels, seed_pixels; now rewrite length_map).
  assert (L1 : length on_sensor = length dut_hits)
    by (unfold on_sensor; now rewrite length_map).
  assert (E1 : select on_sensor event_number = event_number)
    by (apply select_all; [exact H1 | lia]).
  assert (P1 : select on_sensor pixels = pixels)
    by (apply select_all; [exact H1 | lia]).
  assert (L2 : length efficient = length dut_hits).
  { unfold efficient, all_but, n. rewrite E1.
    generalize (slice_to k hit_indices). intros l.
    induction l as [| i l IH]; cbn [foldr]; [rewrite repeat_length; lia |].
    now rewrite length_insert. }
  assert (E2 : select efficient event_number = event_number)
    by (apply select_all; [exact H2 | lia]).
  assert (P2 : select efficient pixels = pixels)
    by (apply select_all; [exact H2 | lia]).
  assert (L3 : length above = length dut_hits).
  { unfold above. rewrite !length_map, Lnoised, P1, P2. exact Lp. }
  rewrite Hpixels, P1, P2, E1, E2.
  rewrite (select_all above pixels H3) by lia.
  rewrite (select_all above event_number H3) by lia.
  split; [reflexivity |]. split; [| reflexivity].
  rewrite <- (length_map pixel), Hpixels, P1, P2, (select_all above pixels H3) by lia.
  exact Lp.
Qed.

Lemma without_charge_sharing_one_record_per_hit_that_no_step_removes_witness :
  let call :=
    digitize_dut Reference.erf calm 0 (without_charge_sharing std_settings) [0; 1]%Z
      (std_plane 0) on_axis_and_beside seeded in
  let events := fst (returned ([], []) call) in
  let digits := snd (returned ([], []) call) in
  let pixels := seed_pixels (std_plane 0) on_axis_and_beside in
  let deposited :=
    drawn (_get_charge_deposited calm (std_plane 0) (length on_axis_and_beside))
          (cursor seeded) in
  let on_sensor := map (pixel_inside (std_plane 0)) pixels in
  let n := length (select on_sensor [0; 1]%Z) in
  let hit_indices := shuffled calm (cursor seeded + length on_axis_and_beside) n in
  exists n_inefficient_hit : Z,
    let efficient := all_but n (slice_to n_inefficient_hit hit_indices) in
    let noise :=
      drawn (np_random_normal calm 0 (dut_noise (std_plane 0))
               (Z.of_nat (length (select efficient (select on_sensor pixels)))))
            (cursor seeded + length on_axis_and_beside + n) in
    let noisy := with_noise (select efficient (select on_sensor deposited)) noise in
    let above := map (fun q => dut_threshold (std_plane 0) <=? q) noisy in
    F64.trunc (F64.of_Z (Z.of_nat (length hit_indices)) * (1 - dut_efficiency (std_plane 0)))
    = Some n_inefficient_hit
    /\ map pixel digits = select above (select efficient (select on_sensor pixels))
    /\ map digit_charge digits = select above noisy
    /\ events = select above (select efficient (select on_sensor [0; 1]%Z))
    /\ (Forall (fun b => b = true) on_sensor -> Forall (fun b => b = true) efficient ->
        Forall (fun b => b = true) above ->
        map pixel digits = pixels /\ length digits = length on_axis_and_beside
        /\ events = [0; 1]%Z).
Proof.
  cbv zeta.
  apply (without_charge_sharing_one_record_per_hit_that_no_step_removes Reference.erf calm 0
           (without_charge_sharing std_settings) [0; 1]%Z (std_plane 0) on_axis_and_beside
           seeded
           (fst (digitize_dut Reference.erf calm 0 (without_charge_sharing std_settings)
                   [0; 1]%Z (std_plane 0) on_axis_and_beside seeded))).
  - reflexivity.
  - reflexivity.
  - vm_compute. reflexivity.
Defined.

(** C8, as stated, fails for a hit beside the sensor: with the standard
settings and charge sharing off, a hit 500 um left of the first column is
discretised to column -9 and masked, and the device has no record for it. *)
Lemma hit_beside_the_sensor_leaves_no_record :
  seed_pixels (std_plane 0) [(-3000, 0)] = [(Some (-9)%Z, Some 51%Z)]
  /\ snd (digitize_dut Reference.erf calm 0 (without_charge_sharing std_settings)
            [0%Z] (std_plane 0) [(-3000, 0)] seeded)
     = Ok ([], []).
Proof. split; vm_compute; reflexivity. Qed.

(** ** The positions of the tracks *)

(** C9.  With a beam of sigma 2000 um in x and 500 um in y, both
positions of a track are drawn with the sigma 2000: y with the sigma
of x.  With a sigma of 0 in x and 500 in y, y is drawn with the sigma 0. *)
Theorem track_positions_y_are_drawn_with_the_sigma_of_x (source : entropy) :
  _create_tracks source (with_beam (2000, 500) 0 0 std_settings) 0 2 seeded
  = ({| cursor := 6;
        draws := [normal 0 2000 2; normal 0 2000 2; random_sample 2] |},
     Ok ([0 + 2000 * std_normal source 0; 0 + 2000 * std_normal source 1],
         [0 + 2000 * std_normal source 2; 0 + 2000 * std_normal source 3],
         [unit_uniform source 4 * 2 * pi; unit_uniform source 5 * 2 * pi],
         [0; 0]))
  /\ _create_tracks source (with_beam (0, 500) 0 0 std_settings) 0 2 seeded
     = ({| cursor := 4; draws := [normal 0 0 2; random_sample 2] |},
        Ok ([0; 0],
            [0 + 0 * std_normal source 0; 0 + 0 * std_normal source 1],
            [unit_uniform source 2 * 2 * pi; unit_uniform source 3 * 2 * pi],
            [0; 0])).
Proof. split; vm_compute; reflexivity. Qed.

Lemma np_random_normal_Ok (source : entropy) (loc scale : float) (size : Z)
    (g g' : generator) (values : list float) :
  np_random_normal source loc scale size g = (g', Ok values) ->
  values = map (fun i => loc + scale * std_normal source (cursor g + i)) (seq 0 (Z.to_nat size))
  /\ cursor g' = (cursor g + Z.to_nat size)%nat
  /\ draws g' = draws g ++ [normal loc scale (Z.to_nat size)].
Proof.
  unfold np_random_normal. destruct (_ || _); [discriminate |].
  unfold bind, consume, ret. now intros [= <- <-].
Qed.

(** X15.  Whenever both sigmas of the beam position differ from 0, the x
and the y positions [_create_tracks] returns are the two means plus the
variates scaled by one and the same number, the sigma of x. *)
Lemma track_positions_share_the_sigma_of_x (source : entropy) (self : settings)
    (fuel : nat) (n_tracks : Z) (g g' : generator)
    (track_positions_x track_positions_y track_angles_phi track_angles_theta : list float) :
  _create_tracks source self fuel n_tracks g
  = (g', Ok (track_positions_x, track_positions_y, track_angles_phi, track_angles_theta)) ->
  (fst (beam_position_sigma self) =? 0) = false ->
  (snd (beam_position_sigma self) =? 0) = false ->
  track_positions_x
  = map (fun i => fst (beam_position self)
                  + fst (beam_position_sigma self) * std_normal source (cursor g + i))
        (seq 0 (Z.to_nat n_tracks))
  /\ track_positions_y
     = map (fun i => snd (beam_position self)
                     + fst (beam_position_sigma self)
                       * std_normal source (cursor g + Z.to_nat n_tracks + i))
           (seq 0 (Z.to_nat n_tracks)).
Proof.
  unfold _create_tracks. intros H Hx Hy.
  destruct (_ || _); [discriminate |].
  rewrite Hx, Hy in H. cbn [negb] in H.
  apply bind_Ok in H as (xs & g1 & Hxs & H).
  apply bind_Ok in H as (ys & g2 & Hys & H).
  apply bind_Ok in H as (t0 & g3 & _ & H).
  apply bind_Ok in H as (t & g4 & _ & H).
  apply bind_Ok in H as (u & g5 & _ & H).
  apply ret_Ok in H as [[= <- <- _ _] _].
  apply np_random_normal_Ok in Hxs as (-> & Hc1 & _).
  apply np_random_normal_Ok in Hys as (-> & _ & _).
  now rewrite Hc1.
Qed.

(** ** The chunks of a run *)

Lemma simulated_events_chunks (chunk_size : Z) (n first : nat) :
  simulated_events
    (map (fun chunk_index : nat => ((Z.of_nat chunk_index * chunk_size)%Z, chunk_size))
         (seq first n))
  = (Z.of_nat n * chunk_size)%Z.
Proof.
  unfold simulated_events. revert first. induction n as [| n IH]; intros first; cbn [seq map fold_right].
  - reflexivity.
  - rewrite IH. cbn [snd]. lia.
Qed.

(** X20.  For a positive chunk size the run simulates the event count
rounded up to a whole number of chunks; each chunk starts at the number of
events of the chunks before it. *)
Lemma chunks_round_the_event_count_up (n_events chunk_size : Z) :
  (0 <= n_events)%Z -> (0 < chunk_size)%Z ->
  exists calls : list (Z * Z),
    chunk_calls n_events chunk_size = Ok calls
    /\ simulated_events calls = (chunk_size * ((n_events + chunk_size - 1) / chunk_size))%Z
    /\ (n_events <= simulated_events calls)%Z
    /\ (simulated_events calls = n_events <-> (n_events mod chunk_size = 0)%Z)
    /\ (forall (k : nat) (start_event_number n : Z),
          calls !! k = Some (start_event_number, n) ->
          n = chunk_size /\ start_event_number = simulated_events (take k calls)).
Proof.
  intros Hn Hc. unfold chunk_calls, range_len.
  destruct (Z.eqb_spec chunk_size 0) as [-> | _]; [lia |].
  destruct (Z.ltb_spec 0 chunk_size) as [_ | ?]; [| lia].
  eexists. split; [reflexivity |].
  rewrite simulated_events_chunks.
  set (q := ((n_events + chunk_size - 1) / chunk_size)%Z).
  assert (Hq : (0 <= q)%Z) by (apply Z.div_pos; lia).
  rewrite Z2Nat.id by exact Hq.
  assert (Hlo : (n_events <= chunk_size * q)%Z).
  { pose proof (Z.mul_succ_div_gt (n_events + chunk_size - 1) chunk_size Hc). fold q in H. lia. }
  assert (Hhi : (chunk_size * q <= n_events + chunk_size - 1)%Z)
    by (apply Z.mul_div_le; exact Hc).
  split; [lia |]. split; [lia |]. split.
  - split.
    + intros H. rewrite <- H. apply Z_mod_mult.
    + intros H. apply Z.mod_divide in H; [| lia]. destruct H as [m ->].
      assert (q = m); [| subst q; lia].
      unfold q. replace (m * chunk_size + chunk_size - 1)%Z
        with (chunk_size - 1 + m * chunk_size)%Z by lia.
      rewrite Z.div_add by lia. rewrite Z.div_small by lia. lia.
  - intros k start n Hk.
    apply list_lookup_fmap_Some in Hk as (i & [= -> ->] & Hi).
    apply lookup_seq in Hi as [-> Hlt]. cbn [Nat.add].
    split; [reflexivity |].
    change (take k (map ?f ?l)) with (take k (f <$> l)).
    rewrite <- fmap_take, take_seq.
    change (?f <$> ?l) with (map f l).
    rewrite simulated_events_chunks. f_equal. lia.
Qed.

(** C6.  A run of 1000 events in chunks of 293 calls [_create_data] four
times with 293 events each, 1172 events in all; the run of the test suite,
10000 events with the default chunk size of 100000, simulates 100000.  The
event numbers of a chunk start at the count of the chunks before it. *)
Theorem run_simulates_whole_chunks :
  chunk_calls 1000 293 = Ok [(0, 293); (293, 293); (586, 293); (879, 293)]%Z
  /\ simulated_events [(0, 293); (293, 293); (586, 293); (879, 293)]%Z = 1172%Z
  /\ chunk_calls 10000 100000 = Ok [(0, 100000)]%Z.
Proof. repeat split. Qed.

(** The same on a whole run: three events asked for in chunks of two,
with the standard settings, leave the events 0 to 3 in every table. *)
Example run_of_three_events_in_chunks_of_two :
  match snd (create_data_and_store Reference.erf cos_at_0 sin_at_0 calm 0
               (without_charge_sharing std_settings) 0 3 2 seeded) with
  | Ok hit_tables => map (map event_number) hit_tables = repeat [0; 1; 2; 3]%Z 6
  | _ => False
  end.
Proof. vm_compute. reflexivity. Qed.

(** ** The configuration check *)

(** A run of at least one event whose beam angle, taken in rad, is
outside [0, pi] ends with a [ValueError] in its first chunk: after the
draw of the tracks per event of that chunk (when that draw itself is not
turned down for a negative sigma) and before any draw of a position or an
angle. *)
Lemma beam_angle_is_rejected_after_the_tracks_per_event_draw
    (erf cos sin : float -> float) (source : entropy) (stray : float) (self : settings)
    (fuel : nat) (n_events chunk_size : Z) (g : generator) :
  (pi <? beam_angle self / 1000) || (beam_angle self / 1000 <? 0) = true ->
  (0 < n_events)%Z -> (0 < chunk_size)%Z ->
  create_data_and_store erf cos sin source stray self fuel n_events chunk_size g
  = (if tracks_per_event_sigma self <? 0 then g
     else {| cursor := cursor g + Z.to_nat chunk_size;
             draws := draws g ++ [normal (tracks_per_event self)
                                    (tracks_per_event_sigma self) (Z.to_nat chunk_size)] |},
     Raise ValueError).
Proof.
  intros Hangle Hn Hc.
  unfold create_data_and_store, chunk_calls, range_len.
  destruct (Z.eqb_spec chunk_size 0) as [-> | _]; [lia |].
  destruct (Z.ltb_spec 0 chunk_size) as [_ | ?]; [| lia].
  assert (Hq : (1 <= (n_events + chunk_size - 1) / chunk_size)%Z)
    by (apply Z.div_le_lower_bound; lia).
  destruct (Z.to_nat ((n_events + chunk_size - 1) / chunk_size)) as [| k] eqn:Hk; [lia |].
  cbn [seq map]. unfold bind at 1, lift. cbn [chunk_loop].
  unfold bind at 1, _create_data. unfold bind at 1, np_random_normal.
  destruct (Z.ltb_spec chunk_size 0) as [? | _]; [lia |]. cbn [orb].
  destruct (tracks_per_event_sigma self <? 0); [reflexivity |].
  unfold bind at 1, consume, ret. cbn [fst snd].
  unfold _create_tracks. rewrite Hangle. reflexivity.
Qed.

Lemma beam_angle_is_rejected_after_the_tracks_per_event_draw_witness :
  create_data_and_store Reference.erf cos_at_0 sin_at_0 calm 0
    (with_beam (2000, 2000) 4000 1 std_settings) 0 10 5 seeded
  = ({| cursor := 5; draws := [normal 1 1 5] |}, Raise ValueError).
Proof.
  apply (beam_angle_is_rejected_after_the_tracks_per_event_draw Reference.erf cos_at_0
           sin_at_0 calm 0 (with_beam (2000, 2000) 4000 1 std_settings) 0 10 5 seeded).
  - reflexivity.
  - lia.
  - lia.
Defined.

(** ** The list of the draws only grows *)

Lemma ret_keeps_the_draws {A} (a : A) : keeps_the_draws (ret a).
Proof. intros g. exists []. cbn. now rewrite app_nil_r. Qed.

Lemma raise_keeps_the_draws {A} (e : exception) : keeps_the_draws (@raise A e).
Proof. intros g. exists []. cbn. now rewrite app_nil_r. Qed.

Lemma running_keeps_the_draws {A} : keeps_the_draws (@running A).
Proof. intros g. exists []. cbn. now rewrite app_nil_r. Qed.

Lemma lift_keeps_the_draws {A} (r : result A) : keeps_the_draws (lift r).
Proof. intros g. exists []. cbn. now rewrite app_nil_r. Qed.

Lemma consume_keeps_the_draws (d : draw) (n : nat) : keeps_the_draws (consume d n).
Proof. intros g. exists [d]. reflexivity. Qed.

Lemma bind_keeps_the_draws {A B} (c : sim A) (k : A -> sim B) :
  keeps_the_draws c -> (forall a : A, keeps_the_draws (k a)) -> keeps_the_draws (bind c k).
Proof.
  intros Hc Hk g. unfold bind. destruct (Hc g) as [l1 H1].
  destruct (c g) as [g1 [a | e |]]; cbn [fst] in *.
  - destruct (Hk a g1) as [l2 H2]. exists (l1 ++ l2). now rewrite H2, H1, app_assoc.
  - now exists l1.
  - now exists l1.
Qed.

Create HintDb draws discriminated.
#[local] Hint Resolve ret_keeps_the_draws raise_keeps_the_draws running_keeps_the_draws
  lift_keeps_the_draws consume_keeps_the_draws : draws.

(** One step through a computation: a bind, a branch, a leaf. *)
Ltac keeps_step :=
  match goal with
  | |- keeps_the_draws (bind _ _) => apply bind_keeps_the_draws; [| intros ?]
  | |- keeps_the_draws (if ?b then _ else _) => destruct b
  | |- keeps_the_draws (match ?x with _ => _ end) => destruct x
  | |- keeps_the_draws _ => solve [auto with draws]
  end.

Ltac keeps := repeat keeps_step.

Lemma np_random_normal_keeps_the_draws (source : entropy) (loc scale : float) (size : Z) :
  keeps_the_draws (np_random_normal source loc scale size).
Proof. unfold np_random_normal. keeps. Qed.

Lemma np_random_random_keeps_the_draws (source : entropy) (size : nat) :
  keeps_the_draws (np_random_random source size).
Proof. unfold np_random_random. keeps. Qed.

Lemma np_random_shuffle_keeps_the_draws (source : entropy) (n : nat) :
  keeps_the_draws (np_random_shuffle source n).
Proof. unfold np_random_shuffle. keeps. Qed.

Lemma np_random_choice_keeps_the_draws (source : entropy) (values : list float) (size : nat) :
  keeps_the_draws (np_random_choice source values size).
Proof. unfold np_random_choice. keeps. Qed.

#[local] Hint Resolve np_random_normal_keeps_the_draws np_random_random_keeps_the_draws
  np_random_shuffle_keeps_the_draws np_random_choice_keeps_the_draws : draws.

Lemma cut_down_keeps_the_draws (source : entropy) (self : settings) (fuel : nat) :
  forall theta : list float, keeps_the_draws (cut_down source self fuel theta).
Proof.
  induction fuel as [| fuel IH]; intros theta; cbn [cut_down]; keeps.
Qed.

#[local] Hint Resolve cut_down_keeps_the_draws : draws.

Lemma create_tracks_keeps_the_draws (source : entropy) (self : settings) (fuel : nat)
    (n_tracks : Z) :
  keeps_the_draws (_create_tracks source self fuel n_tracks).
Proof. unfold _create_tracks. keeps. Qed.

Lemma digitize_dut_keeps_the_draws (erf : float -> float) (source : entropy) (stray : float)
    (self : settings) (event_number : list Z) (dut : plane) (dut_hits : list (float * float)) :
  keeps_the_draws (digitize_dut erf source stray self event_number dut dut_hits).
Proof.
  unfold digitize_dut, _get_charge_deposited, clustered, mask_inefficient, add_noise. keeps.
Qed.

#[local] Hint Resolve create_tracks_keeps_the_draws digitize_dut_keeps_the_draws : draws.

Lemma digitize_loop_keeps_the_draws (erf : float -> float) (source : entropy) (stray : float)
    (self : settings) (event_number : list Z) (todo : list (plane * list (float * float))) :
  keeps_the_draws (digitize_loop erf source stray self event_number todo).
Proof.
  induction todo as [| [dut dut_hits] todo IH]; cbn [digitize_loop]; keeps.
Qed.

#[local] Hint Resolve digitize_loop_keeps_the_draws : draws.

Lemma create_data_keeps_the_draws (erf cos sin : float -> float) (source : entropy)
    (stray : float) (self : settings) (fuel : nat) (start_event_number n_events : Z) :
  keeps_the_draws (_create_data erf cos sin source stray self fuel start_event_number n_events).
Proof. unfold _create_data, _digitize_hits. keeps. Qed.

#[local] Hint Resolve create_data_keeps_the_draws : draws.

Lemma chunk_loop_keeps_the_draws (erf cos sin : float -> float) (source : entropy)
    (stray : float) (self : settings) (fuel : nat) (calls : list (Z * Z)) :
  forall hit_tables : list (list table_row),
    keeps_the_draws (chunk_loop erf cos sin source stray self fuel calls hit_tables).
Proof.
  induction calls as [| [start_event_number n_events] calls IH]; intros hit_tables;
    cbn [chunk_loop]; keeps.
Qed.

#[local] Hint Resolve chunk_loop_keeps_the_draws : draws.

Lemma bind_assoc {A B C} (c : sim A) (k : A -> sim B) (k' : B -> sim C) (g : generator) :
  bind (bind c k) k' g = bind c (fun a => bind (k a) k') g.
Proof. unfold bind. now destruct (c g) as [g1 [a | e |]]. Qed.

(** What follows a step that returns starts from the draws of that step. *)
Lemma draws_after {A B} (c : sim A) (k : A -> sim B) (g g1 : generator) (a : A) :
  c g = (g1, Ok a) -> (forall a : A, keeps_the_draws (k a)) ->
  exists later : list draw, draws (fst (bind c k g)) = draws g1 ++ later.
Proof. intros Hc Hk. unfold bind. rewrite Hc. apply Hk. Qed.

(** C7 (as amended).  No setting is checked before the sampling starts:
whatever the devices are, their thickness, pitch and pixel count among
them, a run of at least one event first draws the tracks per event of its
first chunk (unless numpy turns that draw down for a negative sigma).  A
beam angle that, taken in rad, is outside [0, pi] then ends the run with a
[ValueError], after that draw and before any draw of a position or an
angle. *)
Theorem configuration_is_not_checked_before_the_first_draw
    (erf cos sin : float -> float) (source : entropy) (stray : float) (self : settings)
    (fuel : nat) (n_events chunk_size : Z) (g : generator) :
  (0 < n_events)%Z -> (0 < chunk_size)%Z ->
  ((tracks_per_event_sigma self <? 0) = false ->
   exists later : list draw,
     draws (fst (create_data_and_store erf cos sin source stray self fuel n_events
                   chunk_size g))
     = draws g ++ normal (tracks_per_event self) (tracks_per_event_sigma self)
                    (Z.to_nat chunk_size) :: later)
  /\ ((pi <? beam_angle self / 1000) || (beam_angle self / 1000 <? 0) = true ->
      create_data_and_store erf cos sin source stray self fuel n_events chunk_size g
      = (if tracks_per_event_sigma self <? 0 then g
         else {| cursor := cursor g + Z.to_nat chunk_size;
                 draws := draws g ++ [normal (tracks_per_event self)
                                        (tracks_per_event_sigma self)
                                        (Z.to_nat chunk_size)] |},
         Raise ValueError)).
Proof.
  intros Hn Hc. split.
  - intros Hsigma.
    unfold create_data_and_store, chunk_calls, range_len.
    destruct (Z.eqb_spec chunk_size 0) as [-> | _]; [lia |].
    destruct (Z.ltb_spec 0 chunk_size) as [_ | ?]; [| lia].
    assert (Hq : (1 <= (n_events + chunk_size - 1) / chunk_size)%Z)
      by (apply Z.div_le_lower_bound; lia).
    destruct (Z.to_nat ((n_events + chunk_size - 1) / chunk_size)) as [| k] eqn:Hk; [lia |].
    cbn [seq map]. unfold bind at 1, lift. cbn [chunk_loop].
    unfold _create_data. rewrite bind_assoc.
    match goal with
    | |- context [bind ?c ?k g] =>
        destruct (draws_after c k g
                    {| cursor := cursor g + Z.to_nat chunk_size;
                       draws := draws g ++ [normal (tracks_per_event self)
                                              (tracks_per_event_sigma self)
                                              (Z.to_nat chunk_size)] |}
                    (map (fun i => tracks_per_event self
                                   + tracks_per_event_sigma self
                                     * std_normal source (cursor g + i))
                         (seq 0 (Z.to_nat chunk_size))))
          as [later Hlater]
    end.
    + unfold np_random_normal. rewrite Hsigma.
      destruct (Z.ltb_spec chunk_size 0) as [? | _]; [lia |]. reflexivity.
    + intros drawn. cbv zeta. unfold _digitize_hits. keeps.
    + exists later. rewrite Hlater. cbn [draws]. now rewrite <- app_assoc.
  - intros Hangle.
    exact (beam_angle_is_rejected_after_the_tracks_per_event_draw erf cos sin source stray
             self fuel n_events chunk_size g Hangle Hn Hc).
Qed.

Lemma configuration_is_not_checked_before_the_first_draw_witness :
  (exists later : list draw,
     draws (fst (create_data_and_store Reference.erf cos_at_0 sin_at_0 calm 0
                   (with_beam (2000, 2000) 4000 1 (with_duts unphysical_planes std_settings))
                   0 10 5 seeded))
     = draws seeded ++ normal 1 1 (Z.to_nat 5) :: later)
  /\ create_data_and_store Reference.erf cos_at_0 sin_at_0 calm 0
       (with_beam (2000, 2000) 4000 1 (with_duts unphysical_planes std_settings))
       0 10 5 seeded
     = ({| cursor := 5; draws := [normal 1 1 5] |}, Raise ValueError).
Proof.
  destruct (configuration_is_not_checked_before_the_first_draw Reference.erf cos_at_0
              sin_at_0 calm 0
              (with_beam (2000, 2000) 4000 1 (with_duts unphysical_planes std_settings))
              0 10 5 seeded ltac:(lia) ltac:(lia)) as [Hdraw Hangle].
  split; [apply Hdraw; reflexivity | apply Hangle; reflexivity].
Defined.

(** C7, as stated, fails twice.  A beam angle of 4 rad is turned down
only after the tracks per event of the first chunk were drawn; and a run
over devices with a negative thickness, a pitch of 0 or no pixels is not
turned down at all. *)
Lemma configuration_is_checked_late_or_not_at_all :
  fst (create_data_and_store Reference.erf cos_at_0 sin_at_0 calm 0
         (with_beam (2000, 2000) 4000 1 std_settings) 0 10 5 seeded)
  = {| cursor := 5; draws := [normal 1 1 5] |}
  /\ snd (create_data_and_store Reference.erf cos_at_0 sin_at_0 calm 0
            (without_charge_sharing (with_duts unphysical_planes std_settings))
            0 2 2 seeded)
     = Ok [[]; []; []].
Proof. split; vm_compute; reflexivity. Qed.

(** ** More on the cluster search *)

Lemma NoDup_range (start stop : Z) : NoDup (range start stop).
Proof.
  unfold range. apply NoDup_fmap_2_strong.
  - intros i j _ _ Hij. lia.
  - apply NoDup_ListNoDup, seq_NoDup.
Qed.

Lemma NoDup_range_down (start stop : Z) : NoDup (range_down start stop).
Proof.
  unfold range_down. apply NoDup_fmap_2_strong.
  - intros i j _ _ Hij. lia.
  - apply NoDup_ListNoDup, seq_NoDup.
Qed.

Section ClusterFacts.

Context {F : Type} {num : Number F}.

Variables (relative_position : F * F) (seed_column seed_row : Z) (seed_charge : F).
Variables (max_column max_row : Z).
Variables (thickness pixel_size_x pixel_size_y temperature bias : F).
Variable (digitization_sigma_cc : F).

Local Abbreviation row_loop' :=
  (row_loop relative_position seed_column seed_row seed_charge thickness
     pixel_size_x pixel_size_y temperature bias digitization_sigma_cc).
Local Abbreviation column_loop' :=
  (column_loop relative_position seed_column seed_row seed_charge max_row thickness
     pixel_size_x pixel_size_y temperature bias digitization_sigma_cc).
Local Abbreviation share :=
  (share_of_the_seed relative_position seed_column seed_row seed_charge thickness
     pixel_size_x pixel_size_y temperature bias digitization_sigma_cc).

Lemma row_loop_shares (actual_column : Z) (rows : list Z) (st st' : search_state F) :
  row_loop' actual_column rows st = Ok st' ->
  stores share (result_hits st) (index st) (result_hits st') (index st').
Proof.
  revert st. induction rows as [| actual_row rows IH]; intros st; cbn.
  - intros [= <-]. apply stores_refl.
  - destruct (nltb _ min_fraction) eqn:Hmin.
    + intros [= <-]. apply stores_refl.
    + destruct (add_hit _ _) as [st2 | e |] eqn:Hadd; cbn; try discriminate.
      apply (add_hit_stores share) in Hadd as (Hst2 & _ & _);
        [| split; [reflexivity | exact Hmin]].
      cbn in Hst2.
      destruct (nleb _ (total_fraction st2)).
      * intros [= <-]. exact Hst2.
      * intros Hloop. eapply stores_trans; [exact Hst2 | exact (IH _ Hloop)].
Qed.

Lemma column_loop_shares (columns : list Z) (st st' : search_state F) :
  column_loop' columns st = Ok st' ->
  stores share (result_hits st) (index st) (result_hits st') (index st').
Proof.
  revert st. induction columns as [| actual_column columns IH]; intros st; cbn.
  - intros [= <-]. apply stores_refl.
  - destruct (_ || _).
    + intros [= <-]. apply stores_refl.
    + destruct (row_loop' actual_column (range seed_row max_row) st)
        as [st1 | e |] eqn:Hup; cbn; try discriminate.
      destruct (row_loop' actual_column (range_down (seed_row - 1) 0) st1)
        as [st2 | e |] eqn:Hdown; cbn; try discriminate.
      intros Hrest.
      eapply stores_trans; [exact (row_loop_shares _ _ _ _ Hup) |].
      eapply stores_trans; [exact (row_loop_shares _ _ _ _ Hdown) |].
      exact (IH _ Hrest).
Qed.

(** X5.  A call of [_create_charge_sharing_hits] that returns has moved
the index on by [n_hits], the number of its stores, and has left the
length of the result array and every place of it outside
[index .. index + n_hits - 1], the records of the hits before it among
them, as they were. *)
Theorem cluster_search_stores_in_place
    (result_hits0 : list (hit F)) (index0 : nat)
    (result_hits1 : list (hit F)) (index1 n : nat) :
  _create_charge_sharing_hits relative_position seed_column seed_row seed_charge
    max_column max_row thickness pixel_size_x pixel_size_y temperature bias
    digitization_sigma_cc result_hits0 index0 = Ok (result_hits1, index1, n) ->
  index1 = (index0 + n)%nat
  /\ length result_hits1 = length result_hits0
  /\ (forall j : nat, (j < index0 \/ index1 <= j)%nat -> result_hits1 !! j = result_hits0 !! j).
Proof.
  intros Hrun. apply create_charge_sharing_hits_stores in Hrun as [Hst Hn].
  destruct Hst as (Hi & Hl & _ & Hk & _).
  repeat split; [exact Hn | exact Hl | exact Hk].
Qed.


Lemma row_loop_distinct (actual_column : Z) (rows : list Z) (st st' : search_state F) :
  NoDup rows ->
  row_loop' actual_column rows st = Ok st' ->
  NoDup (map pixel_of (written (result_hits st') (index st) (index st'))).
Proof.
  intros Hnd. revert st. induction Hnd as [| actual_row rows Hnot Hnd IH]; intros st; cbn.
  - intros [= <-]. rewrite written_nil. constructor.
  - destruct (nltb _ min_fraction).
    + intros [= <-]. cbn [index result_hits]. rewrite written_nil. constructor.
    + destruct (add_hit _ _) as [st2 | e |] eqn:Hadd; cbn; try discriminate.
      unfold add_hit in Hadd. cbn [index result_hits total_fraction n_hits] in Hadd.
      destruct (decide _) as [Hroom | _]; [| discriminate].
      injection Hadd as <-. cbn [total_fraction].
      set (h := Hit actual_column actual_row _).
      destruct (nleb _ _).
      * intros [= <-]. cbn [index result_hits].
        rewrite (written_one _ _ h) by (now apply list_lookup_insert_eq).
        cbn. apply NoDup_singleton.
      * intros Hloop. pose proof (IH _ Hloop) as Hrest.
        apply row_loop_stores in Hloop as [Hst _].
        pose proof (stores_written _ _ _ _ _ Hst) as [Hall _].
        destruct Hst as (Hi & _ & _ & Hk & _).
        cbn [index result_hits] in Hi, Hk, Hall, Hrest.
        rewrite (written_app _ (index st) (S (index st)) (index st')) by lia.
        rewrite (written_unchanged (<[index st := h]> (result_hits st)))
          by (intros m Hm; apply Hk; now left).
        rewrite (written_one _ _ h) by (now apply list_lookup_insert_eq).
        cbn [app map]. apply NoDup_cons. split; [| exact Hrest].
        intros Hin. apply list_elem_of_fmap in Hin as (h' & Heq & Hin).
        rewrite Forall_forall in Hall. apply Hall in Hin as [_ Hr].
        unfold pixel_of in Heq. cbn in Heq. injection Heq as _ Heq. congruence.
Qed.

Lemma column_loop_distinct (columns : list Z) (st st' : search_state F) :
  NoDup columns ->
  column_loop' columns st = Ok st' ->
  NoDup (map pixel_of (written (result_hits st') (index st) (index st'))).
Proof.
  intros Hnd. revert st. induction Hnd as [| actual_column columns Hnot Hnd IH]; intros st; cbn.
  - intros [= <-]. rewrite written_nil. constructor.
  - destruct (_ || _).
    + intros [= <-]. rewrite written_nil. constructor.
    + destruct (row_loop' actual_column (range seed_row max_row) st)
        as [st1 | e |] eqn:Hup; cbn; try discriminate.
      destruct (row_loop' actual_column (range_down (seed_row - 1) 0) st1)
        as [st2 | e |] eqn:Hdown; cbn; try discriminate.
      intros Hrest.
      pose proof (row_loop_distinct _ _ _ _ (NoDup_range _ _) Hup) as Dup.
      pose proof (row_loop_distinct _ _ _ _ (NoDup_range_down _ _) Hdown) as Ddown.
      pose proof (IH _ Hrest) as Drest.
      apply row_loop_stores in Hup as [Hup _].
      apply row_loop_stores in Hdown as [Hdown _].
      apply column_loop_stores in Hrest as [Hrest _].
      pose proof (stores_written _ _ _ _ _ Hup) as [Aup _].
      pose proof (stores_written _ _ _ _ _ Hdown) as [Adown _].
      pose proof (stores_written _ _ _ _ _ Hrest) as [Arest _].
      destruct Hup as (Hi1 & _ & _ & _ & _).
      destruct Hdown as (Hi2 & _ & _ & Hk2 & _).
      destruct Hrest as (Hi3 & _ & _ & Hk3 & _).
      rewrite (written_app _ (index st) (index st2) (index st')) by lia.
      rewrite (written_app _ (index st) (index st1) (index st2)) by lia.
      rewrite (written_unchanged (result_hits st2) (result_hits st') (index st1))
        by (intros m Hm; apply Hk3; now left).
      rewrite (written_unchanged (result_hits st2) (result_hits st') (index st))
        by (intros m Hm; apply Hk3; left; lia).
      rewrite (written_unchanged (result_hits st1) (result_hits st2) (index st))
        by (intros m Hm; apply Hk2; now left).
      rewrite Forall_forall in Aup, Adown, Arest.
      rewrite !map_app. apply NoDup_app. split; [| split; [| exact Drest]].
      * apply NoDup_app. split; [exact Dup |]. split; [| exact Ddown].
        intros p Hp1 Hp2.
        apply list_elem_of_fmap in Hp1 as (h1 & -> & Hin1).
        apply list_elem_of_fmap in Hp2 as (h2 & Heq & Hin2).
        apply Aup in Hin1 as [_ Hr1]. apply Adown in Hin2 as [_ Hr2].
        apply elem_of_range in Hr1. apply elem_of_range_down in Hr2.
        unfold pixel_of in Heq. injection Heq as _ Heq. lia.
      * intros p Hp1 Hp2.
        apply list_elem_of_fmap in Hp2 as (h2 & -> & Hin2).
        apply Arest in Hin2 as [Hc2 _].
        assert (Hc1 : fst (pixel_of h2) = actual_column).
        { apply elem_of_app in Hp1 as [Hp1 | Hp1];
            apply list_elem_of_fmap in Hp1 as (h1 & -> & Hin1);
            [apply Aup in Hin1 as [Hc _] | apply Adown in Hin1 as [Hc _]]; exact Hc. }
        cbn in Hc1. congruence.
Qed.


End ClusterFacts.

Lemma cluster_search_stores_in_place_witness :
  let call :=
    _create_charge_sharing_hits (num := F64.number Reference.erf) (24, 24)%float 3 3
      1000%float 10 10 100%float 50%float 50%float 300%float 50%float 1%float
      (repeat (Hit 0 0 0%float) 10) 2 in
  index_of call = (2 + 4)%nat
  /\ length (array_of call) = length (repeat (Hit 0 0 0%float) 10)
  /\ (forall j : nat, (j < 2 \/ index_of call <= j)%nat ->
        array_of call !! j = repeat (Hit 0 0 0%float) 10 !! j).
Proof.
  cbv zeta.
  apply (cluster_search_stores_in_place (num := F64.number Reference.erf) (24, 24)%float 3 3
           1000%float 10 10 100%float 50%float 50%float 300%float 50%float 1%float
           (repeat (Hit 0 0 0%float) 10) 2).
  vm_compute. reflexivity.
Defined.



(** ** The clusters of a list of seeds *)

Lemma np_repeat_length {A} (a : list A) :
  forall repeats : list nat,
    length a = length repeats -> length (np_repeat a repeats) = sum_list repeats.
Proof.
  unfold np_repeat.
  induction a as [| x a IH]; intros [| n repeats]; cbn; try easy.
  intros [= Hlen]. rewrite length_app, repeat_length. now rewrite (IH _ Hlen).
Qed.

Section CountFacts.

Context {F : Type} {num : Number F}.

(** The loop over the seeds writes the cluster size of each seed at the
place of the seed, and moves the index on by the sum of the sizes. *)
Lemma seed_loop_counts (relative_position : nat -> F * F) (max_column max_row : Z)
    (thickness pixel_size_x pixel_size_y temperature bias : F)
    (seeds : list (hit F)) :
  forall (actual_index : nat) (result_hits : list (hit F)) (result_index : nat)
         (counts : list nat) (result_hits' : list (hit F)) (result_index' : nat)
         (counts' : list nat),
    seed_loop relative_position max_column max_row thickness pixel_size_x pixel_size_y
      temperature bias actual_index seeds result_hits result_index counts
    = Ok (result_hits', result_index', counts') ->
    (actual_index + length seeds <= length counts)%nat ->
    exists ns : list nat,
      length ns = length seeds
      /\ counts' = take actual_index counts ++ ns ++ drop (actual_index + length seeds) counts
      /\ result_index' = (result_index + sum_list ns)%nat.
Proof.
  induction seeds as [| s seeds IH]; intros i buf idx counts buf' idx' counts'; cbn.
  - intros [= <- <- <-] _. exists []. cbn.
    rewrite Nat.add_0_r, take_drop. repeat split; lia.
  - destruct (_create_charge_sharing_hits _ _ _ _ _ _ _ _ _ _ _ _ buf idx)
      as [[[buf1 idx1] n] | e |] eqn:Hone; cbn; try discriminate.
    intros Hrest Hlen. cbn [length] in Hlen.
    apply create_charge_sharing_hits_stores in Hone as [_ Hn].
    assert (Hlen1 : (S i + length seeds <= length (<[i := n]> counts))%nat).
    { rewrite length_insert. lia. }
    destruct (IH _ _ _ _ _ _ _ Hrest Hlen1) as (ns & Hns & Hcounts & Hidx).
    exists (n :: ns). split; [cbn; lia |]. split; [| cbn; lia].
    rewrite Hcounts.
    assert (Hi : (i < length counts)%nat) by lia.
    rewrite (take_S_r (<[i := n]> counts) i n) by (now apply list_lookup_insert_eq).
    rewrite take_insert_ge by lia.
    rewrite drop_insert_lt by lia.
    rewrite <- app_assoc. cbn [app].
    replace (S i + length seeds)%nat with (i + S (length seeds))%nat by lia. reflexivity.
Qed.

Lemma cluster_sizes_add_up
    (relative_position : nat -> F * F) (max_column max_row : Z)
    (thickness pixel_size_x pixel_size_y temperature bias : F)
    (hits_digits records : list (hit F)) (counts : list nat) :
  _add_charge_sharing_hits relative_position max_column max_row thickness
    pixel_size_x pixel_size_y temperature bias hits_digits = Ok (records, counts) ->
  length counts = length hits_digits /\ sum_list counts = length records.
Proof.
  unfold _add_charge_sharing_hits.
  destruct (seed_loop _ _ _ _ _ _ _ _ _ _ _ _ _) as [[[buf' idx'] counts'] | e |] eqn:Hloop;
    cbn; try discriminate.
  intros [= <- <-].
  pose proof (seed_loop_stores _ _ _ _ _ _ _ _ _ _ _ _ _ _ _ _ Hloop) as (_ & Hl & Hb & _).
  apply seed_loop_counts in Hloop as (ns & Hns & -> & ->); [| rewrite repeat_length; lia].
  rewrite repeat_length in Hl, Hb.
  rewrite take_0. cbn [app Nat.add] in *.
  rewrite drop_ge by (rewrite repeat_length; lia). rewrite app_nil_r.
  split; [exact Hns |]. rewrite length_take. destruct (sum_list ns); lia.
Qed.

(** X9.  When the clusters fit the result array (their sizes add up to at
most 5 per seed hit) and every size fits the int16 it is stored in,
[_add_charge_sharing_hits] returns one cluster size per seed, and the
sizes add up to the number of records: event numbers repeated by the
sizes, as [_digitize_hits] repeats them, number as many as the records. *)
Theorem cluster_sizes_add_up_to_the_records
    (relative_position : nat -> F * F) (max_column max_row : Z)
    (thickness pixel_size_x pixel_size_y temperature bias : F)
    (hits_digits records : list (hit F)) (counts : list nat) (event_number : list Z) :
  _add_charge_sharing_hits relative_position max_column max_row thickness
    pixel_size_x pixel_size_y temperature bias hits_digits = Ok (records, counts) ->
  (sum_list counts <= 5 * length hits_digits)%nat ->
  Forall (fun n => Z.of_nat n < 32768)%Z counts ->
  length event_number = length hits_digits ->
  length counts = length hits_digits
  /\ sum_list counts = length records
  /\ length (np_repeat event_number counts) = length records.
Proof.
  intros Hrun _ _ Hlen. apply cluster_sizes_add_up in Hrun as [Hc Hs].
  split; [exact Hc |]. split; [exact Hs |].
  rewrite np_repeat_length by congruence. exact Hs.
Qed.

(** X10.  When the seeds lie in columns and rows from 1 on, so do the
records of their clusters: the scans towards smaller columns and rows
stop at 1. *)
Theorem cluster_records_start_at_the_first_column_and_row
    (relative_position : nat -> F * F) (max_column max_row : Z)
    (thickness pixel_size_x pixel_size_y temperature bias : F)
    (hits_digits records : list (hit F)) (counts : list nat) :
  _add_charge_sharing_hits relative_position max_column max_row thickness
    pixel_size_x pixel_size_y temperature bias hits_digits = Ok (records, counts) ->
  Forall (fun s => 1 <= column s /\ 1 <= row s)%Z hits_digits ->
  Forall (fun h => 1 <= column h /\ 1 <= row h)%Z records.
Proof.
  intros Hrun Hseeds.
  apply add_charge_sharing_hits_records in Hrun as [Hall _].
  rewrite Forall_forall in Hseeds.
  eapply Forall_impl; [exact Hall |].
  intros h (s & Hin & Hc & Hr). cbn beta.
  apply Hseeds in Hin.
  unfold reachable in Hc, Hr. lia.
Qed.

End CountFacts.

Lemma cluster_sizes_add_up_to_the_records_witness :
  let cluster :=
    _add_charge_sharing_hits (num := F64.number Reference.erf) (fun _ => (24, 24)%float)
      10 10 100%float 50%float 50%float 300%float 50%float
      [Hit 3 3 1000%float; Hit 10 3 1000%float] in
  length [4; 0]%nat = length [Hit 3 3 1000%float; Hit 10 3 1000%float]
  /\ sum_list [4; 0]%nat = length (records_of cluster)
  /\ length (np_repeat [7; 8]%Z [4; 0]%nat) = length (records_of cluster).
Proof.
  cbv zeta.
  apply (cluster_sizes_add_up_to_the_records (num := F64.number Reference.erf)
           (fun _ => (24, 24)%float) 10 10 100%float 50%float 50%float 300%float 50%float
           [Hit 3 3 1000%float; Hit 10 3 1000%float] _ [4; 0]%nat [7; 8]%Z).
  - vm_compute. reflexivity.
  - cbn. lia.
  - repeat constructor; lia.
  - reflexivity.
Defined.

Lemma cluster_records_start_at_the_first_column_and_row_witness :
  Forall (fun h => 1 <= column h /\ 1 <= row h)%Z
    (records_of
       (_add_charge_sharing_hits (num := F64.number Reference.erf) (fun _ => (-24, -24)%float)
          10 10 100%float 50%float 50%float 300%float 50%float
          [Hit 1 1 1000%float; Hit 2 2 1000%float])).
Proof.
  apply (cluster_records_start_at_the_first_column_and_row (num := F64.number Reference.erf)
           (fun _ => (-24, -24)%float) 10 10 100%float 50%float 50%float 300%float 50%float
           [Hit 1 1 1000%float; Hit 2 2 1000%float] _ [1; 4]%nat).
  - vm_compute. reflexivity.
  - repeat constructor; cbn; lia.
Defined.

(** ** The clusters of an array of seeds, one by one *)

Lemma clusters_of_take {A} (counts : list nat) :
  forall (records : list A) (k : nat),
    (sum_list counts <= k)%nat ->
    clusters_of counts (take k records) = clusters_of counts records.
Proof.
  induction counts as [| n counts IH]; intros records k Hk; cbn [clusters_of]; [reflexivity |].
  change (sum_list (n :: counts)) with (n + sum_list counts)%nat in Hk. f_equal.
  - rewrite take_take. f_equal. lia.
  - rewrite <- (IH (drop n records) (k - n)%nat) by lia.
    f_equal. apply skipn_firstn_comm.
Qed.

Lemma concat_clusters_of {A} (counts : list nat) :
  forall records : list A,
    sum_list counts = length records -> concat (clusters_of counts records) = records.
Proof.
  induction counts as [| n counts IH]; intros records Hsum; cbn [clusters_of concat].
  - cbn in Hsum. symmetry in Hsum. now apply nil_length_inv in Hsum.
  - change (sum_list (n :: counts)) with (n + sum_list counts)%nat in Hsum.
    rewrite IH by (rewrite length_drop; lia). apply take_drop.
Qed.

Section Batch.

Context {F : Type} {num : Number F}.

Variables (relative_position : nat -> F * F) (max_column max_row : Z).
Variables (thickness pixel_size_x pixel_size_y temperature bias : F).

Lemma seed_loop_clusters (seeds : list (hit F)) :
  forall (actual_index : nat) (result_hits : list (hit F)) (result_index : nat)
         (counts : list nat) (result_hits' : list (hit F)) (result_index' : nat)
         (counts' : list nat),
    seed_loop relative_position max_column max_row thickness pixel_size_x pixel_size_y
      temperature bias actual_index seeds result_hits result_index counts
    = Ok (result_hits', result_index', counts') ->
    (actual_index + length seeds <= length counts)%nat ->
    exists ns : list nat,
      length ns = length seeds
      /\ counts' = take actual_index counts ++ ns ++ drop (actual_index + length seeds) counts
      /\ (forall j : nat, (j < result_index)%nat -> result_hits' !! j = result_hits !! j)
      /\ Forall2 (fun s cluster => Forall (before_the_end max_column max_row s) cluster)
                 seeds (clusters_of ns (drop result_index result_hits')).
Proof.
  induction seeds as [| s seeds IH]; intros i buf idx counts buf' idx' counts'; cbn [seed_loop].
  - intros [= <- <- <-] _. exists []. cbn.
    rewrite Nat.add_0_r, take_drop. split; [reflexivity |]. split; [reflexivity |].
    split; [now intros | constructor].
  - destruct (_create_charge_sharing_hits _ _ _ _ _ _ _ _ _ _ _ _ buf idx)
      as [[[buf1 idx1] n] | e |] eqn:Hone; cbn [rbind]; try discriminate.
    intros Hrest Hlen. cbn [length] in Hlen.
    apply create_charge_sharing_hits_stores in Hone as [(Hi & Hl & Hb & Hk & Hp) Hn].
    assert (Hlen1 : (S i + length seeds <= length (<[i := n]> counts))%nat).
    { rewrite length_insert. lia. }
    destruct (IH _ _ _ _ _ _ _ Hrest Hlen1) as (ns & Hns & Hcounts & Hkeep & Hall).
    exists (n :: ns). split; [cbn; lia |]. split; [| split].
    + rewrite Hcounts.
      assert (Hi' : (i < length counts)%nat) by lia.
      rewrite (take_S_r (<[i := n]> counts) i n) by (now apply list_lookup_insert_eq).
      rewrite take_insert_ge by lia.
      rewrite drop_insert_lt by lia.
      rewrite <- app_assoc. cbn [app].
      replace (S i + length seeds)%nat with (i + S (length seeds))%nat by lia. reflexivity.
    + intros j Hj. rewrite Hkeep by lia. apply Hk. lia.
    + cbn [clusters_of]. constructor.
      * apply Forall_lookup. intros m h Hm.
        apply lookup_take_Some in Hm as [Hm Hlt]. rewrite lookup_drop in Hm.
        rewrite Hkeep in Hm by lia.
        specialize (Hp (idx + m)%nat h ltac:(lia) Hm) as [Hc Hr].
        unfold before_the_end, reachable in *. lia.
      * rewrite drop_drop. replace (idx + n)%nat with idx1 by lia. exact Hall.
Qed.

(** The records [_add_charge_sharing_hits] returns are the clusters of its
seeds one after the other, the sizes being those it returns, and every
record of the cluster of a seed lies before [max_column] or before the
column of that seed, and likewise for rows. *)
Lemma clusters_stop_before_the_last_column_and_row
    (hits_digits records : list (hit F)) (counts : list nat) :
  _add_charge_sharing_hits relative_position max_column max_row thickness
    pixel_size_x pixel_size_y temperature bias hits_digits = Ok (records, counts) ->
  concat (clusters_of counts records) = records
  /\ Forall2 (fun s cluster => Forall (before_the_end max_column max_row s) cluster)
             hits_digits (clusters_of counts records).
Proof.
  intros Hrun.
  pose proof (cluster_sizes_add_up _ _ _ _ _ _ _ _ _ _ _ Hrun) as [_ Hsum].
  split; [now apply concat_clusters_of |].
  revert Hrun. unfold _add_charge_sharing_hits.
  destruct (seed_loop _ _ _ _ _ _ _ _ _ _ _ _ _) as [[[buf' idx'] counts'] | e |] eqn:Hloop;
    cbn [rbind]; try discriminate.
  intros [= <- <-].
  apply seed_loop_clusters in Hloop as (ns & Hns & Hcounts & _ & Hall);
    [| rewrite repeat_length; lia].
  rewrite take_0 in Hcounts. cbn [app Nat.add] in Hcounts.
  rewrite drop_ge in Hcounts by (rewrite repeat_length; lia).
  rewrite app_nil_r in Hcounts. subst counts'.
  rewrite drop_0 in Hall.
  rewrite clusters_of_take; [exact Hall |].
  rewrite Hsum, length_take. lia.
Qed.

End Batch.

(** Two seeds on a sensor of 10 x 10 pixels, the second behind the last
column: the cluster of the first stops in column 3, the cluster of the
second is the record in column 10. *)
Example clusters_of_a_seed_on_the_sensor_and_one_behind_it :
  match _add_charge_sharing_hits (num := F64.number Reference.erf) (fun _ => (-24, 0)%float)
          10 10 100%float 50%float 50%float 300%float 50%float
          [Hit 3 3 1000%float; Hit 11 3 1000%float] with
  | Ok (records, counts) =>
      map (map pixel_of) (clusters_of counts records) = [[(3, 3); (2, 3)]; [(10, 3)]]%Z
  | _ => False
  end.
Proof. vm_compute. reflexivity. Qed.

(** ** The seed pixel *)

Section SeedFirst.

Variable erf : float -> float.
Local Instance seed_first_number : Number float := F64.number erf.
Local Open Scope num_scope.

Variables (relative_position : float * float) (seed_column seed_row : Z) (seed_charge : float).
Variables (max_column max_row : Z).
Variables (thickness pixel_size_x pixel_size_y temperature bias : float).
Variable (digitization_sigma_cc : float).

Local Abbreviation fraction_at' :=
  (fraction_at relative_position seed_column seed_row thickness
     pixel_size_x pixel_size_y temperature bias digitization_sigma_cc).
Local Abbreviation row_loop' :=
  (row_loop relative_position seed_column seed_row seed_charge thickness
     pixel_size_x pixel_size_y temperature bias digitization_sigma_cc).
Local Abbreviation column_loop' :=
  (column_loop relative_position seed_column seed_row seed_charge max_row thickness
     pixel_size_x pixel_size_y temperature bias digitization_sigma_cc).


End SeedFirst.


(** ** A diffusion sigma of 0 never overruns the array *)

Section ZeroSigmaSafety.

Variable erf : float -> float.
Local Hint Extern 0 (Number float) => exact (zero_sigma_number erf) : typeclass_instances.
Local Open Scope num_scope.

Variables (relative_position : float * float) (seed_column seed_row : Z) (seed_charge : float).
Variables (max_column max_row : Z).
Variables (thickness pixel_size_x pixel_size_y temperature bias : float).
Variable (digitization_sigma_cc : float).

Local Abbreviation sigma_zero :=
  (sigma_is_zero erf thickness temperature bias digitization_sigma_cc).
Local Abbreviation row_loop' :=
  (row_loop relative_position seed_column seed_row seed_charge thickness
     pixel_size_x pixel_size_y temperature bias digitization_sigma_cc).
Local Abbreviation column_loop' :=
  (column_loop relative_position seed_column seed_row seed_charge max_row thickness
     pixel_size_x pixel_size_y temperature bias digitization_sigma_cc).

(** A row loop entered after at most one stored pixel stores at most one
more, the first of its range. *)
Lemma zero_sigma_row_loop_once (actual_column : Z) (rows : list Z) (k : nat)
    (st : search_state float) :
  sigma_zero -> (k <= 1)%nat ->
  total_fraction st = whole_pixels k ->
  (index st < length (result_hits st))%nat ->
  exists (st' : search_state float) (m : nat),
    row_loop' actual_column rows st = Ok st'
    /\ (m <= 1)%nat /\ (m = 0%nat -> st' = st)
    /\ total_fraction st' = whole_pixels (k + m)
    /\ length (result_hits st') = length (result_hits st)
    /\ index st' = (index st + m)%nat
    /\ n_hits st' = (n_hits st + m)%nat.
Proof.
  intros Hs Hk Htotal Hroom. destruct rows as [| actual_row rows].
  - exists st, 0%nat. rewrite !Nat.add_0_r. repeat split; try lia; auto.
  - eexists _, 1%nat. split.
    + apply zero_sigma_row_loop; [exact Hs | exact Hroom |].
      rewrite Htotal. destruct k as [| [| k]]; [reflexivity | reflexivity | lia].
    + cbn [total_fraction result_hits index n_hits]. rewrite length_insert.
      repeat split; try lia; try discriminate.
      rewrite Htotal. destruct k as [| [| k]]; [reflexivity | reflexivity | lia].
Qed.

Lemma whole_pixels_reached (k : nat) :
  (1 <= k)%nat -> (whole_pixels k >=? of_int 1 - min_fraction) = true.
Proof. intros Hk. destruct k as [| [| k]]; [lia | reflexivity | reflexivity]. Qed.

(** A column loop entered before any pixel was stored stores at most two. *)
Lemma zero_sigma_column_loop (columns : list Z) (st : search_state float) :
  sigma_zero ->
  total_fraction st = whole_pixels 0 ->
  (index st + 2 <= length (result_hits st))%nat ->
  exists (st' : search_state float) (m : nat),
    column_loop' columns st = Ok st'
    /\ (m <= 2)%nat
    /\ total_fraction st' = whole_pixels m
    /\ length (result_hits st') = length (result_hits st)
    /\ index st' = (index st + m)%nat
    /\ n_hits st' = (n_hits st + m)%nat.
Proof.
  intros Hs Htotal Hroom. induction columns as [| actual_column columns IH].
  - exists st, 0%nat. rewrite !Nat.add_0_r. repeat split; auto.
  - cbn [column_loop].
    rewrite (zero_sigma_fraction erf relative_position thickness pixel_size_x pixel_size_y
               temperature bias digitization_sigma_cc _ _ Hs).
    rewrite Htotal.
    change ((whole_pixels 0 >=? of_int 1 - min_fraction) || (of_int 1 <? min_fraction))
      with false.
    cbv iota.
    destruct (zero_sigma_row_loop_once actual_column (range seed_row max_row) 0 st
                Hs ltac:(lia) Htotal ltac:(lia))
      as (st1 & m1 & -> & Hm1 & E1 & Ht1 & Hl1 & Hi1 & Hn1).
    cbn [rbind].
    destruct (zero_sigma_row_loop_once actual_column (range_down (seed_row - 1) 0) (0 + m1) st1
                Hs ltac:(lia) Ht1 ltac:(lia))
      as (st2 & m2 & -> & Hm2 & E2 & Ht2 & Hl2 & Hi2 & Hn2).
    cbn [rbind].
    destruct (decide (m1 + m2 = 0)%nat) as [Hnone | Hsome].
    + assert (m1 = 0%nat) as -> by lia. assert (m2 = 0%nat) as -> by lia.
      rewrite (E2 eq_refl), (E1 eq_refl). exact IH.
    + exists st2, (m1 + m2)%nat.
      split; [| split; [lia |]; split; [exact Ht2 |]; split; [congruence |]; split; lia].
      apply column_loop_total_reached. rewrite Ht2.
      apply whole_pixels_reached. lia.
Qed.

(** One call with sigma = 0: it returns whenever the array has room for
two records, and stores at most two. *)
Lemma zero_sigma_call (result_hits0 : list (hit float)) (index0 : nat) :
  sigma_zero ->
  (index0 + 2 <= length result_hits0)%nat ->
  exists (result_hits1 : list (hit float)) (n : nat),
    _create_charge_sharing_hits relative_position seed_column seed_row seed_charge
      max_column max_row thickness pixel_size_x pixel_size_y temperature bias
      digitization_sigma_cc result_hits0 index0 = Ok (result_hits1, (index0 + n)%nat, n)
    /\ (n <= 2)%nat /\ length result_hits1 = length result_hits0.
Proof.
  intros Hs Hroom. unfold _create_charge_sharing_hits.
  set (st0 := {| total_fraction := of_int 0; result_hits := result_hits0;
                 index := index0; n_hits := 0 |}).
  destruct (zero_sigma_column_loop (range seed_column max_column) st0 Hs eq_refl Hroom)
    as (st1 & m1 & -> & Hm1 & Ht1 & Hl1 & Hi1 & Hn1).
  cbn [rbind].
  destruct (decide (m1 = 0%nat)) as [-> | Hsome].
  - assert (Hroom1 : (index st1 + 2 <= length (result_hits st1))%nat)
      by (rewrite Hl1, Hi1; cbn; lia).
    destruct (zero_sigma_column_loop (range_down (seed_column - 1) 0) st1 Hs Ht1 Hroom1)
      as (st2 & m2 & -> & Hm2 & Ht2 & Hl2 & Hi2 & Hn2).
    cbn [rbind]. exists (result_hits st2), m2.
    rewrite Hi2, Hi1, Hn2, Hn1, Hl2, Hl1. cbn [st0 index n_hits result_hits].
    rewrite !Nat.add_0_r. cbn [Nat.add]. repeat split; lia.
  - rewrite column_loop_total_reached
      by (rewrite Ht1; apply whole_pixels_reached; lia).
    cbn [rbind]. exists (result_hits st1), m1.
    rewrite Hi1, Hn1, Hl1. cbn [st0 index n_hits result_hits Nat.add]. repeat split; lia.
Qed.

End ZeroSigmaSafety.

(** The loop over the seeds, for sigma = 0: it returns when the array has
room for two records per seed. *)
Lemma zero_sigma_seed_loop (erf : float -> float) (relative_position : nat -> float * float)
    (max_column max_row : Z) (thickness pixel_size_x pixel_size_y temperature bias : float)
    (seeds : list (hit float)) :
  sigma_is_zero erf thickness temperature bias 1%float ->
  forall (actual_index : nat) (result_hits : list (hit float)) (result_index : nat)
         (counts : list nat),
    (result_index + 2 * length seeds <= length result_hits)%nat ->
    (actual_index + length seeds <= length counts)%nat ->
    exists (result_hits' : list (hit float)) (result_index' : nat) (counts' : list nat),
      seed_loop (num := F64.number erf) relative_position max_column max_row
        thickness pixel_size_x pixel_size_y temperature bias
        actual_index seeds result_hits result_index counts
      = Ok (result_hits', result_index', counts')
      /\ (result_index' <= result_index + 2 * length seeds)%nat
      /\ length result_hits' = length result_hits
      /\ length counts' = length counts
      /\ (forall j n : nat, counts' !! j = Some n -> counts !! j = Some n \/ (n <= 2)%nat).
Proof.
  intros Hs.
  induction seeds as [| s seeds IH]; intros i buf idx counts Hroom Hlen; cbn [seed_loop].
  - exists buf, idx, counts. split; [reflexivity |]. split; [lia |].
    split; [reflexivity |]. split; [reflexivity |]. intros j n Hj. now left.
  - cbn [length] in Hroom, Hlen.
    destruct (zero_sigma_call erf (relative_position i) (column s) (row s) (charge s)
                max_column max_row thickness pixel_size_x pixel_size_y temperature bias
                1%float buf idx Hs ltac:(lia))
      as (buf1 & n & Hcall & Hn & Hl1).
    unfold zero_sigma_number in Hcall.
    change (of_int 1) with 1%float. rewrite Hcall. cbn [rbind].
    destruct (IH (S i) buf1 (idx + n)%nat (<[i := n]> counts)
                ltac:(rewrite Hl1; lia) ltac:(rewrite length_insert; lia))
      as (buf' & idx' & counts' & -> & Hidx & Hl & Hc & Hcounts).
    exists buf', idx', counts'. rewrite length_insert in Hc.
    cbn [length].
    split; [reflexivity |]. split; [lia |]. split; [congruence |]. split; [exact Hc |].
    intros j m Hj. apply Hcounts in Hj as [Hj | Hj]; [| now right].
    destruct (decide (j = i)) as [-> | Hne].
    + rewrite list_lookup_insert_eq in Hj by lia. injection Hj as <-. now right.
    + rewrite list_lookup_insert_ne in Hj by congruence. now left.
Qed.

(** X11.  With a diffusion sigma of 0, [_add_charge_sharing_hits] returns
for every list of seeds: no store falls outside the result array, and a
seed gets at most two records. *)
Theorem zero_sigma_never_overruns_the_result_array
    (erf : float -> float) (relative_position : nat -> float * float)
    (max_column max_row : Z) (thickness pixel_size_x pixel_size_y temperature bias : float)
    (hits_digits : list (hit float)) :
  sigma_is_zero erf thickness temperature bias 1%float ->
  exists (records : list (hit float)) (counts : list nat),
    _add_charge_sharing_hits (num := F64.number erf) relative_position max_column max_row
      thickness pixel_size_x pixel_size_y temperature bias hits_digits
    = Ok (records, counts)
    /\ Forall (fun n => (n <= 2)%nat) counts
    /\ (length records <= 2 * length hits_digits)%nat.
Proof.
  intros Hs. unfold _add_charge_sharing_hits.
  destruct (zero_sigma_seed_loop erf relative_position max_column max_row thickness
              pixel_size_x pixel_size_y temperature bias hits_digits Hs 0%nat
              (repeat (zero_hit (num := F64.number erf)) (5 * length hits_digits)) 0%nat
              (repeat 0%nat (length hits_digits))
              ltac:(rewrite repeat_length; lia) ltac:(rewrite repeat_length; lia))
    as (buf' & idx' & counts' & -> & Hidx & Hl & Hc & Hcounts).
  cbn [rbind]. eexists _, _. split; [reflexivity |]. split.
  - apply Forall_lookup. intros j n Hj. apply Hcounts in Hj as [Hj | Hj]; [| exact Hj].
    apply list_elem_of_lookup_2, list_elem_of_In, repeat_spec in Hj. lia.
  - rewrite length_take. lia.
Qed.

Lemma zero_sigma_never_overruns_the_result_array_witness :
  exists (records : list (hit float)) (counts : list nat),
    _add_charge_sharing_hits (num := F64.number Reference.erf) (fun _ => (0, 0)%float) 10 10
      0%float 50%float 50%float 300%float 50%float
      [Hit 3 3 1000%float; Hit 10 1 1000%float; Hit 11 3 5%float]
    = Ok (records, counts)
    /\ Forall (fun n => (n <= 2)%nat) counts
    /\ (length records
        <= 2 * length [Hit 3 3 1000%float; Hit 10 1 1000%float; Hit 11 3 5%float])%nat.
Proof.
  apply (zero_sigma_never_overruns_the_result_array Reference.erf (fun _ => (0, 0)%float)
           10 10 0%float 50%float 50%float 300%float 50%float
           [Hit 3 3 1000%float; Hit 10 1 1000%float; Hit 11 3 5%float]).
  reflexivity.
Defined.

(** ** The charge fraction on the reals *)

Lemma ramp_monotone (x y : R) : (x <= y)%R -> (ramp x <= ramp y)%R.
Proof. intros Hxy. apply Rle_max_compat_l, Rle_min_compat_l, Hxy. Qed.

Lemma ramp_bounded (x : R) : (-1 <= ramp x <= 1)%R.
Proof. split; [apply Rmax_l |]. apply Rmax_lub; [lra | apply Rmin_l]. Qed.

Section FractionFacts.

Local Open Scope R_scope.

Variable erf : R -> R.
Hypothesis erf_monotone : forall x y : R, x <= y -> erf x <= erf y.
Hypothesis erf_bounded : forall x : R, -1 <= erf x <= 1.

(** X1.  On the reals, for a positive bias, a temperature that is not
negative (where the square root and the division of the diffusion sigma
are those of the program), pixel pitches that are not negative and an
[erf] that is monotone with values in [-1, 1], the charge fraction
[_calc_charge_fraction] returns lies between 0 and 1, whatever the pixel
and the position. *)
Theorem charge_fraction_lies_between_0_and_1
    (position : R * R) (position_z : R) (pixel_index_x pixel_index_y : Z)
    (pixel_size_x pixel_size_y temperature bias digitization_sigma_cc : R) :
  0 < bias -> 0 <= temperature ->
  0 <= pixel_size_x -> 0 <= pixel_size_y ->
  0 <= _calc_charge_fraction (num := Real.number erf) position position_z
         pixel_index_x pixel_index_y pixel_size_x pixel_size_y
         temperature bias digitization_sigma_cc <= 1.
Proof using erf_monotone erf_bounded.
  intros _ _ Hx Hy. unfold _calc_charge_fraction.
  cbn [nadd nsub nmul ndiv nsqrt nerf neqb of_int boltzman_constant Real.number].
  set (sigma := _calc_sigma_diffusion _ _ _ * _).
  unfold Real.eqb. destruct (Req_dec_T sigma 0) as [_ | Hs]; [lra |].
  unfold _bivariante_normal_cdf_limits.
  cbn [nadd nsub nmul ndiv nsqrt nerf of_int Real.number].
  set (d := sqrt (2 * (sigma * sigma))).
  assert (Hd : 0 < d).
  { apply sqrt_lt_R0. assert (0 < sigma * sigma) by nra. lra. }
  assert (Hinv : 0 < / d) by (now apply Rinv_0_lt_compat).
  assert (Hdiff : forall a1 a2 mu : R, a1 <= a2 ->
             0 <= erf ((a2 - mu) / d) - erf ((a1 - mu) / d) <= 2).
  { intros a1 a2 mu Ha.
    assert (H12 : (a1 - mu) / d <= (a2 - mu) / d)
      by (unfold Rdiv; apply Rmult_le_compat_r; lra).
    pose proof (erf_monotone _ _ H12).
    pose proof (erf_bounded ((a2 - mu) / d)). pose proof (erf_bounded ((a1 - mu) / d)).
    lra. }
  pose proof (Hdiff (pixel_size_x * (IZR pixel_index_x - 1 / 2))
                (pixel_size_x * (IZR pixel_index_x + 1 / 2)) (fst position)
                ltac:(nra)) as Dx.
  pose proof (Hdiff (pixel_size_y * (IZR pixel_index_y - 1 / 2))
                (pixel_size_y * (IZR pixel_index_y + 1 / 2)) (snd position)
                ltac:(nra)) as Dy.
  nra.
Qed.

End FractionFacts.

Lemma charge_fraction_lies_between_0_and_1_witness :
  (0 <= _calc_charge_fraction (num := Real.number ramp) (10, -10)%R 50%R 1 0 50%R 50%R
          300%R 50%R 1%R <= 1)%R.
Proof.
  apply (charge_fraction_lies_between_0_and_1 ramp ramp_monotone ramp_bounded
           (10, -10)%R 50%R 1 0 50%R 50%R 300%R 50%R 1%R); lra.
Defined.

(** X3.  On the reals, for a positive bias and a temperature that is not
negative, the sigma [_calc_charge_fraction] computes is 0, and the pixel
is given the fraction 1 without any integral, exactly when the thickness,
the temperature or the correction factor is 0. *)
Theorem sigma_vanishes_with_thickness_temperature_or_factor
    (erf : R -> R) (thickness temperature bias digitization_sigma_cc : R) :
  (0 < bias)%R -> (0 <= temperature)%R ->
  (_calc_sigma_diffusion (num := Real.number erf)
     (position_z (num := Real.number erf) thickness) temperature bias
   * digitization_sigma_cc = 0)%R
  <-> thickness = 0%R \/ temperature = 0%R \/ digitization_sigma_cc = 0%R.
Proof.
  intros Hb Ht. unfold _calc_sigma_diffusion, position_z.
  cbn [nadd nsub nmul ndiv nsqrt of_int boltzman_constant Real.number].
  set (x := (2 * temperature / bias * (86173324 / 1000000000000))%R).
  assert (Hinv : (0 < / bias)%R) by (now apply Rinv_0_lt_compat).
  assert (Hx : (0 <= x)%R) by (unfold x, Rdiv; nra).
  split.
  - intros H.
    apply Rmult_integral in H as [H | H]; [| now right; right].
    apply Rmult_integral in H as [H | H]; [left; lra |].
    right; left. apply sqrt_eq_0 in H; [| exact Hx]. unfold x, Rdiv in H. nra.
  - intros [-> | [-> | ->]].
    + lra.
    + unfold x. replace (2 * 0 / bias * (86173324 / 1000000000000))%R with 0%R
        by (unfold Rdiv; lra).
      rewrite sqrt_0. lra.
    + lra.
Qed.

Lemma sigma_vanishes_with_thickness_temperature_or_factor_witness :
  (_calc_sigma_diffusion (num := Real.number Real.erf)
     (position_z (num := Real.number Real.erf) 0%R) 300%R 50%R * 1 = 0)%R
  <-> 0%R = 0%R \/ 300%R = 0%R \/ 1%R = 0%R.
Proof.
  apply (sigma_vanishes_with_thickness_temperature_or_factor Real.erf 0%R 300%R 50%R 1%R); lra.
Defined.

(** ** The tracks [_create_tracks] returns *)

Lemma assign_where_length (mask : float -> bool) (a : list float) :
  forall values : list float, length (assign_where mask a values) = length a.
Proof.
  induction a as [| x a IH]; intros values; cbn [assign_where]; [reflexivity |].
  destruct (mask x); [destruct values as [| v values] |]; cbn [length]; now rewrite IH.
Qed.

Lemma existsb_false_Forall {A} (test : A -> bool) (l : list A) :
  existsb test l = false -> Forall (fun x => test x = false) l.
Proof.
  induction l as [| x l IH]; cbn [existsb]; [constructor |].
  intros H. apply orb_false_iff in H as [Hx Hl]. constructor; [exact Hx | exact (IH Hl)].
Qed.

Section TrackFacts.

Variables (source : entropy) (self : settings).

(** The [while] loop keeps the number of angles, and the angles it
returns pass its test. *)
Lemma cut_down_returns (fuel : nat) :
  forall (track_angles_theta : list float) (g g' : generator) (cut : list float),
    cut_down source self fuel track_angles_theta g = (g', Ok cut) ->
    length cut = length track_angles_theta /\ Forall within_the_cut cut.
Proof.
  assert (Hexit : forall theta : list float,
             existsb (fun t => pi <? t) theta || existsb (fun t => t <? 0) theta = false ->
             Forall within_the_cut theta).
  { intros theta Htest. apply orb_false_iff in Htest as [Hhigh Hlow].
    apply existsb_false_Forall in Hhigh, Hlow.
    rewrite Forall_forall in Hhigh, Hlow. apply Forall_forall.
    intros t Ht. split; [exact (Hhigh t Ht) | exact (Hlow t Ht)]. }
  induction fuel as [| fuel IH]; intros theta g g' cut; cbn [cut_down];
    destruct (existsb _ theta || existsb _ theta) eqn:Htest.
  - discriminate.
  - intros H. apply ret_Ok in H as [<- _]. split; [reflexivity | exact (Hexit _ Htest)].
  - intros H.
    apply bind_Ok in H as (high & g1 & _ & H).
    apply bind_Ok in H as (low & g2 & _ & H).
    apply IH in H as [Hlen Hcut]. rewrite !assign_where_length in Hlen. now split.
  - intros H. apply ret_Ok in H as [<- _]. split; [reflexivity | exact (Hexit _ Htest)].
Qed.

Lemma np_random_random_length (size : nat) (g g' : generator) (values : list float) :
  np_random_random source size g = (g', Ok values) -> length values = size.
Proof.
  unfold np_random_random. intros H.
  apply bind_Ok in H as (c & g1 & _ & H). apply ret_Ok in H as [<- _].
  now rewrite length_map, length_seq.
Qed.

Lemma create_tracks_returns (fuel : nat) (n_tracks : Z) (g g' : generator)
    (track_positions_x track_positions_y track_angles_phi track_angles_theta : list float) :
  _create_tracks source self fuel n_tracks g
  = (g', Ok (track_positions_x, track_positions_y, track_angles_phi, track_angles_theta)) ->
  length track_positions_x = Z.to_nat n_tracks
  /\ length track_positions_y = Z.to_nat n_tracks
  /\ length track_angles_phi = Z.to_nat n_tracks
  /\ length track_angles_theta = Z.to_nat n_tracks
  /\ Forall within_the_cut track_angles_theta.
Proof.
  unfold _create_tracks. destruct (_ || _); [discriminate |]. intros H.
  apply bind_Ok in H as (xs & g1 & Hxs & H).
  apply bind_Ok in H as (ys & g2 & Hys & H).
  apply bind_Ok in H as (t0 & g3 & Ht0 & H).
  apply bind_Ok in H as (t & g4 & Ht & H).
  apply bind_Ok in H as (u & g5 & Hu & H).
  apply ret_Ok in H as [[= <- <- <- <-] _].
  apply cut_down_returns in Ht as [Hlen Hcut].
  apply np_random_random_length in Hu.
  assert (Hx : length xs = Z.to_nat n_tracks).
  { destruct (negb (fst (beam_position_sigma self) =? 0));
      [exact (np_random_normal_length _ _ _ _ _ _ _ Hxs) |].
    apply ret_Ok in Hxs as [<- _]. apply repeat_length. }
  assert (Hy : length ys = Z.to_nat n_tracks).
  { destruct (negb (snd (beam_position_sigma self) =? 0));
      [exact (np_random_normal_length _ _ _ _ _ _ _ Hys) |].
    apply ret_Ok in Hys as [<- _]. apply repeat_length. }
  assert (H0 : length t0 = Z.to_nat n_tracks).
  { destruct (negb (beam_angle_sigma self =? 0)).
    - apply bind_Ok in Ht0 as (t1 & g6 & Ht1 & Ht0). apply ret_Ok in Ht0 as [<- _].
      rewrite length_map. exact (np_random_normal_length _ _ _ _ _ _ _ Ht1).
    - apply ret_Ok in Ht0 as [<- _]. apply repeat_length. }
  rewrite length_map. repeat split; try assumption; congruence.
Qed.

(** X12.  The four arrays [_create_tracks] returns, positions in x and
in y, azimuths and polar angles, have [n_tracks] entries each: the cut on
the polar angle redraws angles in place and drops no track. *)
Theorem tracks_number_as_many_as_asked_for (fuel : nat) (n_tracks : Z) (g g' : generator)
    (track_positions_x track_positions_y track_angles_phi track_angles_theta : list float) :
  _create_tracks source self fuel n_tracks g
  = (g', Ok (track_positions_x, track_positions_y, track_angles_phi, track_angles_theta)) ->
  length track_positions_x = Z.to_nat n_tracks
  /\ length track_positions_y = Z.to_nat n_tracks
  /\ length track_angles_phi = Z.to_nat n_tracks
  /\ length track_angles_theta = Z.to_nat n_tracks.
Proof.
  intros H. apply create_tracks_returns in H as (Hx & Hy & Hp & Ht & _). now repeat split.
Qed.

(** X13.  Every polar angle [_create_tracks] returns has passed the test
of its [while] loop: it is neither above pi nor below 0, as binary64
comparisons (which a NaN passes as well). *)
Theorem polar_angles_pass_the_cut (fuel : nat) (n_tracks : Z) (g g' : generator)
    (track_positions_x track_positions_y track_angles_phi track_angles_theta : list float) :
  _create_tracks source self fuel n_tracks g
  = (g', Ok (track_positions_x, track_positions_y, track_angles_phi, track_angles_theta)) ->
  Forall within_the_cut track_angles_theta.
Proof.
  intros H. now apply create_tracks_returns in H as (_ & _ & _ & _ & Hcut).
Qed.

End TrackFacts.

Lemma tracks_number_as_many_as_asked_for_witness :
  length [0; 0; 0] = Z.to_nat 3
  /\ length [0; 0; 0] = Z.to_nat 3
  /\ length [0; 0; 0] = Z.to_nat 3
  /\ length [0; 0; 0] = Z.to_nat 3.
Proof.
  apply (tracks_number_as_many_as_asked_for calm std_settings 0 3 seeded
           (fst (_create_tracks calm std_settings 0 3 seeded))
           [0; 0; 0] [0; 0; 0] [0; 0; 0] [0; 0; 0]).
  vm_compute. reflexivity.
Defined.

Lemma polar_angles_pass_the_cut_witness :
  Forall within_the_cut [3; 3].
Proof.
  apply (polar_angles_pass_the_cut calm (with_beam (2000, 2000) 3000 0 std_settings) 0 2
           seeded
           (fst (_create_tracks calm (with_beam (2000, 2000) 3000 0 std_settings) 0 2 seeded))
           [0; 0] [0; 0] [0; 0] [3; 3]).
  vm_compute. reflexivity.
Defined.

Lemma track_positions_share_the_sigma_of_x_witness :
  [2000; 2000]
  = map (fun i => fst (beam_position (with_beam (2000, 500) 0 0 std_settings))
                  + fst (beam_position_sigma (with_beam (2000, 500) 0 0 std_settings))
                    * std_normal brisk (cursor seeded + i))
        (seq 0 (Z.to_nat 2))
  /\ [2000; 2000]
     = map (fun i => snd (beam_position (with_beam (2000, 500) 0 0 std_settings))
                     + fst (beam_position_sigma (with_beam (2000, 500) 0 0 std_settings))
                       * std_normal brisk (cursor seeded + Z.to_nat 2 + i))
           (seq 0 (Z.to_nat 2)).
Proof.
  apply (track_positions_share_the_sigma_of_x brisk (with_beam (2000, 500) 0 0 std_settings)
           0 2 seeded
           (fst (_create_tracks brisk (with_beam (2000, 500) 0 0 std_settings) 0 2 seeded))
           [2000; 2000] [2000; 2000] [0; 0] [0; 0]).
  - vm_compute. reflexivity.
  - reflexivity.
  - reflexivity.
Defined.

Lemma assign_where_Exists (P : float -> Prop) (mask : float -> bool) (a : list float) :
  forall values : list float,
    Forall P values -> Exists P a -> Exists P (assign_where mask a values).
Proof.
  induction a as [| x a IH]; intros values Hv Ha; [inversion Ha |].
  cbn [assign_where]. destruct (mask x).
  - destruct values as [| v values].
    + apply Exists_cons in Ha as [Hx | Ha]; [now left | right; now apply IH].
    + apply Forall_cons in Hv as [Hv0 Hv].
      apply Exists_cons in Ha as [Hx | Ha]; [now left | right; now apply IH].
  - apply Exists_cons in Ha as [Hx | Ha]; [now left | right; now apply IH].
Qed.

Lemma Exists_existsb {A} (test : A -> bool) (l : list A) :
  Exists (fun x => test x = true) l -> existsb test l = true.
Proof.
  induction 1 as [x l Hx | x l _ IH]; cbn [existsb]; [now rewrite Hx |].
  rewrite IH. apply orb_true_r.
Qed.

(** X14.  The [while] loop of [_create_tracks] redraws the polar angles
it turns down with [beam_angle] and [beam_angle_sigma] as they stand (in
mrad, where the first draw divides both by 1000).  When every such redraw
lands above pi, the loop, once entered for an angle above pi, never ends:
whatever the number of turns allowed, it is still running. *)
Theorem cut_never_ends_when_the_redraws_stay_above_pi
    (source : entropy) (self : settings) (track_angles_theta : list float) :
  (beam_angle_sigma self <? 0) = false ->
  redraws_stay_above_pi source self ->
  Exists (fun t => (pi <? t) = true) track_angles_theta ->
  forall (fuel : nat) (g : generator),
    snd (cut_down source self fuel track_angles_theta g) = Running.
Proof.
  intros Hsigma Hredraw Hhigh fuel. revert track_angles_theta Hhigh.
  assert (Hdraw : forall (size : Z) (g : generator),
             exists (values : list float) (g' : generator),
               np_random_normal source (beam_angle self) (beam_angle_sigma self)
                 (Z.of_nat (Z.to_nat size)) g = (g', Ok values)
               /\ Forall (fun t => (pi <? t) = true) values).
  { intros size g. unfold np_random_normal, bind, consume, ret.
    destruct (Z.ltb_spec (Z.of_nat (Z.to_nat size)) 0) as [? | _]; [lia |].
    rewrite Hsigma. cbn [orb]. eexists _, _. split; [reflexivity |].
    apply Forall_forall. intros t Ht.
    apply list_elem_of_fmap in Ht as (i & -> & _). apply Hredraw. }
  induction fuel as [| fuel IH]; intros theta Hhigh g; cbn [cut_down];
    pose proof (Exists_existsb (fun t => pi <? t) theta Hhigh) as Htest;
    rewrite Htest; cbn [orb]; [reflexivity |].
  set (n1 := length (filter (fun t => (pi <? t) = true) theta)).
  destruct (Hdraw (Z.of_nat n1) g) as (high & g1 & E1 & Hv1).
  rewrite Nat2Z.id in E1. unfold bind at 1. rewrite E1.
  set (theta1 := assign_where (fun t => pi <? t) theta high).
  set (n2 := length (filter (fun t => (t <? 0) = true) theta1)).
  destruct (Hdraw (Z.of_nat n2) g1) as (low & g2 & E2 & Hv2).
  rewrite Nat2Z.id in E2. unfold bind at 1. rewrite E2.
  apply IH. apply assign_where_Exists; [exact Hv2 |].
  apply assign_where_Exists; [exact Hv1 | exact Hhigh].
Qed.

Lemma cut_never_ends_when_the_redraws_stay_above_pi_witness :
  snd (cut_down brisk (with_beam (2000, 2000) 3000 200 std_settings) 5 [3.2; 3] seeded)
  = Running.
Proof.
  apply (cut_never_ends_when_the_redraws_stay_above_pi brisk
           (with_beam (2000, 2000) 3000 200 std_settings) [3.2; 3]).
  - reflexivity.
  - intros i. reflexivity.
  - left. reflexivity.
Defined.

(** ** Hits and event numbers go together *)

Lemma select_length {A B} (selection : list bool) :
  forall (a : list A) (b : list B),
    length a = length b -> length (select selection a) = length (select selection b).
Proof.
  induction selection as [| s selection IH]; intros a b Hlen; [reflexivity |].
  destruct a as [| x a], b as [| y b]; try discriminate.
  - now rewrite !select_nil_r.
  - rewrite !select_cons. injection Hlen as Hlen.
    destruct s; cbn [length]; now rewrite (IH a b Hlen).
Qed.

Lemma to_seeds_length (ds : list digit) :
  forall seeds : list (hit float), to_seeds ds = Ok seeds -> length seeds = length ds.
Proof.
  induction ds as [| d ds IH]; intros seeds; cbn [to_seeds].
  - now intros [= <-].
  - destruct (to_seed d) as [h | e |]; cbn [rbind]; try discriminate.
    destruct (to_seeds ds) as [hs | e |]; cbn [rbind]; try discriminate.
    intros [= <-]. cbn [length]. now rewrite (IH hs eq_refl).
Qed.

Lemma sum_to_nat (l : list Z) :
  Forall (fun z => 0 <= z)%Z l ->
  sum_list (map Z.to_nat l) = Z.to_nat (fold_right Z.add 0%Z l).
Proof.
  induction 1 as [| z l Hz Hl IH]; cbn; [reflexivity |].
  rewrite IH. assert (0 <= fold_right Z.add 0 l)%Z.
  { clear IH. induction Hl; cbn; lia. }
  lia.
Qed.

Lemma range_length (start stop : Z) : length (range start stop) = Z.to_nat (stop - start).
Proof. unfold range. now rewrite length_map, length_seq. Qed.


(** *** Lists in increasing order *)

Lemma StronglySorted_sublist {A} (R : A -> A -> Prop) (l1 l2 : list A) :
  l1 `sublist_of` l2 -> StronglySorted R l2 -> StronglySorted R l1.
Proof.
  induction 1 as [| x l1 l2 Hsub IH | x l1 l2 Hsub IH]; intros Hs.
  - constructor.
  - apply StronglySorted_inv in Hs as [Hs Hx]. constructor; [exact (IH Hs) |].
    rewrite Forall_forall in Hx. apply Forall_forall.
    intros y Hy. apply Hx. eapply elem_of_sublist; eassumption.
  - apply StronglySorted_inv in Hs as [Hs _]. exact (IH Hs).
Qed.

Lemma sorted_app (l1 l2 : list Z) :
  StronglySorted Z.le l1 -> StronglySorted Z.le l2 ->
  (forall x y : Z, x ∈ l1 -> y ∈ l2 -> (x <= y)%Z) ->
  StronglySorted Z.le (l1 ++ l2).
Proof.
  intros H1 H2 H12. induction H1 as [| x l1 Hs IH Hx]; cbn [app]; [exact H2 |].
  constructor.
  - apply IH. intros a b Ha Hb. apply H12; [now right | exact Hb].
  - apply Forall_app. split; [exact Hx |].
    apply Forall_forall. intros y Hy. apply H12; [left | exact Hy].
Qed.

Lemma shifted_sorted (l : list Z) (d : Z) :
  StronglySorted Z.le l -> StronglySorted Z.le (map (fun e => (e + d)%Z) l).
Proof.
  induction 1 as [| z l Hs IH Hz]; cbn [map]; constructor; [exact IH |].
  rewrite Forall_forall in Hz. apply Forall_forall. intros y Hy.
  apply list_elem_of_fmap in Hy as (y0 & -> & Hy). apply Hz in Hy. lia.
Qed.

Lemma range_sorted (start stop : Z) : StronglySorted Z.le (range start stop).
Proof.
  unfold range. generalize (Z.to_nat (stop - start)) as n. intros n. revert start.
  induction n as [| n IH]; intros start; cbn [seq map]; [constructor |].
  rewrite <- seq_shift, map_map.
  constructor.
  - erewrite map_ext; [apply (IH (start + 1)%Z) |]. intros i. cbn beta. lia.
  - apply Forall_forall. intros z Hz. apply list_elem_of_fmap in Hz as (i & -> & _). lia.
Qed.

Lemma np_repeat_elem_of {A} (a : list A) (repeats : list nat) (x : A) :
  x ∈ np_repeat a repeats -> x ∈ a.
Proof.
  unfold np_repeat. revert repeats.
  induction a as [| y a IH]; intros [| n repeats]; cbn; try (intros H; now inversion H).
  intros H. apply elem_of_app in H as [H | H].
  - apply list_elem_of_In, repeat_spec in H as ->. left.
  - right. exact (IH _ H).
Qed.

Lemma np_repeat_sorted (a : list Z) :
  forall repeats : list nat,
    StronglySorted Z.le a -> StronglySorted Z.le (np_repeat a repeats).
Proof.
  unfold np_repeat.
  induction a as [| y a IH]; intros [| n repeats] Hs; cbn; try constructor.
  apply StronglySorted_inv in Hs as [Hs Hy].
  induction n as [| n IHn]; cbn [repeat app]; [exact (IH _ Hs) |].
  constructor; [exact IHn |].
  apply Forall_forall. intros z Hz.
  apply elem_of_app in Hz as [Hz | Hz].
  - apply list_elem_of_In, repeat_spec in Hz as ->. lia.
  - apply (np_repeat_elem_of a repeats) in Hz.
    rewrite Forall_forall in Hy. now apply Hy.
Qed.

Section AlignmentFacts.

Variables (erf : float -> float) (source : entropy) (stray : float) (self : settings).
Variable dut : plane.

Lemma get_charge_deposited_length (n_entries : nat) (g g' : generator)
    (deposited : list float) :
  _get_charge_deposited source dut n_entries g = (g', Ok deposited) ->
  length deposited = n_entries.
Proof.
  unfold _get_charge_deposited, np_random_choice. intros H.
  apply bind_Ok in H as (c & g1 & _ & H). apply ret_Ok in H as [<- _].
  now rewrite length_map, length_seq.
Qed.

Lemma discretized_length (dut_hits : list (float * float)) (deposited : list float) :
  length deposited = length dut_hits ->
  length (discretized dut dut_hits deposited) = length dut_hits.
Proof.
  intros H. unfold discretized. rewrite length_map, length_combine, length_map. lia.
Qed.

Lemma clustered_aligned (dut_hits : list (float * float)) (dut_hits_digits : list digit)
    (event_number : list Z) (g g' : generator) (a : list digit * list Z) :
  clustered erf stray self dut dut_hits dut_hits_digits event_number g = (g', Ok a) ->
  length dut_hits_digits = length event_number ->
  aligned a.
Proof.
  unfold clustered, aligned. destruct (digitization_charge_sharing self).
  - intros H Hlen.
    apply bind_Ok in H as (seeds & g1 & Hseeds & H).
    apply bind_Ok in H as ([records counts] & g2 & Hr & H).
    apply ret_Ok in H as [<- _]. cbn [fst snd].
    apply lift_Ok in Hseeds as [Hseeds _]. apply lift_Ok in Hr as [Hr _].
    apply to_seeds_length in Hseeds.
    apply cluster_sizes_add_up in Hr as [Hc Hs].
    rewrite length_map, np_repeat_length by congruence. now symmetry.
  - intros H Hlen. apply ret_Ok in H as [<- _]. exact Hlen.
Qed.

Lemma mask_outside_aligned (a : list digit * list Z) :
  aligned a -> aligned (mask_outside dut a).
Proof. unfold aligned, mask_outside. cbn [fst snd]. apply select_length. Qed.

Lemma mask_inefficient_aligned (a b : list digit * list Z) (g g' : generator) :
  mask_inefficient source dut a g = (g', Ok b) -> aligned a -> aligned b.
Proof.
  unfold mask_inefficient, aligned. intros H Ha.
  apply bind_Ok in H as (hit_indices & g1 & _ & H).
  apply bind_Ok in H as (k & g2 & _ & H).
  apply ret_Ok in H as [<- _]. cbn [fst snd]. now apply select_length.
Qed.

Lemma add_noise_aligned (a b : list digit * list Z) (g g' : generator) :
  add_noise source self dut a g = (g', Ok b) -> aligned a -> aligned b.
Proof.
  unfold add_noise, aligned. intros H Ha.
  apply bind_Ok in H as (noise & g1 & Hn & H).
  apply ret_Ok in H as [<- _]. cbn [fst snd].
  apply np_random_normal_length in Hn.
  rewrite length_map, length_combine. lia.
Qed.

Lemma delete_below_threshold_aligned (a : list digit * list Z) :
  aligned a -> aligned (delete_below_threshold self dut a).
Proof. unfold aligned, delete_below_threshold. cbn [fst snd]. apply select_length. Qed.

(** One device: given one event number per hit, the arrays returned hold
one event number per record. *)
Lemma digitize_dut_aligned (event_number : list Z) (dut_hits : list (float * float))
    (g g' : generator) (events : list Z) (digits : list digit) :
  digitize_dut erf source stray self event_number dut dut_hits g = (g', Ok (events, digits)) ->
  length dut_hits = length event_number ->
  length events = length digits.
Proof.
  unfold digitize_dut. intros H Hlen.
  apply bind_Ok in H as (deposited & g1 & Hdep & H).
  apply bind_Ok in H as (a & g2 & Ha & H).
  apply bind_Ok in H as (b & g3 & Hb & H).
  apply bind_Ok in H as (c & g4 & Hc & H).
  apply ret_Ok in H as [[= <- <-] _].
  apply get_charge_deposited_length in Hdep. rewrite length_map in Hdep.
  apply clustered_aligned in Ha;
    [| rewrite discretized_length; rewrite ?length_map; [exact Hlen | exact Hdep]].
  symmetry. apply delete_below_threshold_aligned.
  eapply add_noise_aligned; [exact Hc |].
  eapply mask_inefficient_aligned; [exact Hb |].
  apply mask_outside_aligned, Ha.
Qed.

(** The event numbers of a device come, in order, from the event numbers
given: repeated once per record of a cluster, then thinned out by the
mask, the inefficiency and the threshold. *)
Lemma digitize_dut_events (event_number : list Z) (dut_hits : list (float * float))
    (g g' : generator) (events : list Z) (digits : list digit) :
  digitize_dut erf source stray self event_number dut dut_hits g = (g', Ok (events, digits)) ->
  exists repeated : list Z,
    events `sublist_of` repeated
    /\ (forall e : Z, e ∈ repeated -> e ∈ event_number)
    /\ (StronglySorted Z.le event_number -> StronglySorted Z.le repeated).
Proof.
  unfold digitize_dut. intros H.
  apply bind_Ok in H as (deposited & g1 & _ & H).
  apply bind_Ok in H as (a & g2 & Ha & H).
  apply bind_Ok in H as (b & g3 & Hb & H).
  apply bind_Ok in H as (c & g4 & Hc & H).
  apply ret_Ok in H as [[= <- _] _].
  exists (snd a). split; [| unfold clustered in Ha; destruct (digitization_charge_sharing self)].
  - transitivity (snd c); [apply select_sublist |].
    unfold add_noise in Hc. apply bind_Ok in Hc as (noise & g5 & _ & Hc).
    apply ret_Ok in Hc as [<- _]. cbn [snd].
    unfold mask_inefficient in Hb.
    apply bind_Ok in Hb as (hit_indices & g6 & _ & Hb).
    apply bind_Ok in Hb as (k & g7 & _ & Hb).
    apply ret_Ok in Hb as [<- _]. cbn [snd].
    transitivity (snd (mask_outside dut a)); apply select_sublist.
  - apply bind_Ok in Ha as (seeds & g5 & _ & Ha).
    apply bind_Ok in Ha as (r & g6 & _ & Ha).
    apply ret_Ok in Ha as [<- _]. cbn [snd].
    split; [intros e; apply np_repeat_elem_of | apply np_repeat_sorted].
  - apply ret_Ok in Ha as [<- _]. cbn [snd]. split; auto.
Qed.

Lemma digitize_dut_chunk_events (start_event_number n_events : Z)
    (event_number : list Z) (dut_hits : list (float * float))
    (g g' : generator) (events : list Z) (digits : list digit) :
  chunk_events start_event_number n_events event_number ->
  digitize_dut erf source stray self event_number dut dut_hits g = (g', Ok (events, digits)) ->
  chunk_events start_event_number n_events events.
Proof.
  intros [Hs Hr] Hrun.
  apply digitize_dut_events in Hrun as (repeated & Hsub & Hin & Hsorted).
  split.
  - eapply StronglySorted_sublist; [exact Hsub | exact (Hsorted Hs)].
  - rewrite Forall_forall in Hr. apply Forall_forall. intros e He.
    apply Hr, Hin. eapply elem_of_sublist; eassumption.
Qed.

End AlignmentFacts.


Section LoopFacts.

Variables (erf cos sin : float -> float) (source : entropy) (stray : float) (self : settings).
Variable event_number : list Z.

(** What holds of the hits given for a device, and what then holds of the
arrays returned for it. *)
Variable Pre : list (float * float) -> Prop.
Variable Post : plane -> list Z -> list digit -> Prop.

Hypothesis digitize_dut_Post :
  forall (dut : plane) (dut_hits : list (float * float)) (g g' : generator)
         (events : list Z) (digits : list digit),
    digitize_dut erf source stray self event_number dut dut_hits g = (g', Ok (events, digits)) ->
    Pre dut_hits -> Post dut events digits.

Lemma digitize_loop_each (todo : list (plane * list (float * float))) :
  forall (g g' : generator) (per_dut : list (list Z * list digit)),
    digitize_loop erf source stray self event_number todo g = (g', Ok per_dut) ->
    Forall (fun t => Pre (snd t)) todo ->
    Forall2 (fun t r => Post (fst t) (fst r) (snd r)) todo per_dut.
Proof using digitize_dut_Post.
  induction todo as [| [dut dut_hits] todo IH]; intros g g' per_dut; cbn [digitize_loop].
  - intros H _. apply ret_Ok in H as [<- _]. constructor.
  - intros H Hpre. apply Forall_cons in Hpre as [Hone Hpre].
    apply bind_Ok in H as ([events digits] & g1 & Hdut & H).
    apply bind_Ok in H as (others & g2 & Hrest & H).
    apply ret_Ok in H as [<- _].
    constructor; [| exact (IH _ _ _ Hrest Hpre)].
    cbn [fst snd] in *. exact (digitize_dut_Post _ _ _ _ _ _ Hdut Hone).
Qed.

Lemma digitize_hits_each (hits : list (list (float * float))) (g g' : generator)
    (event_numbers : list (list Z)) (digitized_hits : list (list digit)) :
  _digitize_hits erf source stray self event_number hits g
  = (g', Ok (event_numbers, digitized_hits)) ->
  Forall Pre hits ->
  length event_numbers = Nat.min (length (duts self)) (length hits)
  /\ length digitized_hits = Nat.min (length (duts self)) (length hits)
  /\ (forall (dut_index : nat) (dut : plane) (events : list Z) (digits : list digit),
        duts self !! dut_index = Some dut ->
        event_numbers !! dut_index = Some events ->
        digitized_hits !! dut_index = Some digits ->
        Post dut events digits).
Proof using digitize_dut_Post.
  unfold _digitize_hits. intros H Hpre.
  apply bind_Ok in H as (per_dut & g1 & Hloop & H).
  apply ret_Ok in H as [[= <- <-] _].
  apply digitize_loop_each in Hloop.
  - pose proof (Forall2_length _ _ _ Hloop) as Hlen. rewrite length_combine in Hlen.
    rewrite !length_map. split; [lia |]. split; [lia |].
    intros i dut events digits Hdut He Hd.
    apply list_lookup_fmap_Some in He as ([events' digits'] & -> & Hk).
    apply list_lookup_fmap_Some in Hd as ([events'' digits''] & -> & Hk').
    rewrite Hk in Hk'. injection Hk' as <- <-.
    destruct (Forall2_lookup_r _ _ _ _ _ Hloop Hk) as ([dut' dut_hits] & Hin & Hpost).
    apply lookup_combine_Some in Hin as [Hd' _].
    rewrite Hdut in Hd'. injection Hd' as <-. exact Hpost.
  - apply Forall_forall. intros [dut dut_hits] Hin. cbn [snd].
    rewrite Forall_forall in Hpre. apply Hpre.
    apply list_elem_of_lookup in Hin as [i Hi].
    apply lookup_combine_Some in Hi as [_ Hi]. eapply list_elem_of_lookup_2, Hi.
Qed.

(** [_create_hits_from_tracks] returns one array per device, with one
point per track. *)
Lemma create_hits_from_tracks_shape
    (track_positions_x track_positions_y track_angles_phi track_angles_theta : list float)
    (n : nat) :
  length track_positions_x = n -> length track_positions_y = n ->
  length track_angles_phi = n -> length track_angles_theta = n ->
  length (_create_hits_from_tracks cos sin self track_positions_x track_positions_y
            track_angles_phi track_angles_theta) = length (duts self)
  /\ Forall (fun dut_hits => length dut_hits = n)
       (_create_hits_from_tracks cos sin self track_positions_x track_positions_y
          track_angles_phi track_angles_theta).
Proof.
  intros Hx Hy Hp Ht. unfold _create_hits_from_tracks. split; [apply length_map |].
  apply Forall_forall. intros dut_hits Hin.
  apply list_elem_of_fmap in Hin as (dut & -> & _).
  rewrite length_map, !length_combine. lia.
Qed.

End LoopFacts.

(** The event numbers [_create_data] hands to [_digitize_hits] are in
increasing order and events of the chunk, and the hits of every device
number as many. *)
Lemma create_data_each (erf cos sin : float -> float) (source : entropy) (stray : float)
    (self : settings) (fuel : nat) (start_event_number n_events : Z) (g g' : generator)
    (event_numbers : list (list Z)) (digitized_hits : list (list digit)) :
  _create_data erf cos sin source stray self fuel start_event_number n_events g
  = (g', Ok (event_numbers, digitized_hits)) ->
  exists (event_number0 : list Z) (hits : list (list (float * float))) (g0 : generator),
    chunk_events start_event_number n_events event_number0
    /\ length hits = length (duts self)
    /\ Forall (fun dut_hits => length dut_hits = length event_number0) hits
    /\ _digitize_hits erf source stray self event_number0 hits g0
       = (g', Ok (event_numbers, digitized_hits)).
Proof.
  unfold _create_data. intros H.
  apply bind_Ok in H as (drawn & g1 & Hdrawn & H).
  apply bind_Ok in H as ([[[xs ys] phi] theta] & g2 & Htracks & H).
  apply create_tracks_returns in Htracks as (Hx & Hy & Hp & Ht & _).
  apply np_random_normal_length in Hdrawn.
  set (n_tracks_per_event := map (fun x => Z.max 0 (astype_int x)) drawn) in *.
  set (event_number0 := map _ (np_repeat _ _)) in *.
  assert (Hlen : length event_number0
                 = Z.to_nat (fold_right Z.add 0%Z n_tracks_per_event)).
  { unfold event_number0. rewrite length_map, np_repeat_length.
    - apply sum_to_nat. unfold n_tracks_per_event.
      apply Forall_forall. intros z Hz. apply list_elem_of_fmap in Hz as (x & -> & _). lia.
    - unfold n_tracks_per_event. rewrite range_length, !length_map. lia. }
  exists event_number0, (_create_hits_from_tracks cos sin self xs ys phi theta), g2.
  destruct (create_hits_from_tracks_shape cos sin self xs ys phi theta _ Hx Hy Hp Ht)
    as [Hhits Heach].
  split; [split |]; [| | split; [exact Hhits | split; [| exact H]]].
  - unfold event_number0. apply shifted_sorted, np_repeat_sorted, range_sorted.
  - unfold event_number0. apply Forall_forall. intros e He.
    apply list_elem_of_fmap in He as (e0 & -> & He).
    apply np_repeat_elem_of, elem_of_range in He. lia.
  - now rewrite Hlen.
Qed.

(** From one device to the devices of a chunk: what [digitize_dut] ensures
for event numbers in order, within the chunk and as many as the hits, holds
of the arrays [_create_data] returns for every device. *)
Lemma create_data_devices (erf cos sin : float -> float) (source : entropy) (stray : float)
    (self : settings) (fuel : nat) (start_event_number n_events : Z)
    (Post : plane -> list Z -> list digit -> Prop) :
  (forall (event_number : list Z) (dut : plane) (dut_hits : list (float * float))
          (g g' : generator) (events : list Z) (digits : list digit),
      chunk_events start_event_number n_events event_number ->
      length dut_hits = length event_number ->
      digitize_dut erf source stray self event_number dut dut_hits g
      = (g', Ok (events, digits)) ->
      Post dut events digits) ->
  forall (g g' : generator) (event_numbers : list (list Z))
         (digitized_hits : list (list digit)),
    _create_data erf cos sin source stray self fuel start_event_number n_events g
    = (g', Ok (event_numbers, digitized_hits)) ->
    length event_numbers = length (duts self)
    /\ length digitized_hits = length (duts self)
    /\ (forall (dut_index : nat) (dut : plane) (events : list Z) (digits : list digit),
          duts self !! dut_index = Some dut ->
          event_numbers !! dut_index = Some events ->
          digitized_hits !! dut_index = Some digits ->
          Post dut events digits).
Proof.
  intros Hpost g g' event_numbers digitized_hits H.
  apply create_data_each in H as (event_number0 & hits & g0 & Hev & Hhits & Heach & H).
  apply (digitize_hits_each erf source stray self event_number0
           (fun dut_hits => length dut_hits = length event_number0) Post) in H;
    [| | exact Heach].
  - destruct H as (He & Hd & Hall). rewrite Hhits, Nat.min_id in He, Hd. now repeat split.
  - intros dut dut_hits g1 g2 events digits Hrun Hlen.
    exact (Hpost event_number0 dut dut_hits g1 g2 events digits Hev Hlen Hrun).
Qed.

Lemma table_rows_events (events : list Z) :
  forall digits : list digit,
    map event_number (table_rows events digits) `sublist_of` events.
Proof.
  unfold table_rows.
  induction events as [| e events IH]; intros [| d digits]; cbn; try constructor.
  - apply sublist_nil_l.
  - apply IH.
Qed.

Lemma table_rows_length (events : list Z) (digits : list digit) :
  length events = length digits -> length (table_rows events digits) = length digits.
Proof. intros H. unfold table_rows. rewrite length_map, length_combine. lia. Qed.

(** X16.  [_create_data] returns one array of event numbers and one
array of hits per device, and for every device the two have the same
length: each record has its event number, and gives one row of the
table. *)
Theorem every_record_has_its_event_number
    (erf cos sin : float -> float) (source : entropy) (stray : float) (self : settings)
    (fuel : nat) (start_event_number n_events : Z) (g g' : generator)
    (event_numbers : list (list Z)) (digitized_hits : list (list digit)) :
  _create_data erf cos sin source stray self fuel start_event_number n_events g
  = (g', Ok (event_numbers, digitized_hits)) ->
  length event_numbers = length (duts self)
  /\ length digitized_hits = length (duts self)
  /\ Forall2 (fun events digits =>
                length events = length digits
                /\ length (table_rows events digits) = length digits)
             event_numbers digitized_hits.
Proof.
  intros H.
  apply (create_data_devices erf cos sin source stray self fuel start_event_number n_events
           (fun _ events digits => length events = length digits)) in H.
  - destruct H as (He & Hd & Hall). split; [exact He |]. split; [exact Hd |].
    apply Forall2_same_length_lookup. split; [congruence |].
    intros i events digits Hi Hj.
    destruct (lookup_lt_is_Some_2 (duts self) i) as [dut Hdut].
    { apply lookup_lt_Some in Hi. lia. }
    pose proof (Hall i dut events digits Hdut Hi Hj) as Hlen.
    split; [exact Hlen | exact (table_rows_length _ _ Hlen)].
  - intros event_number dut dut_hits g1 g2 events digits _ Hlen Hrun.
    exact (digitize_dut_aligned _ _ _ _ _ _ _ _ _ _ _ Hrun Hlen).
Qed.

(** X17.  The event numbers [_create_data] returns for a device are in
increasing order, and each is an event of the chunk: at least
[start_event_number] and below [start_event_number + n_events]. *)
Theorem event_numbers_of_a_chunk_are_sorted
    (erf cos sin : float -> float) (source : entropy) (stray : float) (self : settings)
    (fuel : nat) (start_event_number n_events : Z) (g g' : generator)
    (event_numbers : list (list Z)) (digitized_hits : list (list digit)) :
  _create_data erf cos sin source stray self fuel start_event_number n_events g
  = (g', Ok (event_numbers, digitized_hits)) ->
  Forall (chunk_events start_event_number n_events) event_numbers.
Proof.
  intros H.
  apply (create_data_devices erf cos sin source stray self fuel start_event_number n_events
           (fun _ events _ => chunk_events start_event_number n_events events)) in H.
  - destruct H as (He & Hd & Hall).
    apply Forall_lookup. intros i events Hi.
    destruct (lookup_lt_is_Some_2 (duts self) i) as [dut Hdut].
    { apply lookup_lt_Some in Hi. lia. }
    destruct (lookup_lt_is_Some_2 digitized_hits i) as [digits Hdig].
    { apply lookup_lt_Some in Hi. lia. }
    exact (Hall i dut events digits Hdut Hi Hdig).
  - intros event_number dut dut_hits g1 g2 events digits Hev _ Hrun.
    exact (digitize_dut_chunk_events _ _ _ _ _ _ _ _ _ _ _ _ _ Hev Hrun).
Qed.

(** X18.  Every record [_digitize_hits] returns for a device passes the
threshold test of the last step as numpy makes it: [charge >= threshold]
with the threshold of the device rounded to float32 when the charges are
those of the float32 array of the charge sharing, and as it stands
otherwise. *)
Theorem digitized_hits_pass_the_threshold
    (erf : float -> float) (source : entropy) (stray : float) (self : settings)
    (event_number : list Z) (hits : list (list (float * float)))
    (g g' : generator) (event_numbers : list (list Z)) (digitized_hits : list (list digit)) :
  _digitize_hits erf source stray self event_number hits g
  = (g', Ok (event_numbers, digitized_hits)) ->
  forall (dut_index : nat) (dut : plane) (records : list digit),
    duts self !! dut_index = Some dut ->
    digitized_hits !! dut_index = Some records ->
    Forall (fun d =>
              ((if digitization_charge_sharing self
                then F64.to_float32 (dut_threshold dut) else dut_threshold dut)
               <=? digit_charge d) = true) records.
Proof.
  intros H i dut records Hdut Hrec.
  apply (digitize_hits_each erf source stray self event_number
           (fun _ => True)
           (fun dut _ digits =>
              Forall (fun d => (compared_threshold self dut <=? digit_charge d) = true)
                     digits)) in H.
  - destruct H as (He & Hd & Hall).
    destruct (lookup_lt_is_Some_2 event_numbers i) as [events Hev].
    { apply lookup_lt_Some in Hrec. lia. }
    exact (Hall i dut events records Hdut Hev Hrec).
  - intros dut0 dut_hits g1 g2 events digits Hrun _.
    unfold digitize_dut in Hrun.
    apply bind_Ok in Hrun as (deposited & g3 & _ & Hrun).
    apply bind_Ok in Hrun as (a & g4 & _ & Hrun).
    apply bind_Ok in Hrun as (b & g5 & _ & Hrun).
    apply bind_Ok in Hrun as (c & g6 & _ & Hrun).
    apply ret_Ok in Hrun as [[= _ <-] _].
    unfold delete_below_threshold. cbn [fst].
    apply (select_by_test (fun d => compared_threshold self dut0 <=? digit_charge d)).
  - apply Forall_forall. intros; exact I.
Qed.

Lemma every_record_has_its_event_number_witness :
  let chunk :=
    returned ([], [])
      (_create_data Reference.erf cos_at_0 sin_at_0 calm 0 std_settings 0 4 2 seeded) in
  length (fst chunk) = length (duts std_settings)
  /\ length (snd chunk) = length (duts std_settings)
  /\ Forall2 (fun events digits =>
                length events = length digits
                /\ length (table_rows events digits) = length digits)
             (fst chunk) (snd chunk).
Proof.
  cbv zeta.
  apply (every_record_has_its_event_number Reference.erf cos_at_0 sin_at_0 calm 0
           std_settings 0 4 2 seeded
           (fst (_create_data Reference.erf cos_at_0 sin_at_0 calm 0 std_settings 0 4 2
                   seeded))).
  vm_compute. reflexivity.
Defined.

Lemma event_numbers_of_a_chunk_are_sorted_witness :
  Forall (chunk_events 4 2)
    (fst (returned ([], [])
            (_create_data Reference.erf cos_at_0 sin_at_0 calm 0 std_settings 0 4 2 seeded))).
Proof.
  apply (event_numbers_of_a_chunk_are_sorted Reference.erf cos_at_0 sin_at_0 calm 0
           std_settings 0 4 2 seeded
           (fst (_create_data Reference.erf cos_at_0 sin_at_0 calm 0 std_settings 0 4 2
                   seeded))
           _
           (snd (returned ([], [])
                   (_create_data Reference.erf cos_at_0 sin_at_0 calm 0 std_settings 0 4 2
                      seeded)))).
  vm_compute. reflexivity.
Defined.

Lemma digitized_hits_pass_the_threshold_witness :
  Forall (fun d => (F64.to_float32 1925.1 <=? digit_charge d) = true)
    (nth 0 (digitized_of (_digitize_hits Reference.erf brisk 0
                            (with_duts [fine_threshold] std_settings) [0; 1]%Z
                            [on_axis_and_beside] seeded)) []).
Proof.
  eapply (digitized_hits_pass_the_threshold Reference.erf brisk 0
            (with_duts [fine_threshold] std_settings) [0; 1]%Z
            [on_axis_and_beside] seeded)
    with (dut_index := 0%nat) (dut := fine_threshold).
  - lazy. reflexivity.
  - reflexivity.
  - lazy. reflexivity.
Defined.

(** ** The inefficiency mask *)

Lemma count_true_cons (b : bool) (selection : list bool) :
  count_true (b :: selection) = ((if b then 1 else 0) + count_true selection)%nat.
Proof.
  unfold count_true. rewrite filter_cons.
  destruct b; destruct (decide _); try discriminate; try contradiction; reflexivity.
Qed.

Lemma select_count {A} (selection : list bool) :
  forall a : list A, length a = length selection ->
    length (select selection a) = count_true selection.
Proof.
  induction selection as [| b selection IH]; intros [| x a]; try discriminate.
  - reflexivity.
  - intros [= Hlen]. rewrite select_cons, count_true_cons.
    destruct b; cbn [length]; rewrite (IH a Hlen); reflexivity.
Qed.

Lemma count_true_clear (selection : list bool) :
  forall i : nat, selection !! i = Some true ->
    S (count_true (<[i := false]> selection)) = count_true selection.
Proof.
  induction selection as [| b selection IH]; intros [| i] Hi; try discriminate.
  - cbn in Hi. injection Hi as ->.
    change (<[0%nat := false]> (true :: selection)) with (false :: selection).
    now rewrite !count_true_cons.
  - cbn in Hi.
    change (<[S i := false]> (b :: selection)) with (b :: <[i := false]> selection).
    rewrite !count_true_cons, <- (IH i Hi). lia.
Qed.

Lemma lookup_repeat {A} (x : A) (n i : nat) : (i < n)%nat -> repeat x n !! i = Some x.
Proof.
  revert i. induction n as [| n IH]; intros [| i] Hi; cbn; try lia; [reflexivity |].
  apply IH. lia.
Qed.

Lemma count_true_repeat (n : nat) : count_true (repeat true n) = n.
Proof.
  induction n as [| n IH]; [reflexivity |].
  cbn [repeat]. rewrite count_true_cons, IH. reflexivity.
Qed.

(** Clearing the entries at distinct indices of an array that holds
everywhere leaves as many entries fewer. *)
Lemma count_true_cleared (n : nat) (indices : list nat) :
  NoDup indices -> Forall (fun i => (i < n)%nat) indices ->
  length (foldr (fun i sel => <[i := false]> sel) (repeat true n) indices) = n
  /\ (forall i : nat, (i < n)%nat -> i ∉ indices ->
        foldr (fun i sel => <[i := false]> sel) (repeat true n) indices !! i = Some true)
  /\ (count_true (foldr (fun i sel => <[i := false]> sel) (repeat true n) indices)
      + length indices = n)%nat.
Proof.
  intros Hnd. induction Hnd as [| i indices Hnot Hnd IH]; intros Hlt; cbn [foldr length].
  - split; [apply repeat_length |]. split.
    + intros i Hi _. now apply lookup_repeat.
    + rewrite count_true_repeat. lia.
  - apply Forall_cons in Hlt as [Hi Hlt].
    destruct (IH Hlt) as (Hlen & Hlook & Hcount).
    split; [now rewrite length_insert |]. split.
    + intros j Hj Hout. apply not_elem_of_cons in Hout as [Hne Hout].
      rewrite list_lookup_insert_ne by congruence. now apply Hlook.
    + pose proof (count_true_clear _ i (Hlook i Hi Hnot)). lia.
Qed.

(** X19.  When the shuffle of the hit indices is a permutation of them,
the inefficiency step removes exactly [n_inefficient_hit] records (all of
them when there are fewer), where [n_inefficient_hit], the whole part of
the number of records times [1 - efficiency], is not negative; hits and
event numbers stay together. *)
Theorem inefficiency_removes_a_fixed_number_of_records
    (source : entropy) (dut : plane)
    (a b : list digit * list Z) (g g' : generator) (n_inefficient_hit : Z) :
  mask_inefficient source dut a g = (g', Ok b) ->
  shuffled source (cursor g) (length (snd a)) ≡ₚ seq 0 (length (snd a)) ->
  length (fst a) = length (snd a) ->
  F64.trunc (F64.of_Z (Z.of_nat (length (snd a))) * (1 - dut_efficiency dut))
  = Some n_inefficient_hit ->
  (0 <= n_inefficient_hit)%Z ->
  length (fst b) = (length (fst a) - Z.to_nat n_inefficient_hit)%nat
  /\ length (snd b) = length (fst b).
Proof.
  unfold mask_inefficient, np_random_shuffle. intros H Hperm Hlen Hk Hpos.
  apply bind_Ok in H as (hit_indices & g1 & Hshuffle & H).
  apply bind_Ok in Hshuffle as (c & g2 & Hc & Hshuffle).
  unfold consume in Hc. injection Hc as <- <-.
  apply ret_Ok in Hshuffle as [<- <-].
  assert (Hsame : length (shuffled source (cursor g) (length (snd a))) = length (snd a)).
  { rewrite Hperm. apply length_seq. }
  rewrite Hsame, Hk in H.
  apply bind_Ok in H as (k & g3 & Hk' & H). apply lift_Ok in Hk' as [[= <-] _].
  apply ret_Ok in H as [<- _]. cbn [fst snd].
  unfold slice_to. destruct (Z.leb_spec 0 n_inefficient_hit) as [_ | ?]; [| lia].
  set (indices := take (Z.to_nat n_inefficient_hit) (shuffled source (cursor g) (length (snd a)))).
  assert (Hnd : NoDup indices).
  { apply (sublist_NoDup _ (shuffled source (cursor g) (length (snd a)))).
    - rewrite Hperm. apply NoDup_ListNoDup, seq_NoDup.
    - apply sublist_take. }
  assert (Hlt : Forall (fun i => (i < length (snd a))%nat) indices).
  { apply Forall_forall. intros i Hi.
    pose proof (elem_of_sublist _ _ _ Hi (sublist_take _ _)) as Hin.
    rewrite Hperm in Hin. apply list_elem_of_In, in_seq in Hin. lia. }
  destruct (count_true_cleared _ _ Hnd Hlt) as (Hsel & _ & Hcount).
  rewrite !select_count by (rewrite Hsel; congruence).
  split; [| reflexivity].
  assert (length indices = Nat.min (Z.to_nat n_inefficient_hit) (length (snd a)))
    by (unfold indices; rewrite length_take, Hsame; reflexivity).
  lia.
Qed.

Lemma inefficiency_removes_a_fixed_number_of_records_witness :
  let kept := returned ([], []) (mask_inefficient calm half_efficient four_records seeded) in
  length (fst kept) = (length (fst four_records) - Z.to_nat 2)%nat
  /\ length (snd kept) = length (fst kept).
Proof.
  cbv zeta.
  apply (inefficiency_removes_a_fixed_number_of_records calm half_efficient four_records
           _ seeded (fst (mask_inefficient calm half_efficient four_records seeded)) 2%Z).
  - vm_compute. reflexivity.
  - reflexivity.
  - reflexivity.
  - vm_compute. reflexivity.
  - lia.
Defined.

(** ** The tables of a run *)

Lemma create_data_negative (erf cos sin : float -> float) (source : entropy) (stray : float)
    (self : settings) (fuel : nat) (start_event_number n_events : Z) (g : generator) :
  (n_events < 0)%Z ->
  _create_data erf cos sin source stray self fuel start_event_number n_events g
  = (g, Raise ValueError).
Proof.
  intros Hn. unfold _create_data, bind, np_random_normal.
  destruct (Z.ltb_spec n_events 0) as [_ | ?]; [reflexivity | lia].
Qed.

Section ChunkFacts.

Variables (erf cos sin : float -> float) (source : entropy) (stray : float) (self : settings).
Variables (fuel : nat) (chunk_size : Z).

(** What holds of the arrays of a device for the chunk that starts at a
given event number, and what holds of its table before that chunk. *)
Variable Chunk : Z -> plane -> list Z -> list digit -> Prop.
Variable Inv : Z -> plane -> list table_row -> Prop.

Hypothesis create_data_Chunk :
  forall (start_event_number : Z) (g g' : generator)
         (event_numbers : list (list Z)) (digitized_hits : list (list digit)),
    _create_data erf cos sin source stray self fuel start_event_number chunk_size g
    = (g', Ok (event_numbers, digitized_hits)) ->
    length event_numbers = length (duts self)
    /\ length digitized_hits = length (duts self)
    /\ (forall (dut_index : nat) (dut : plane) (events : list Z) (digits : list digit),
          duts self !! dut_index = Some dut ->
          event_numbers !! dut_index = Some events ->
          digitized_hits !! dut_index = Some digits ->
          Chunk start_event_number dut events digits).

Hypothesis Inv_step :
  forall (start_event_number : Z) (dut : plane) (table : list table_row)
         (events : list Z) (digits : list digit),
    Inv start_event_number dut table ->
    Chunk start_event_number dut events digits ->
    Inv (start_event_number + chunk_size)%Z dut (table ++ table_rows events digits).

Lemma chunk_loop_each (n : nat) :
  forall (first : nat) (hit_tables : list (list table_row)) (g g' : generator)
         (hit_tables' : list (list table_row)),
    chunk_loop erf cos sin source stray self fuel
      (map (fun chunk_index : nat => ((Z.of_nat chunk_index * chunk_size)%Z, chunk_size))
           (seq first n))
      hit_tables g = (g', Ok hit_tables') ->
    length hit_tables = length (duts self) ->
    (forall (dut_index : nat) (dut : plane) (table : list table_row),
        duts self !! dut_index = Some dut -> hit_tables !! dut_index = Some table ->
        Inv (Z.of_nat first * chunk_size)%Z dut table) ->
    length hit_tables' = length (duts self)
    /\ (forall (dut_index : nat) (dut : plane) (table : list table_row),
          duts self !! dut_index = Some dut -> hit_tables' !! dut_index = Some table ->
          Inv (Z.of_nat (first + n) * chunk_size)%Z dut table).
Proof using create_data_Chunk Inv_step.
  induction n as [| n IH]; intros first hit_tables g g' hit_tables'; cbn [seq map chunk_loop].
  - intros H Hlen Hinv. apply ret_Ok in H as [<- _]. rewrite Nat.add_0_r. now split.
  - intros H Hlen Hinv.
    apply bind_Ok in H as ([event_numbers digitized_hits] & g1 & Hchunk & H).
    apply create_data_Chunk in Hchunk as (He & Hd & Hall).
    cbn [fst snd] in H.
    apply IH in H.
    + replace (first + S n)%nat with (S first + n)%nat by lia. exact H.
    + rewrite length_map, !length_combine. lia.
    + intros i dut table Hdut Hi.
      apply list_lookup_fmap_Some in Hi as ([table0 [events digits]] & -> & Hi).
      apply lookup_combine_Some in Hi as [Ht Hi].
      apply lookup_combine_Some in Hi as [Hev Hdig].
      cbn [fst snd].
      replace (Z.of_nat (S first) * chunk_size)%Z
        with (Z.of_nat first * chunk_size + chunk_size)%Z by lia.
      apply Inv_step; [exact (Hinv i dut table0 Hdut Ht) |].
      exact (Hall i dut events digits Hdut Hev Hdig).
Qed.

End ChunkFacts.

Lemma chunk_calls_Ok (n_events chunk_size : Z) (calls : list (Z * Z)) :
  chunk_calls n_events chunk_size = Ok calls ->
  chunk_size <> 0%Z
  /\ exists n : nat,
       calls = map (fun chunk_index : nat => ((Z.of_nat chunk_index * chunk_size)%Z, chunk_size))
                   (seq 0 n).
Proof.
  unfold chunk_calls, range_len.
  destruct (Z.eqb_spec chunk_size 0) as [-> | Hne]; [discriminate |].
  split; [exact Hne |].
  destruct (0 <? chunk_size)%Z; injection H as <-; eexists; reflexivity.
Qed.

(** From the chunks to the run: an invariant of the tables that every
chunk of [chunk_size] events keeps holds of the tables of the run. *)
Lemma run_each (erf cos sin : float -> float) (source : entropy) (stray : float)
    (self : settings) (fuel : nat) (n_events chunk_size : Z)
    (Chunk : Z -> plane -> list Z -> list digit -> Prop)
    (Inv : Z -> plane -> list table_row -> Prop) :
  (forall (start_event_number : Z) (g g' : generator)
          (event_numbers : list (list Z)) (digitized_hits : list (list digit)),
      (0 < chunk_size)%Z ->
      _create_data erf cos sin source stray self fuel start_event_number chunk_size g
      = (g', Ok (event_numbers, digitized_hits)) ->
      length event_numbers = length (duts self)
      /\ length digitized_hits = length (duts self)
      /\ (forall (dut_index : nat) (dut : plane) (events : list Z) (digits : list digit),
            duts self !! dut_index = Some dut ->
            event_numbers !! dut_index = Some events ->
            digitized_hits !! dut_index = Some digits ->
            Chunk start_event_number dut events digits)) ->
  (forall (start_event_number : Z) (dut : plane) (table : list table_row)
          (events : list Z) (digits : list digit),
      (0 < chunk_size)%Z ->
      Inv start_event_number dut table ->
      Chunk start_event_number dut events digits ->
      Inv (start_event_number + chunk_size)%Z dut (table ++ table_rows events digits)) ->
  (forall dut : plane, Inv 0%Z dut []) ->
  forall (g g' : generator) (hit_tables : list (list table_row)),
    create_data_and_store erf cos sin source stray self fuel n_events chunk_size g
    = (g', Ok hit_tables) ->
    length hit_tables = length (duts self)
    /\ exists n : nat,
         forall (dut_index : nat) (dut : plane) (table : list table_row),
           duts self !! dut_index = Some dut -> hit_tables !! dut_index = Some table ->
           Inv (Z.of_nat n * chunk_size)%Z dut table.
Proof.
  intros Hchunk Hstep Hempty g g' hit_tables H.
  unfold create_data_and_store in H.
  apply bind_Ok in H as (calls & g1 & Hcalls & H).
  apply lift_Ok in Hcalls as [Hcalls <-].
  apply chunk_calls_Ok in Hcalls as (Hne & n & ->).
  assert (Hinit : forall (dut_index : nat) (dut : plane) (table : list table_row),
             duts self !! dut_index = Some dut ->
             map (fun _ : plane => @nil table_row) (duts self) !! dut_index = Some table ->
             Inv (Z.of_nat 0 * chunk_size)%Z dut table).
  { intros i dut table _ Hi. apply list_lookup_fmap_Some in Hi as (d & -> & _).
    apply Hempty. }
  destruct (Z_lt_le_dec 0 chunk_size) as [Hpos | Hneg].
  - apply (chunk_loop_each erf cos sin source stray self fuel chunk_size Chunk Inv) in H.
    + destruct H as [Hlen Hinv]. split; [exact Hlen |]. exists (0 + n)%nat. exact Hinv.
    + intros; eapply Hchunk; eassumption.
    + intros; now apply Hstep.
    + apply length_map.
    + exact Hinit.
  - destruct n as [| n].
    + cbn [seq map chunk_loop] in H. apply ret_Ok in H as [<- _].
      split; [apply length_map |]. exists 0%nat. exact Hinit.
    + cbn [seq map chunk_loop] in H. unfold bind in H.
      rewrite create_data_negative in H by lia. discriminate.
Qed.

(** X21.  A run that returns leaves one table per device, and the event
numbers of every table are in increasing order, over all the chunks. *)
Theorem tables_are_sorted_by_event_number
    (erf cos sin : float -> float) (source : entropy) (stray : float) (self : settings)
    (fuel : nat) (n_events chunk_size : Z) (g g' : generator)
    (hit_tables : list (list table_row)) :
  create_data_and_store erf cos sin source stray self fuel n_events chunk_size g
  = (g', Ok hit_tables) ->
  length hit_tables = length (duts self)
  /\ Forall (fun table => StronglySorted Z.le (map event_number table)) hit_tables.
Proof.
  intros H.
  apply (run_each erf cos sin source stray self fuel n_events chunk_size
           (fun start _ events _ => chunk_events start chunk_size events)
           (fun bound _ table => sorted_below bound table)) in H.
  - destruct H as (Hlen & n & Hall). split; [exact Hlen |].
    apply Forall_lookup. intros i table Hi.
    destruct (lookup_lt_is_Some_2 (duts self) i) as [dut Hdut].
    { apply lookup_lt_Some in Hi. lia. }
    exact (proj1 (proj2 (Hall i dut table Hdut Hi))).
  - intros start g1 g2 event_numbers digitized_hits _ Hrun.
    apply (create_data_devices erf cos sin source stray self fuel start chunk_size
             (fun _ events _ => chunk_events start chunk_size events)) in Hrun;
      [exact Hrun |].
    intros event_number dut dut_hits g3 g4 events digits Hev _ Hdut.
    exact (digitize_dut_chunk_events _ _ _ _ _ _ _ _ _ _ _ _ _ Hev Hdut).
  - intros start dut table events digits Hpos (Hb & Hs & Hr) [Hes Her].
    pose proof (table_rows_events events digits) as Hsub.
    assert (Hnew : Forall (fun e => start <= e < start + chunk_size)%Z
                     (map event_number (table_rows events digits))).
    { rewrite Forall_forall in Her. apply Forall_forall. intros e He.
      apply Her. eapply elem_of_sublist; eassumption. }
    rewrite Forall_forall in Hr, Hnew.
    split; [lia |]. rewrite map_app. split.
    + apply sorted_app; [exact Hs | eapply StronglySorted_sublist; eassumption |].
      intros x y Hx Hy. apply Hr in Hx. apply Hnew in Hy. lia.
    + apply Forall_app. split; apply Forall_forall; intros e He.
      * apply Hr in He. lia.
      * apply Hnew in He. lia.
  - intros dut. split; [lia |]. split; constructor.
Qed.

(** X22.  Every row of the table of a device with fewer than 65536
pixels a side has 1 <= column <= the pixel count in x and
1 <= row <= the pixel count in y of that device: the cast to uint16 of
the table keeps the columns and rows of the records. *)
Theorem table_rows_lie_on_their_device
    (erf cos sin : float -> float) (source : entropy) (stray : float) (self : settings)
    (fuel : nat) (n_events chunk_size : Z) (g g' : generator)
    (hit_tables : list (list table_row)) :
  create_data_and_store erf cos sin source stray self fuel n_events chunk_size g
  = (g', Ok hit_tables) ->
  forall (dut_index : nat) (dut : plane) (table : list table_row),
    duts self !! dut_index = Some dut ->
    hit_tables !! dut_index = Some table ->
    (fst (dut_n_pixel dut) < 65536)%Z -> (snd (dut_n_pixel dut) < 65536)%Z ->
    Forall (row_on_device dut) table.
Proof.
  intros H i dut table Hdut Hi Hx Hy.
  apply (run_each erf cos sin source stray self fuel n_events chunk_size
           (fun _ dut _ digits => Forall (on_device dut) digits)
           (fun _ dut table =>
              (fst (dut_n_pixel dut) < 65536)%Z -> (snd (dut_n_pixel dut) < 65536)%Z ->
              Forall (row_on_device dut) table)) in H.
  - destruct H as (_ & n & Hall). exact (Hall i dut table Hdut Hi Hx Hy).
  - intros start g1 g2 event_numbers digitized_hits _ Hrun.
    apply (create_data_devices erf cos sin source stray self fuel start chunk_size
             (fun dut _ digits => Forall (on_device dut) digits)) in Hrun;
      [exact Hrun |].
    intros event_number dut0 dut_hits g3 g4 events digits _ _ Hrun0.
    exact (digitize_dut_on_device _ _ _ _ _ _ _ _ _ _ _ Hrun0).
  - intros start dut0 table0 events digits _ Hold Hnew Hx0 Hy0.
    apply Forall_app. split; [exact (Hold Hx0 Hy0) |].
    exact (table_rows_on_device dut0 events digits Hnew Hx0 Hy0).
  - intros dut0 _ _. constructor.
Qed.

Lemma tables_are_sorted_by_event_number_witness :
  let hit_tables :=
    returned []
      (create_data_and_store Reference.erf cos_at_0 sin_at_0 calm 0
         (without_charge_sharing std_settings) 0 3 2 seeded) in
  length hit_tables = length (duts (without_charge_sharing std_settings))
  /\ Forall (fun table => StronglySorted Z.le (map event_number table)) hit_tables.
Proof.
  cbv zeta.
  apply (tables_are_sorted_by_event_number Reference.erf cos_at_0 sin_at_0 calm 0
           (without_charge_sharing std_settings) 0 3 2 seeded
           (fst (create_data_and_store Reference.erf cos_at_0 sin_at_0 calm 0
                   (without_charge_sharing std_settings) 0 3 2 seeded))).
  vm_compute. reflexivity.
Defined.

Lemma table_rows_lie_on_their_device_witness :
  Forall (row_on_device (std_plane 0))
    (nth 0 (returned []
              (create_data_and_store Reference.erf cos_at_0 sin_at_0 calm 0
                 (without_charge_sharing std_settings) 0 3 2 seeded)) []).
Proof.
  eapply (table_rows_lie_on_their_device Reference.erf cos_at_0 sin_at_0 calm 0
            (without_charge_sharing std_settings) 0 3 2 seeded
            (fst (create_data_and_store Reference.erf cos_at_0 sin_at_0 calm 0
                    (without_charge_sharing std_settings) 0 3 2 seeded))
            (returned []
               (create_data_and_store Reference.erf cos_at_0 sin_at_0 calm 0
                  (without_charge_sharing std_settings) 0 3 2 seeded)))
    with (dut_index := 0%nat).
  - vm_compute. reflexivity.
  - reflexivity.
  - vm_compute. reflexivity.
  - cbn. lia.
  - cbn. lia.
Defined.

Lemma chunks_round_the_event_count_up_witness :
  exists calls : list (Z * Z),
    chunk_calls 1000 293 = Ok calls
    /\ simulated_events calls = (293 * ((1000 + 293 - 1) / 293))%Z
    /\ (1000 <= simulated_events calls)%Z
    /\ (simulated_events calls = 1000%Z <-> (1000 mod 293 = 0)%Z)
    /\ (forall (k : nat) (start_event_number n : Z),
          calls !! k = Some (start_event_number, n) ->
          n = 293%Z /\ start_event_number = simulated_events (take k calls)).
Proof.
  apply (chunks_round_the_event_count_up 1000 293); lia.
Defined.
